(** * Leader election on a ring: the round scheduler of [P4/Practica4]

    A shallow embedding of the classes [Node], [Edge] and [Graph] of the
    Python script, of the ring construction done at the bottom of the script,
    and of [Graph.process_round], [Graph.round_process] and
    [Graph.run_election], followed by the properties of the protocol.

    Python objects are mutable and shared by reference: the same [Node] object
    is reachable from [self.nodes], from the keys of [self.messages] and from
    the [left_neighbor] / [right_neighbor] attributes of its neighbours.  The
    embedding keeps the [Node] objects in a store ([heap]), and a reference to
    a node is its position in that store.

    The SimPy environment is used by the script as a clock only
    ([self.env.now], advanced by one by each [yield self.env.timeout(1)]);
    it is modelled by the field [now].  The [print] calls change no state
    and are left out; of [graficar_anillo] the embedding keeps what it hands
    to the drawing library. *)

From Stdlib Require Import ZArith Lia.
From stdpp Require Import base option list gmap.

Local Open Scope Z_scope.

(** ** Data model *)

(** The five string constants a node's [status] ranges over. *)
Inductive Status := asleep | participating | relay | not_elected | elected.

#[global] Instance Status_eq_dec : EqDecision Status.
Proof. solve_decision. Defined.

(** The values of the attribute [min]: [None] (never set), [float('inf')],
    or an integer. *)
Inductive MinVal := MinNone | MinInf | MinNum (v : Z).

#[global] Instance MinVal_eq_dec : EqDecision MinVal.
Proof. solve_decision. Defined.

(** A message is the tuple [(m, h)]; a waiting entry is [(m, h, stored_time)]. *)
Definition Msg : Type := Z * Z.
Definition WaitEntry : Type := Z * Z * Z.

Module Node.

(** class Node: the attributes set by [__init__]. *)
Record t := mk {
  id : Z;
  left_neighbor : option nat;
  right_neighbor : option nat;
  status : Status;
  min : MinVal;
  waiting : list WaitEntry;
  is_leader : bool
}.

(** Node.__init__(self, id) *)
Definition init (i : Z) : t :=
  mk i None None asleep MinNone [] false.

Definition set_left_neighbor (v : option nat) (n : t) : t :=
  mk (id n) v (right_neighbor n) (status n) (min n) (waiting n) (is_leader n).
Definition set_right_neighbor (v : option nat) (n : t) : t :=
  mk (id n) (left_neighbor n) v (status n) (min n) (waiting n) (is_leader n).
Definition set_status (v : Status) (n : t) : t :=
  mk (id n) (left_neighbor n) (right_neighbor n) v (min n) (waiting n) (is_leader n).
Definition set_min (v : MinVal) (n : t) : t :=
  mk (id n) (left_neighbor n) (right_neighbor n) (status n) v (waiting n) (is_leader n).
Definition set_waiting (v : list WaitEntry) (n : t) : t :=
  mk (id n) (left_neighbor n) (right_neighbor n) (status n) (min n) v (is_leader n).
Definition set_is_leader (v : bool) (n : t) : t :=
  mk (id n) (left_neighbor n) (right_neighbor n) (status n) (min n) (waiting n) v.

End Node.

#[global] Instance Node_inhabited : Inhabited Node.t := populate (Node.init 0).

(** The exceptions the modelled code can raise: a dictionary indexed by a key
    it does not hold, an attribute read before it was ever assigned, an
    integer too large to be converted to a float, and [input()] at the end
    of the input. *)
Inductive exn := KeyError | AttributeError | OverflowError | EOFError.

Inductive result (A : Type) :=
| Ok (a : A)
| Raise (e : exn).
Arguments Ok {A} a.
Arguments Raise {A} e.

(** Sequencing: an exception aborts what follows ([x ← r; k]). *)
#[global] Instance result_bind : MBind result := λ A B k r,
  match r with
  | Ok a => k a
  | Raise e => Raise e
  end.

(** [d[k]] on a Python dictionary whose keys are nodes. *)
Definition getitem {V} (d : gmap nat V) (k : nat) : result V :=
  match d !! k with
  | Some v => Ok v
  | None => Raise KeyError
  end.

(** [for x in l: st = body(st, x)], stopping at the first exception. *)
Fixpoint for_each {A St} (body : St → A → result St) (l : list A) (st : St)
  : result St :=
  match l with
  | [] => Ok st
  | x :: l' => st' ← body st x; for_each body l' st'
  end.

(** class Graph.  [heap] is the store of [Node] objects; [nodes] and
    [orderNode] hold references into it, [messages] is keyed by them, and
    [now] is [self.env.now].  [max_rounds] exists only once [run_election]
    has assigned it. *)
Record Graph := mkGraph {
  now : Z;
  heap : list Node.t;
  nodes : list nat;
  edges : list (nat * nat);
  messages : gmap nat (list Msg);
  orderNode : list nat;
  max_rounds : option Z
}.

(** [{node: [] for node in ns}] *)
Definition fresh_queues (ns : list nat) : gmap nat (list Msg) :=
  list_to_map ((λ n, (n, [])) <$> ns).

(** Edge.__init__(self, node1, node2): the two assignments to the nodes. *)
Definition Edge_init (node1 node2 : nat) (h : list Node.t) : list Node.t :=
  let h1 := alter (Node.set_right_neighbor (Some node2)) node1 h in
  alter (Node.set_left_neighbor (Some node1)) node2 h1.

(** Graph.__init__(self, nodes, edges) *)
Definition Graph_init (h : list Node.t) (ns : list nat) (es : list (nat * nat))
  : Graph :=
  mkGraph 0 h ns es (fresh_queues ns) ns None.

(** The construction of the ring (the script's "Crear nodos", "Crear
    conexiones en anillo", "Crear gráfica"), for a list of identifiers; the
    script itself passes [range(num_nodes)].  Nothing in it raises. *)
Definition ring_edges (h : list Node.t) (n : nat)
  : list Node.t * list (nat * nat) :=
  foldl (λ '(h, es) i,
           let j := ((i + 1) mod n)%nat in
           (Edge_init i j h, es ++ [(i, j)]))
        (h, []) (seq 0 n).

Definition build_ring (ids : list Z) : result Graph :=
  let h0 := Node.init <$> ids in
  let n := length h0 in
  let '(h, es) := ring_edges h0 n in
  Ok (Graph_init h (seq 0 n) es).

(** ** The transition rule of one node *)

(** [node.min is None or m < node.min] *)
Definition accepts (m : Z) (mn : MinVal) : bool :=
  match mn with
  | MinNone => true
  | MinInf => true
  | MinNum v => m <? v
  end.

(** Lines 51-65: activation of an [asleep] node. *)
Definition activate (R : list Msg) (nd : Node.t) : Node.t * list Msg :=
  if decide (Node.status nd = asleep) then
    match R with
    | [] =>
        (Node.set_min (MinNum (Node.id nd)) (Node.set_status participating nd),
         [(Node.id nd, 1)])
    | _ :: _ =>
        (Node.set_min MinInf (Node.set_status relay nd), [])
    end
  else (nd, []).

(** Lines 68-91: the body of [for m, h in R]. *)
Definition receive (now : Z) (acc : Node.t * list Msg) (msg : Msg)
  : Node.t * list Msg :=
  let '(nd, S_) := acc in
  let '(m, h) := msg in
  if accepts m (Node.min nd) then
    let past_status := Node.status nd in
    let nd1 := Node.set_min (MinNum m) (Node.set_status not_elected nd) in
    if bool_decide (past_status = relay) && (h =? 1) then
      (nd1, S_ ++ [(m, h)])
    else
      (Node.set_waiting (Node.waiting nd1 ++ [(m, 2, now)]) nd1, S_)
  else if m =? Node.id nd then
    (Node.set_is_leader true (Node.set_status elected nd), S_)
  else (nd, S_).

(** For a negative [m], Python computes [2**m] on floats, and first converts
    both integers: the conversion of [m] raises [OverflowError] when [m],
    rounded to the nearest double, is out of range, that is when
    [m <= -(2^1024 - 2^970)]. *)
Definition float_limit : Z := 2 ^ 1024 - 2 ^ 970.

(** [self.env.now - stored_time >= (2**m - 1)].  For [m >= 0] Python's [2**m]
    is the exact integer (the memory it takes is not modelled).  For [m < 0]
    it is a float in [0, 1), or the error above: [2**m - 1] is then a float
    in (-1, -0.5] when [m >= -53], and rounds to [-1.0] when [m <= -54]; the
    comparison of the integer on the left with that float is exact. *)
Definition due (now stored_time m : Z) : result bool :=
  if 0 <=? m then Ok (2 ^ m - 1 <=? now - stored_time)
  else if m <=? - float_limit then Raise OverflowError
  else if -53 <=? m then Ok (0 <=? now - stored_time)
  else Ok (-1 <=? now - stored_time).

(** Lines 94-101: the body of [for m, h, stored_time in node.waiting]. *)
Definition release (now : Z) (acc : list WaitEntry * list Msg) (e : WaitEntry)
  : result (list WaitEntry * list Msg) :=
  let '(new_waiting, S_) := acc in
  let '(m, h, stored_time) := e in
  d ← due now stored_time m;
  Ok (if d : bool then (new_waiting, S_ ++ [(m, h)])
      else (new_waiting ++ [(m, h, stored_time)], S_)).

(** Lines 45-103: everything one iteration of [for node in self.nodes] does
    to the node, and the set [S] (here [S_]) it has built when it reaches
    line 106.  An exception raised by the test of line 97 leaves the
    iteration, and the loops around it, at once. *)
Definition node_round (now : Z) (R : list Msg) (nd : Node.t)
  : result (Node.t * list Msg) :=
  let '(nd1, S_1) := activate R nd in
  let '(nd2, S_2) := foldl (receive now) (nd1, S_1) R in
  '(new_waiting, S_3) ←
     for_each (release now) (Node.waiting nd2) ([], S_2);
  Ok (Node.set_waiting new_waiting nd2, S_3).

(** Python truthiness of a list. *)
Definition truthy {A} (l : list A) : bool :=
  match l with [] => false | _ :: _ => true end.

(** ** Graph.process_round *)

(** One iteration of [for node in self.nodes] (lines 43-108).  The loop state
    is the store, [self.messages] and the local [activity].  A reference
    always designates a live object, so reading the store cannot fail;
    [self.messages[node.left_neighbor]] raises when the attribute is still
    [None], which is no key of the dictionary. *)
Definition visit (now : Z) (current_messages : gmap nat (list Msg))
    (st : list Node.t * gmap nat (list Msg) * bool) (node : nat)
  : result (list Node.t * gmap nat (list Msg) * bool) :=
  let '(h, msgs, activity) := st in
  R ← getitem current_messages node;
  '(nd, S_) ← node_round now R (h !!! node);
  let h' := <[node := nd]> h in
  if truthy S_ || truthy (Node.waiting nd) then
    match Node.left_neighbor nd with
    | Some left_neighbor =>
        q ← getitem msgs left_neighbor;
        Ok (h', <[left_neighbor := q ++ S_]> msgs, true)
    | None => Raise KeyError
    end
  else Ok (h', msgs, activity).

Definition process_round (g : Graph) : result (Graph * bool) :=
  let current_messages := messages g in
  '(h, msgs, activity) ←
     for_each (visit (now g) current_messages) (nodes g)
              (heap g, fresh_queues (nodes g), false);
  Ok (mkGraph (now g) h (nodes g) (edges g) msgs (orderNode g) (max_rounds g),
      activity).

(** [yield self.env.timeout(1)]: the clock advances by one. *)
Definition tick (g : Graph) : Graph :=
  mkGraph (now g + 1) (heap g) (nodes g) (edges g) (messages g) (orderNode g)
          (max_rounds g).

(** ** Graph.round_process *)

(** The [while] loop, with the number of iterations still allowed as fuel;
    [round_process] below gives it [max_rounds - now], which the loop can
    never exceed. *)
Fixpoint round_loop (fuel : nat) (cap : Z) (g : Graph) (activity : bool)
  : result (Graph * bool) :=
  match fuel with
  | O => Ok (g, activity)
  | S fuel' =>
      if activity && (now g <? cap) then
        '(g', activity') ← process_round g;
        round_loop fuel' cap (tick g') activity'
      else Ok (g, activity)
  end.

Definition round_process (g : Graph) : result (Graph * bool) :=
  match max_rounds g with
  | None => Raise AttributeError
  | Some cap => round_loop (Z.to_nat (cap - now g)) cap g true
  end.

(** ** Graph.run_election *)

Definition has_id (h : list Node.t) (initiator_id : option Z) (n : nat) : bool :=
  match initiator_id with
  | Some i => Node.id (h !!! n) =? i
  | None => false
  end.

Definition initiator_first (h : list Node.t) (initiator_id : option Z)
    (ns : list nat) : list nat :=
  List.filter (has_id h initiator_id) ns
  ++ List.filter (λ n, negb (has_id h initiator_id n)) ns.

(** Lines 132-135: the cap is stored and the initiator moved to the front of
    [self.nodes]. *)
Definition prepare (g : Graph) (max_rounds : Z) (initiator_id : option Z)
  : Graph :=
  mkGraph (now g) (heap g)
          (initiator_first (heap g) initiator_id (nodes g))
          (edges g) (messages g) (orderNode g) (Some max_rounds).

(** [[node for node in self.nodes if node.is_leader]] *)
Definition leaders_of (g : Graph) : list nat :=
  List.filter (λ n, Node.is_leader (heap g !!! n)) (nodes g).

(** Returns the final graph together with [leaders] (references, in the order
    of [self.nodes]) and the last value of the loop's [activity]. *)
Definition run_election (g : Graph) (max_rounds : Z) (initiator_id : option Z)
  : result (Graph * list nat * bool) :=
  '(g2, activity) ← round_process (prepare g max_rounds initiator_id);
  Ok (g2, leaders_of g2, activity).

(** The script from "Crear nodos" to the call of [run_election], for a list
    of identifiers, a cap and an initiator. *)
Definition election (ids : list Z) (max_rounds : Z) (initiator_id : option Z)
  : result (Graph * list nat * bool) :=
  g ← build_ring ids; run_election g max_rounds initiator_id.

(** Observations of a graph. *)
Definition statuses (g : Graph) : list Status := Node.status <$> heap g.
Definition mins (g : Graph) : list MinVal := Node.min <$> heap g.
Definition leader_flags (g : Graph) : list bool := Node.is_leader <$> heap g.
Definition ids_of (g : Graph) (ns : list nat) : list Z :=
  (λ n, Node.id (heap g !!! n)) <$> ns.

(** ** The ring as built by [build_ring] *)

(** Positions of the neighbours of node [i] in a ring of [n] nodes. *)
Definition ring_left (n i : nat) : nat := ((i + n - 1) mod n)%nat.
Definition ring_right (n i : nat) : nat := ((i + 1) mod n)%nat.

(** ** The round of a node when no exception is raised *)

(** The value of the test of line 97 when [2**m] can be computed. *)
Definition overdue (now stored_time m : Z) : bool :=
  if 0 <=? m then 2 ^ m - 1 <=? now - stored_time
  else if -53 <=? m then 0 <=? now - stored_time
  else -1 <=? now - stored_time.

Definition entry_msg (e : WaitEntry) : Msg := (e.1.1, e.1.2).
Definition entry_due (now : Z) (e : WaitEntry) : bool :=
  overdue now e.2 e.1.1.

(** The waiting list of a node when it reaches line 95. *)
Definition held (now : Z) (R : list Msg) (nd : Node.t) : list WaitEntry :=
  Node.waiting (foldl (receive now) (activate R nd) R).1.

(** What [node_round] returns when it returns: the entries that are due
    are moved, in order, from [waiting] to the end of [S]. *)
Definition node_step (now : Z) (R : list Msg) (nd : Node.t)
  : Node.t * list Msg :=
  let '(nd2, S_2) := foldl (receive now) (activate R nd) R in
  (Node.set_waiting (filter (λ e, ¬ entry_due now e) (Node.waiting nd2)) nd2,
   S_2 ++ (entry_msg <$> filter (λ e, entry_due now e) (Node.waiting nd2))).

(** [2**m] can be computed. *)
Definition fits (m : Z) : bool := - float_limit <? m.

(** No entry that a node holds at line 95 makes the test of line 97
    overflow. *)
Definition safe_node (now : Z) (R : list Msg) (nd : Node.t) : bool :=
  forallb (λ e : WaitEntry, fits e.1.1) (held now R nd).

(** What a node receives in the round to come, and the outcome of its
    iteration of the loop of [process_round]. *)
Definition inbox (g : Graph) (i : nat) : list Msg :=
  default [] (messages g !! i).

Definition stepped (g : Graph) (i : nat) : Node.t * list Msg :=
  node_step (now g) (inbox g i) (heap g !!! i).

Definition safe_at (g : Graph) (i : nat) : bool :=
  safe_node (now g) (inbox g i) (heap g !!! i).

(** No node overflows in the round to come. *)
Definition all_safe (g : Graph) : bool :=
  forallb (safe_at g) (seq 0 (length (heap g))).

(** The test of line 106 for node [i]. *)
Definition active (g : Graph) (i : nat) : bool :=
  truthy (stepped g i).2 || truthy (Node.waiting (stepped g i).1).

(** A round seen as one synchronous step of all nodes: every node is
    replaced by its stepped version, and the queue of node [k] receives what
    its right neighbour sends. *)
Definition par_heap (g : Graph) : list Node.t :=
  imap (λ i _, (stepped g i).1) (heap g).

Definition par_msgs (g : Graph) : gmap nat (list Msg) :=
  let n := length (heap g) in
  list_to_map ((λ k, (k, (stepped g (ring_right n k)).2)) <$> seq 0 n).

Definition par_round (g : Graph) : Graph :=
  mkGraph (now g) (par_heap g) (nodes g) (edges g) (par_msgs g) (orderNode g)
          (max_rounds g).

Definition any_active (g : Graph) : bool :=
  existsb (active g) (seq 0 (length (heap g))).

(** Well-formed rings: what [build_ring] establishes and every round keeps. *)
Record wf_ring (g : Graph) : Prop := {
  wf_nodes : nodes g ≡ₚ seq 0 (length (heap g));
  wf_left : ∀ i nd, heap g !! i = Some nd →
            Node.left_neighbor nd = Some (ring_left (length (heap g)) i);
  wf_msgs : ∀ i, is_Some (messages g !! i) ↔ (i < length (heap g))%nat
}.

(** [n] rounds of the scheduler, without the loop test: [process_round]
    followed by the tick of the clock. *)
Fixpoint rounds (n : nat) (g : Graph) : result Graph :=
  match n with
  | O => Ok g
  | S n' => '(g', _) ← process_round g; rounds n' (tick g')
  end.

(** ** Lemmas on the transition rule *)

Arguments activate : simpl never.
Arguments receive : simpl never.
Arguments node_round : simpl never.
Arguments node_step : simpl never.
Arguments due : simpl never.
Arguments overdue : simpl never.
Arguments float_limit : simpl never.
Arguments fits : simpl never.
Arguments visit : simpl never.
Arguments stepped : simpl never.
Arguments safe_at : simpl never.

Section NodeRound.
Implicit Types (nd : Node.t) (R : list Msg) (W : list WaitEntry).

Lemma float_limit_pos : 0 < float_limit.
Proof. vm_compute. reflexivity. Qed.

Lemma fits_spec (m : Z) : fits m = true ↔ - float_limit < m.
Proof. unfold fits. apply Z.ltb_lt. Qed.

Lemma fits_nonneg (m : Z) : 0 ≤ m → fits m = true.
Proof. intros Hm. apply fits_spec. pose proof float_limit_pos. lia. Qed.

(** The test of line 97: its value, or the overflow. *)
Lemma due_spec now t m :
  due now t m = if fits m then Ok (overdue now t m) else Raise OverflowError.
Proof.
  unfold due, overdue, fits. pose proof float_limit_pos.
  destruct (Z.leb_spec 0 m), (Z.leb_spec m (- float_limit)),
    (Z.ltb_spec (- float_limit) m); try lia; try done.
  by destruct (-53 <=? m).
Qed.

(** The loop of lines 95-101: it sorts the entries by the test, or stops at
    the first entry whose identifier overflows. *)
Lemma release_loop now W W0 S0 :
  for_each (release now) W (W0, S0) =
    if forallb (λ e : WaitEntry, fits e.1.1) W then
      Ok (W0 ++ filter (λ e, ¬ entry_due now e) W,
          S0 ++ (entry_msg <$> filter (λ e, entry_due now e) W))
    else Raise OverflowError.
Proof.
  revert W0 S0. induction W as [|[[m h] t] W IH]; intros W0 S0.
  - simpl. by rewrite !app_nil_r.
  - cbn [for_each forallb fst].
    assert (release now (W0, S0) (m, h, t)
            = if fits m then
                Ok (if overdue now t m then (W0, S0 ++ [(m, h)])
                    else (W0 ++ [(m, h, t)], S0))
              else Raise OverflowError) as ->
        by (unfold release; rewrite due_spec; by destruct (fits m)).
    destruct (fits m); [|done]. simpl.
    assert (entry_due now (m, h, t) = overdue now t m) as Hed by reflexivity.
    destruct (overdue now t m) eqn:Hd; rewrite IH;
      destruct (forallb _ W); try done.
    + rewrite filter_cons_False, filter_cons_True
        by (rewrite Hed; simpl; tauto).
      simpl. by rewrite <- app_assoc.
    + rewrite filter_cons_True, filter_cons_False
        by (rewrite Hed; simpl; tauto).
      simpl. by rewrite <- app_assoc.
Qed.

(** The receive loop and the activation touch neither the identifier nor
    the neighbour references. *)
Definition same_frame nd nd' : Prop :=
  Node.id nd' = Node.id nd ∧
  Node.left_neighbor nd' = Node.left_neighbor nd ∧
  Node.right_neighbor nd' = Node.right_neighbor nd.

Lemma same_frame_refl nd : same_frame nd nd.
Proof. by repeat split. Qed.

Lemma same_frame_trans nd1 nd2 nd3 :
  same_frame nd1 nd2 → same_frame nd2 nd3 → same_frame nd1 nd3.
Proof. unfold same_frame. intuition congruence. Qed.

Lemma activate_frame R nd : same_frame nd (activate R nd).1.
Proof.
  unfold activate. destruct (decide _); [destruct R|]; by repeat split.
Qed.

Lemma receive_frame now nd S0 msg :
  same_frame nd (receive now (nd, S0) msg).1.
Proof.
  destruct msg as [m h]. unfold receive.
  repeat case_match; by repeat split.
Qed.

Lemma receive_loop_frame now R nd S0 :
  same_frame nd (foldl (receive now) (nd, S0) R).1.
Proof.
  revert nd S0. induction R as [|msg R IH]; intros nd S0; simpl.
  - apply same_frame_refl.
  - pose proof (receive_frame now nd S0 msg) as H.
    destruct (receive now (nd, S0) msg) as [nd' S'] eqn:E.
    eapply same_frame_trans; [exact H|apply IH].
Qed.

(** [node_step] unfolded into its three phases. *)
Lemma node_step_eq now R nd :
  node_step now R nd =
    let a := activate R nd in
    let r := foldl (receive now) a R in
    (Node.set_waiting (filter (λ e, ¬ entry_due now e) (Node.waiting r.1)) r.1,
     r.2 ++ (entry_msg <$> filter (λ e, entry_due now e) (Node.waiting r.1))).
Proof.
  unfold node_step. by destruct (foldl (receive now) (activate R nd) R).
Qed.

(** [node_round] returns [node_step], unless the test of line 97 overflows
    on an entry the node holds. *)
Lemma node_round_spec now R nd :
  node_round now R nd =
    if safe_node now R nd then Ok (node_step now R nd)
    else Raise OverflowError.
Proof.
  unfold node_round, safe_node, held, node_step.
  destruct (activate R nd) as [nd1 S1] eqn:Ea.
  destruct (foldl (receive now) (nd1, S1) R) as [nd2 S2] eqn:Er. simpl.
  rewrite release_loop. by destruct (forallb _ _).
Qed.

Lemma node_round_ok now R nd out :
  node_round now R nd = Ok out →
  out = node_step now R nd ∧ safe_node now R nd = true.
Proof.
  rewrite node_round_spec. destruct (safe_node now R nd); [|done].
  by intros [= <-].
Qed.

Lemma node_step_frame now R nd : same_frame nd (node_step now R nd).1.
Proof.
  rewrite node_step_eq. simpl.
  destruct (activate R nd) as [nd1 S1] eqn:Ea.
  eapply same_frame_trans.
  { pose proof (activate_frame R nd) as H. rewrite Ea in H. exact H. }
  eapply same_frame_trans; [apply receive_loop_frame|].
  by repeat split.
Qed.

End NodeRound.

(** ** Arithmetic of ring positions *)

Section RingArith.
Local Open Scope nat_scope.

Lemma ring_right_cases n i :
  i < n → ring_right n i = if decide (i + 1 = n) then 0 else i + 1.
Proof.
  intros Hi. unfold ring_right. case_decide as E.
  - rewrite E. apply Nat.Div0.mod_same.
  - apply Nat.mod_small. lia.
Qed.

Lemma ring_left_cases n i :
  i < n → ring_left n i = if decide (i = 0) then n - 1 else i - 1.
Proof.
  intros Hi. unfold ring_left. case_decide as E.
  - subst i. apply Nat.mod_small. lia.
  - symmetry. apply (Nat.mod_unique _ _ 1); lia.
Qed.

Lemma ring_right_lt n i : 0 < n → ring_right n i < n.
Proof. intros Hn. unfold ring_right. apply Nat.mod_upper_bound. lia. Qed.

Lemma ring_left_lt n i : 0 < n → ring_left n i < n.
Proof. intros Hn. unfold ring_left. apply Nat.mod_upper_bound. lia. Qed.

Lemma ring_right_left n i : i < n → ring_right n (ring_left n i) = i.
Proof.
  intros Hi. rewrite (ring_left_cases n i) by done.
  rewrite ring_right_cases by (case_decide; lia).
  repeat case_decide; lia.
Qed.

Lemma ring_left_right n i : i < n → ring_left n (ring_right n i) = i.
Proof.
  intros Hi. rewrite (ring_right_cases n i) by done.
  rewrite ring_left_cases by (case_decide; lia).
  repeat case_decide; lia.
Qed.

Lemma ring_right_inj n i j :
  i < n → j < n → ring_right n i = ring_right n j → i = j.
Proof.
  intros Hi Hj E. rewrite <- (ring_left_right n i), <- (ring_left_right n j) by done.
  by rewrite E.
Qed.

(** [d] hops to the right. *)
Lemma ring_right_iter n i d :
  i < n → Nat.iter d (ring_right n) i = (i + d) mod n.
Proof.
  intros Hi. induction d as [|d IH]; simpl.
  - rewrite Nat.add_0_r. symmetry. by apply Nat.mod_small.
  - rewrite IH. unfold ring_right.
    rewrite Nat.Div0.add_mod_idemp_l. f_equal. lia.
Qed.

End RingArith.

(** ** [process_round] is the synchronous step [par_round] *)

(** A dictionary comprehension [{k: f(k) for k in l}]. *)
Lemma tabulate_lookup {V} (f : nat → V) (l : list nat) (k : nat) :
  (list_to_map ((λ k, (k, f k)) <$> l) : gmap nat V) !! k
  = if decide (k ∈ l) then Some (f k) else None.
Proof.
  case_decide as Hk.
  - apply elem_of_list_to_map_1'.
    + intros y Hy. apply list_elem_of_fmap in Hy as (k' & Hy & _).
      by inversion Hy.
    + apply list_elem_of_fmap. by exists k.
  - apply not_elem_of_list_to_map_1. rewrite <- list_fmap_compose.
    intros Hin. apply list_elem_of_fmap in Hin as (k' & -> & Hin). done.
Qed.

Section ParRound.
Variable g : Graph.
Hypothesis Hwf : wf_ring g.
Let N := length (heap g).

Lemma fresh_queues_lookup (ns : list nat) (k : nat) :
  fresh_queues ns !! k = if decide (k ∈ ns) then Some [] else None.
Proof. apply (tabulate_lookup (λ _, [] : list Msg)). Qed.

Lemma wf_in_nodes (k : nat) : k ∈ nodes g ↔ (k < N)%nat.
Proof.
  rewrite (wf_nodes g Hwf). rewrite elem_of_seq. subst N. lia.
Qed.

Lemma stepped_left (i : nat) :
  (i < N)%nat → Node.left_neighbor (stepped g i).1 = Some (ring_left N i).
Proof.
  intros Hi. destruct (lookup_lt_is_Some_2 (heap g) i Hi) as [nd Hnd].
  unfold stepped. rewrite (list_lookup_total_correct _ _ _ Hnd).
  destruct (node_step_frame (now g) (inbox g i) nd) as (_ & Hl & _).
  rewrite Hl. by apply (wf_left g Hwf).
Qed.

Lemma visit_node_round (h : list Node.t) (i : nat) :
  (i < N)%nat → h !! i = heap g !! i →
  ∃ R, messages g !! i = Some R ∧
       node_round (now g) R (h !!! i)
       = if safe_at g i then Ok (stepped g i) else Raise OverflowError.
Proof.
  intros Hi Hh.
  destruct (proj2 (wf_msgs g Hwf i) Hi) as [R HR].
  destruct (lookup_lt_is_Some_2 (heap g) i Hi) as [nd Hnd].
  assert (h !!! i = heap g !!! i) as Htot.
  { rewrite (list_lookup_total_correct (heap g) i nd Hnd).
    apply list_lookup_total_correct. by rewrite Hh. }
  exists R. split; [done|]. rewrite node_round_spec.
  unfold safe_at, stepped, inbox. by rewrite HR, Htot.
Qed.

(** A node whose release test overflows stops the round. *)
Lemma visit_raise (h : list Node.t) (ms : gmap nat (list Msg)) act (i : nat) :
  (i < N)%nat → h !! i = heap g !! i → safe_at g i = false →
  visit (now g) (messages g) (h, ms, act) i = Raise OverflowError.
Proof.
  intros Hi Hh Hs. destruct (visit_node_round h i Hi Hh) as (R & HR & Hn).
  unfold visit, getitem. simpl. rewrite HR. simpl. rewrite Hn, Hs. done.
Qed.

Lemma visit_stepped (h : list Node.t) (ms : gmap nat (list Msg)) act (i : nat) :
  (i < N)%nat → h !! i = heap g !! i → safe_at g i = true →
  (∀ k, is_Some (ms !! k) ↔ (k < N)%nat) →
  ∃ ms',
    visit (now g) (messages g) (h, ms, act) i
    = Ok (<[i := (stepped g i).1]> h, ms', act || active g i) ∧
    (∀ k, ms' !! k =
          if decide (k = ring_left N i)
          then (λ q, q ++ (stepped g i).2) <$> ms !! k else ms !! k).
Proof.
  intros Hi Hh Hs Hdom.
  destruct (visit_node_round h i Hi Hh) as (R & HR & Hn).
  pose proof (stepped_left i Hi) as Hleft.
  assert (ring_left N i < N)%nat as Hl by (apply ring_left_lt; lia).
  destruct (proj2 (Hdom _) Hl) as [q Hq].
  unfold visit, getitem. simpl. rewrite HR. simpl. rewrite Hn, Hs.
  unfold active. destruct (stepped g i) as [nd' S'] eqn:Est. simpl in *.
  rewrite Hleft. simpl. rewrite Hq. simpl.
  destruct (truthy S' || truthy (Node.waiting nd')) eqn:Hact.
  - eexists. split; [by rewrite orb_true_r|].
    intros k. case_decide as Hk.
    + subst k. by rewrite lookup_insert_eq, Hq.
    + by rewrite lookup_insert_ne.
  - exists ms. split; [by rewrite orb_false_r|].
    intros k. case_decide as Hk; [|done].
    subst k. rewrite Hq. simpl.
    apply orb_false_iff in Hact as [HS _]. destruct S'; [|done].
    by rewrite app_nil_r.
Qed.

Lemma for_each_visit (todo : list nat) :
  ∀ (h : list Node.t) (ms : gmap nat (list Msg)) act,
    NoDup todo → (∀ i, i ∈ todo → (i < N)%nat) →
    length h = N → (∀ i, i ∈ todo → h !! i = heap g !! i) →
    (∀ k, is_Some (ms !! k) ↔ (k < N)%nat) →
    if forallb (safe_at g) todo then
    ∃ h' ms',
      for_each (visit (now g) (messages g)) todo (h, ms, act)
      = Ok (h', ms', act || existsb (active g) todo) ∧
      length h' = N ∧
      (∀ i, h' !! i =
            if decide (i ∈ todo) then Some (stepped g i).1 else h !! i) ∧
      (∀ k, ms' !! k =
            if decide ((k < N)%nat ∧ ring_right N k ∈ todo)
            then (λ q, q ++ (stepped g (ring_right N k)).2) <$> ms !! k
            else ms !! k)
    else for_each (visit (now g) (messages g)) todo (h, ms, act)
         = Raise OverflowError.
Proof.
  induction todo as [|i todo IH]; intros h ms act Hnd Hlt Hlen Hh Hdom.
  - exists h, ms. cbn [for_each existsb]. rewrite orb_false_r.
    split; [done|]. split; [done|]. split; intros k.
    + rewrite decide_False; [done|]. apply not_elem_of_nil.
    + rewrite decide_False; [done|]. intros [_ Hk]. by apply elem_of_nil in Hk.
  - apply NoDup_cons in Hnd as [Hni Hnd].
    assert (i < N)%nat as Hi by (apply Hlt; left).
    cbn [forallb]. destruct (safe_at g i) eqn:Hsi.
    2:{ simpl. rewrite (visit_raise h ms act i Hi) by (done || apply Hh; left).
        done. }
    destruct (visit_stepped h ms act i Hi) as (ms1 & Hv & Hms1);
      [apply Hh; left|done|done|].
    specialize (IH (<[i := (stepped g i).1]> h) ms1 (act || active g i)).
    rewrite andb_true_l. destruct (forallb (safe_at g) todo).
    2:{ simpl. rewrite Hv. simpl. apply IH; try done.
        - intros j Hj. apply Hlt. by right.
        - by rewrite length_insert.
        - intros j Hj. rewrite list_lookup_insert_ne by (intros ->; done).
          apply Hh. by right.
        - intros k. rewrite Hms1. case_decide; [|apply Hdom].
          rewrite <- Hdom. rewrite fmap_is_Some. done. }
    destruct IH as (h' & ms' & Hfe & Hlen' & Hh' & Hms'); try done.
    + intros j Hj. apply Hlt. by right.
    + by rewrite length_insert.
    + intros j Hj. rewrite list_lookup_insert_ne by (intros ->; done).
      apply Hh. by right.
    + intros k. rewrite Hms1. case_decide; [|apply Hdom].
      rewrite <- Hdom. rewrite fmap_is_Some. done.
    + exists h', ms'. simpl. rewrite Hv. simpl. rewrite Hfe.
      rewrite orb_assoc. split; [done|]. split; [done|]. split.
      * intros j. rewrite Hh'. destruct (decide (j = i)) as [->|Hne].
        -- rewrite decide_False by done. rewrite decide_True by left.
           apply list_lookup_insert_eq. lia.
        -- rewrite list_lookup_insert_ne by done.
           destruct (decide (j ∈ todo)) as [Hj|Hj].
           ++ rewrite decide_True by (by right). done.
           ++ rewrite decide_False; [done|].
              intros [?|?]%elem_of_cons; done.
      * intros k. rewrite Hms', Hms1.
        destruct (decide (k < N)%nat) as [Hk|Hk].
        2:{ rewrite !decide_False; try tauto.
            intros ->. apply Hk. apply ring_left_lt. lia. }
        destruct (decide (k = ring_left N i)) as [->|Hne].
        -- rewrite ring_right_left by done.
           rewrite decide_False by tauto.
           rewrite decide_True; [done|]. split; [done|left].
        -- assert (ring_right N k ≠ i) as Hri.
           { intros E. apply Hne. rewrite <- E. by rewrite ring_left_right. }
           destruct (decide (ring_right N k ∈ todo)) as [Hj|Hj].
           ++ rewrite !decide_True; [done|split; [done|by right]|by split].
           ++ rewrite !decide_False; [done| |tauto].
              intros [_ [?|?]%elem_of_cons]; done.
Qed.

End ParRound.

Lemma existsb_Permutation {A} (f : A → bool) (l1 l2 : list A) :
  l1 ≡ₚ l2 → existsb f l1 = existsb f l2.
Proof.
  induction 1 as [|x l1 l2 _ IH|x y l|l1 l2 l3 _ IH1 _ IH2]; simpl.
  - done.
  - by rewrite IH.
  - destruct (f x), (f y); done.
  - by rewrite IH1.
Qed.

Lemma forallb_Permutation {A} (f : A → bool) (l1 l2 : list A) :
  l1 ≡ₚ l2 → forallb f l1 = forallb f l2.
Proof.
  induction 1 as [|x l1 l2 _ IH|x y l|l1 l2 l3 _ IH1 _ IH2]; simpl.
  - done.
  - by rewrite IH.
  - destruct (f x), (f y); done.
  - by rewrite IH1.
Qed.

Lemma par_heap_lookup (g : Graph) (i : nat) :
  par_heap g !! i = (λ _, (stepped g i).1) <$> heap g !! i.
Proof. unfold par_heap. apply list_lookup_imap. Qed.

Lemma par_heap_length (g : Graph) : length (par_heap g) = length (heap g).
Proof. unfold par_heap. apply length_imap. Qed.

Lemma par_msgs_lookup (g : Graph) (k : nat) :
  par_msgs g !! k =
    if decide (k < length (heap g))%nat
    then Some (stepped g (ring_right (length (heap g)) k)).2 else None.
Proof.
  unfold par_msgs.
  rewrite (tabulate_lookup
             (λ k, (stepped g (ring_right (length (heap g)) k)).2)).
  destruct (decide (k < length (heap g))%nat) as [Hk|Hk].
  - rewrite decide_True; [done|]. apply elem_of_seq. lia.
  - rewrite decide_False; [done|]. rewrite elem_of_seq. lia.
Qed.

(** The loop of [process_round], run over a well-formed ring in whatever
    order [self.nodes] lists the nodes, computes the synchronous step,
    unless the release test of some node overflows: the round is then left
    by [OverflowError]. *)
Lemma process_round_spec (g : Graph) :
  wf_ring g →
  process_round g = if all_safe g then Ok (par_round g, any_active g)
                    else Raise OverflowError.
Proof.
  intros Hwf. pose proof (wf_nodes g Hwf) as Hperm.
  assert (NoDup (nodes g)) as Hnd by (rewrite Hperm; apply NoDup_seq).
  pose proof (for_each_visit g Hwf (nodes g) (heap g)
                (fresh_queues (nodes g)) false) as Hfe.
  unfold all_safe. rewrite <- (forallb_Permutation _ _ _ Hperm).
  destruct (forallb (safe_at g) (nodes g)).
  2:{ unfold process_round. rewrite Hfe; try done.
      - intros i. by rewrite wf_in_nodes.
      - intros k. rewrite fresh_queues_lookup. rewrite <- wf_in_nodes by done.
        case_decide; [by split; eauto|]. split; [by intros []|done]. }
  destruct Hfe as (h' & ms' & Hfe & Hlen & Hh & Hms); try done.
  - intros i. by rewrite wf_in_nodes.
  - intros k. rewrite fresh_queues_lookup. rewrite <- wf_in_nodes by done.
    case_decide; [by split; eauto|]. split; [by intros []|done].
  - unfold process_round. rewrite Hfe. simpl. unfold par_round, any_active.
    rewrite <- (existsb_Permutation _ _ _ Hperm).
    replace h' with (par_heap g); [replace ms' with (par_msgs g); [done|]|].
    + apply map_eq. intros k. rewrite Hms, par_msgs_lookup, fresh_queues_lookup.
      destruct (decide (k < length (heap g))%nat) as [Hk|Hk].
      * rewrite !decide_True; [done|by apply wf_in_nodes|].
        split; [done|]. apply wf_in_nodes; [done|].
        apply ring_right_lt. lia.
      * rewrite !decide_False; [done| |tauto].
        by rewrite wf_in_nodes.
    + apply list_eq. intros i. rewrite Hh, par_heap_lookup.
      destruct (decide (i < length (heap g))%nat) as [Hi|Hi].
      * rewrite decide_True by (by apply wf_in_nodes).
        destruct (lookup_lt_is_Some_2 (heap g) i Hi) as [nd ->]. done.
      * rewrite decide_False by (by rewrite wf_in_nodes).
        rewrite lookup_ge_None_2 by lia. done.
Qed.

Lemma process_round_par (g : Graph) :
  wf_ring g → all_safe g = true →
  process_round g = Ok (par_round g, any_active g).
Proof. intros Hwf Hs. by rewrite process_round_spec, Hs. Qed.

Lemma process_round_ok (g g' : Graph) (a : bool) :
  wf_ring g → process_round g = Ok (g', a) →
  g' = par_round g ∧ a = any_active g ∧ all_safe g = true.
Proof.
  intros Hwf. rewrite process_round_spec by done.
  destruct (all_safe g); [|done]. by intros [= <- <-].
Qed.

Lemma wf_par_round (g : Graph) : wf_ring g → wf_ring (par_round g).
Proof.
  intros Hwf. split; unfold par_round; simpl; rewrite ?par_heap_length.
  - apply (wf_nodes g Hwf).
  - intros i nd. rewrite par_heap_lookup.
    destruct (heap g !! i) as [nd0|] eqn:E; [|done]. simpl. intros [= <-].
    apply stepped_left; [done|]. by eapply lookup_lt_Some.
  - intros i. rewrite par_msgs_lookup. case_decide; [by split; eauto|].
    split; [by intros []|done].
Qed.

Lemma wf_tick (g : Graph) : wf_ring g → wf_ring (tick g).
Proof. intros [H1 H2 H3]. by split. Qed.

(** One round followed by the clock tick. *)
Definition next (g : Graph) : Graph := tick (par_round g).

Lemma iter_next_shift (n : nat) (g : Graph) :
  Nat.iter n next (next g) = next (Nat.iter n next g).
Proof. induction n; simpl; congruence. Qed.

Arguments tick : simpl never.
Arguments par_round : simpl never.
Arguments next : simpl never.

Lemma wf_next (g : Graph) : wf_ring g → wf_ring (next g).
Proof. intros. by apply wf_tick, wf_par_round. Qed.

Lemma wf_iter_next (n : nat) (g : Graph) :
  wf_ring g → wf_ring (Nat.iter n next g).
Proof. intros Hwf. induction n as [|n IH]; [done|]. by apply wf_next. Qed.

(** No round among the next [n] overflows. *)
Definition safe_run (n : nat) (g : Graph) : Prop :=
  ∀ j, (j < n)%nat → all_safe (Nat.iter j next g) = true.

Lemma safe_run_next (n : nat) (g : Graph) :
  safe_run (S n) g ↔ all_safe g = true ∧ safe_run n (next g).
Proof.
  unfold safe_run. split.
  - intros H. split; [apply (H 0%nat); lia|].
    intros j Hj. rewrite iter_next_shift. apply (H (S j)). lia.
  - intros [H0 H] [|j] Hj; [done|].
    change (Nat.iter (S j) next g) with (next (Nat.iter j next g)).
    rewrite <- iter_next_shift. apply H. lia.
Qed.

(** [n] rounds that raise nothing are [n] synchronous steps. *)
Lemma rounds_next (n : nat) (g : Graph) :
  wf_ring g → safe_run n g → rounds n g = Ok (Nat.iter n next g).
Proof.
  revert g. induction n as [|n IH]; intros g Hwf Hs; [done|].
  apply safe_run_next in Hs as [H0 Hs].
  cbn [rounds]. rewrite process_round_par by done. simpl.
  change (tick (par_round g)) with (next g).
  rewrite (IH (next g)) by (done || by apply wf_next).
  simpl. by rewrite <- iter_next_shift.
Qed.

(** [n] rounds either raise [OverflowError], or are [n] synchronous
    steps. *)
Lemma rounds_ok (n : nat) (g g' : Graph) :
  wf_ring g → rounds n g = Ok g' → g' = Nat.iter n next g ∧ safe_run n g.
Proof.
  revert g. induction n as [|n IH]; intros g Hwf.
  - intros [= <-]. split; [done|]. intros j Hj. lia.
  - cbn [rounds]. rewrite process_round_spec by done.
    destruct (all_safe g) eqn:H0; [|done]. simpl.
    change (tick (par_round g)) with (next g). intros Hr.
    destruct (IH (next g) (wf_next g Hwf) Hr) as [-> Hs].
    split; [by rewrite iter_next_shift|]. by apply safe_run_next.
Qed.

(** ** The ring produced by [build_ring] *)

Lemma lookup_alter_dec {A} (f : A → A) (l : list A) (i j : nat) :
  alter f i l !! j = (if decide (i = j) then f else id) <$> l !! j.
Proof.
  case_decide as E.
  - subst. apply list_lookup_alter_eq.
  - rewrite list_lookup_alter_ne by done. by destruct (l !! j).
Qed.

Section BuildRing.
Variable ids : list Z.
Let n := length ids.

(** The store after the first [k] edges have been created. *)
Definition linked (k i : nat) (x : Z) : Node.t :=
  Node.mk x
    (if decide ((1 ≤ i ≤ k)%nat ∨ (i = 0%nat ∧ k = n))
     then Some (ring_left n i) else None)
    (if decide (i < k)%nat then Some (ring_right n i) else None)
    asleep MinNone [] false.

Lemma ring_edges_prefix (k : nat) :
  (k ≤ n)%nat →
  foldl (λ '(h, es) i,
           let j := ((i + 1) mod n)%nat in
           (Edge_init i j h, es ++ [(i, j)]))
        (Node.init <$> ids, []) (seq 0 k)
  = (imap (linked k) ids, (λ i, (i, ring_right n i)) <$> seq 0 k).
Proof.
  induction k as [|k IH]; intros Hk.
  - simpl. f_equal. apply list_eq. intros i.
    rewrite list_lookup_fmap, list_lookup_imap.
    destruct (ids !! i) as [x|] eqn:E; [|done]. simpl. f_equal.
    unfold Node.init, linked. apply lookup_lt_Some in E. fold n in E.
    rewrite !decide_False by lia. done.
  - rewrite seq_S, foldl_snoc, IH by lia. simpl.
    rewrite fmap_app. simpl. f_equal.
    fold (ring_right n k). unfold Edge_init. apply list_eq. intros i.
    rewrite !lookup_alter_dec, !list_lookup_imap.
    destruct (ids !! i) as [x|] eqn:E; simpl; [|done].
    apply lookup_lt_Some in E. fold n in E.
    rewrite (ring_right_cases n k) by lia.
    unfold linked, Node.set_left_neighbor, Node.set_right_neighbor.
    assert (ring_left n i = if decide (i = 0)%nat then (n - 1)%nat else (i - 1)%nat)
      as Hl by (by apply ring_left_cases).
    assert (ring_right n i = if decide (i + 1 = n)%nat then 0%nat else (i + 1)%nat)
      as Hr by (by apply ring_right_cases).
    repeat case_decide; simpl; repeat case_decide; subst;
      try lia; try done; f_equal; f_equal; f_equal; try lia;
      rewrite ?Hl, ?Hr; repeat case_decide; try lia; f_equal; lia.
Qed.

(** The initial graph in closed form. *)
Definition ring0 : Graph :=
  Graph_init (imap (linked n) ids) (seq 0 n)
             ((λ i, (i, ring_right n i)) <$> seq 0 n).

Lemma build_ring_eq : build_ring ids = Ok ring0.
Proof.
  unfold build_ring, ring_edges. rewrite length_fmap. fold n.
  by rewrite ring_edges_prefix.
Qed.

Lemma ring0_lookup (i : nat) (x : Z) :
  ids !! i = Some x →
  heap ring0 !! i
  = Some (Node.mk x (Some (ring_left n i)) (Some (ring_right n i))
                  asleep MinNone [] false).
Proof.
  intros E. simpl. rewrite list_lookup_imap, E. simpl. f_equal.
  apply lookup_lt_Some in E. fold n in E. unfold linked.
  rewrite decide_True by lia. rewrite (decide_True _ _ E). done.
Qed.

Lemma ring0_length : length (heap ring0) = n.
Proof. simpl. by rewrite length_imap. Qed.

Lemma wf_ring0 : wf_ring ring0.
Proof.
  split.
  - by rewrite ring0_length.
  - intros i nd Hi. rewrite ring0_length.
    destruct (ids !! i) as [x|] eqn:E.
    + rewrite (ring0_lookup i x E) in Hi. by inversion Hi.
    + apply lookup_lt_Some in Hi. rewrite ring0_length in Hi.
      apply lookup_ge_None in E. fold n in E. lia.
  - intros i. rewrite ring0_length. simpl. rewrite fresh_queues_lookup.
    destruct (decide (i ∈ seq 0 n)) as [H|H]; rewrite elem_of_seq in H.
    + split; [lia|by eauto].
    + split; [by intros []|lia].
Qed.

End BuildRing.

(** ** The receive loop in closed form *)

(** The running minimum kept by the loop of lines 68-91 started at [v], and
    the entries it appends to [waiting] when no message is relayed. *)
Fixpoint low (v : Z) (R : list Msg) : Z :=
  match R with
  | [] => v
  | (m, _) :: R' => if m <? v then low m R' else low v R'
  end.

Fixpoint accepted (now v : Z) (R : list Msg) : list WaitEntry :=
  match R with
  | [] => []
  | (m, _) :: R' =>
      if m <? v then (m, 2, now) :: accepted now m R' else accepted now v R'
  end.

(** Does [R] hold a message carrying [x]? *)
Definition carries (x : Z) (R : list Msg) : bool :=
  existsb (λ msg, msg.1 =? x) R.

Section ReceiveLoop.
Implicit Types (nd : Node.t) (R : list Msg).

Lemma low_le v R : low v R ≤ v.
Proof.
  revert v. induction R as [|[m h] R IH]; intros v; simpl; [lia|].
  destruct (Z.ltb_spec m v); [specialize (IH m)|specialize (IH v)]; lia.
Qed.

Lemma low_lower v R m h : (m, h) ∈ R → low v R ≤ m.
Proof.
  revert v. induction R as [|[m' h'] R IH]; intros v Hin.
  - by apply elem_of_nil in Hin.
  - simpl. apply elem_of_cons in Hin as [[= <- <-]|Hin].
    + destruct (Z.ltb_spec m v).
      * apply low_le.
      * pose proof (low_le v R). lia.
    + destruct (m' <? v); by apply IH.
Qed.

Lemma low_origin v R : low v R = v ∨ ∃ h, (low v R, h) ∈ R.
Proof.
  revert v. induction R as [|[m h] R IH]; intros v; simpl; [by left|].
  destruct (Z.ltb_spec m v) as [Hlt|Hge].
  - right. destruct (IH m) as [->|[h' Hin]].
    + exists h. left.
    + exists h'. by right.
  - destruct (IH v) as [->|[h' Hin]]; [by left|].
    right. exists h'. by right.
Qed.

Lemma accepted_elem now v R e :
  e ∈ accepted now v R →
  ∃ m h, e = (m, 2, now) ∧ (m, h) ∈ R ∧ m < v ∧ low v R ≤ m.
Proof.
  revert v. induction R as [|[m h] R IH]; intros v Hin; simpl in Hin.
  - by apply elem_of_nil in Hin.
  - simpl. destruct (Z.ltb_spec m v) as [Hlt|Hge].
    + apply elem_of_cons in Hin as [->|Hin].
      * exists m, h. repeat split; [left|done|apply low_le].
      * destruct (IH m Hin) as (m' & h' & -> & Hin' & Hlt' & Hlow).
        exists m', h'. repeat split; [by right|lia|done].
    + destruct (IH v Hin) as (m' & h' & -> & Hin' & Hlt' & Hlow).
      exists m', h'. repeat split; [by right|done|done].
Qed.

(** When the minimum drops, the last accepted entry carries the new
    minimum. *)
Lemma accepted_low now v R :
  low v R < v → (low v R, 2, now) ∈ accepted now v R.
Proof.
  revert v. induction R as [|[m h] R IH]; intros v Hlt; simpl in *; [lia|].
  destruct (Z.ltb_spec m v) as [Hm|Hm].
  - destruct (Z.eq_dec (low m R) m) as [->|Hne]; [left|].
    right. apply IH. pose proof (low_le m R). lia.
  - by apply IH.
Qed.

Lemma accepted_nil now v R : low v R = v → accepted now v R = [].
Proof.
  revert v. induction R as [|[m h] R IH]; intros v Hlow; simpl in *; [done|].
  destruct (Z.ltb_spec m v) as [Hm|Hm]; [|by apply IH].
  pose proof (low_le m R). lia.
Qed.

Lemma activate_awake R nd :
  Node.status nd ≠ asleep → activate R nd = (nd, []).
Proof. intros H. unfold activate. by rewrite decide_False. Qed.

Lemma activate_asleep nd :
  Node.status nd = asleep →
  activate [] nd
  = (Node.set_min (MinNum (Node.id nd)) (Node.set_status participating nd),
     [(Node.id nd, 1)]).
Proof. intros H. unfold activate. by rewrite decide_True. Qed.

(** One message, received by a node that is not a relay and whose [min] is
    a number. *)
Lemma receive_num now nd S0 m h v :
  Node.min nd = MinNum v → Node.status nd ≠ relay →
  receive now (nd, S0) (m, h) =
    if m <? v then
      (Node.set_waiting (Node.waiting nd ++ [(m, 2, now)])
         (Node.set_min (MinNum m) (Node.set_status not_elected nd)), S0)
    else if m =? Node.id nd then
      (Node.set_is_leader true (Node.set_status elected nd), S0)
    else (nd, S0).
Proof.
  intros Hmin Hst. unfold receive. rewrite Hmin. simpl.
  rewrite bool_decide_eq_false_2 by done. done.
Qed.

(** The loop at a node that receives no message carrying its own
    identifier. *)
Lemma receive_loop_foreign now R :
  ∀ nd S0 v,
    Node.min nd = MinNum v → Node.status nd ≠ relay →
    (∀ m h, (m, h) ∈ R → m ≠ Node.id nd) →
    foldl (receive now) (nd, S0) R
    = (Node.mk (Node.id nd) (Node.left_neighbor nd) (Node.right_neighbor nd)
               (if decide (low v R < v) then not_elected else Node.status nd)
               (MinNum (low v R))
               (Node.waiting nd ++ accepted now v R)
               (Node.is_leader nd),
       S0).
Proof.
  induction R as [|[m h] R IH]; intros nd S0 v Hmin Hst Hne.
  - simpl. rewrite decide_False by lia. rewrite app_nil_r.
    destruct nd; simpl in *; by subst.
  - cbn [foldl]. rewrite (receive_num now nd S0 m h v) by done.
    assert (m ≠ Node.id nd) as Hm by (apply (Hne m h); left).
    assert (∀ m' h', (m', h') ∈ R → m' ≠ Node.id nd) as Hne'
        by (intros m' h' Hin; apply (Hne m' h'); by right).
    simpl. destruct (Z.ltb_spec m v) as [Hlt|Hge].
    + rewrite (IH _ S0 m); [|done|done|exact Hne']. simpl.
      pose proof (low_le m R).
      destruct (decide (low m R < v)); [|lia].
      rewrite <- app_assoc. simpl.
      by destruct (decide (low m R < m)).
    + rewrite (proj2 (Z.eqb_neq _ _) Hm). by apply IH.
Qed.

(** The loop at a node that accepts nothing: all it can do is elect
    itself. *)
Lemma receive_loop_settled now R :
  ∀ nd S0 v,
    Node.min nd = MinNum v → Node.status nd ≠ relay →
    (∀ m h, (m, h) ∈ R → v ≤ m) →
    foldl (receive now) (nd, S0) R
    = (if carries (Node.id nd) R
       then Node.set_is_leader true (Node.set_status elected nd) else nd,
       S0).
Proof.
  induction R as [|[m h] R IH]; intros nd S0 v Hmin Hst Hge; [done|].
  cbn [foldl]. rewrite (receive_num now nd S0 m h v) by done.
  assert (v ≤ m) as Hm by (apply (Hge m h); left).
  assert (∀ m' h', (m', h') ∈ R → v ≤ m') as Hge'
      by (intros m' h' Hin; apply (Hge m' h'); by right).
  rewrite (proj2 (Z.ltb_ge _ _) Hm). unfold carries. simpl.
  destruct (m =? Node.id nd) eqn:E; simpl.
  - rewrite (IH _ S0 v); [|done|done|exact Hge']. simpl.
    by destruct (carries (Node.id nd) R).
  - by apply (IH nd S0 v).
Qed.

(** Facts that hold whatever the node receives. *)
Lemma receive_loop_waiting now R :
  ∀ nd S0, ∃ extra,
    Node.waiting (foldl (receive now) (nd, S0) R).1 = Node.waiting nd ++ extra.
Proof.
  induction R as [|[m h] R IH]; intros nd S0.
  - exists []. simpl. by rewrite app_nil_r.
  - cbn [foldl]. unfold receive at 2.
    repeat case_match;
      match goal with |- context [foldl _ (?n, ?s) R] =>
        destruct (IH n s) as [extra ->] end; simpl;
      try (by eexists); eexists; by rewrite <- app_assoc.
Qed.

End ReceiveLoop.

(** ** The state after one round, node by node *)

Definition node (g : Graph) (i : nat) : Node.t := heap g !!! i.

(** A round overflows on no entry when every identifier its nodes hold at
    line 95 can be raised to a power. *)
Lemma all_safe_intro (g : Graph) :
  (∀ i e, (i < length (heap g))%nat →
          e ∈ held (now g) (inbox g i) (node g i) → fits e.1.1 = true) →
  all_safe g = true.
Proof.
  intros H. unfold all_safe. apply forallb_forall. intros i Hi.
  apply list_elem_of_In, elem_of_seq in Hi.
  unfold safe_at, safe_node. apply forallb_forall. intros e He.
  apply (H i e); [lia|]. by apply list_elem_of_In.
Qed.

Lemma all_safe_elim (g : Graph) (i : nat) (e : WaitEntry) :
  all_safe g = true → (i < length (heap g))%nat →
  e ∈ held (now g) (inbox g i) (node g i) → fits e.1.1 = true.
Proof.
  unfold all_safe. rewrite forallb_forall. intros H Hi He.
  specialize (H i). unfold safe_at, safe_node in H.
  rewrite forallb_forall in H. apply H.
  - apply list_elem_of_In, elem_of_seq. lia.
  - by apply list_elem_of_In.
Qed.

Section Next.
Variable g : Graph.
Let N := length (heap g).

Lemma next_length : length (heap (next g)) = N.
Proof. unfold next, tick, par_round. simpl. apply par_heap_length. Qed.

Lemma next_now : now (next g) = now g + 1.
Proof. done. Qed.

Lemma next_node (i : nat) : (i < N)%nat → node (next g) i = (stepped g i).1.
Proof.
  intros Hi. unfold node. apply list_lookup_total_correct.
  unfold next, tick, par_round. simpl. rewrite par_heap_lookup.
  destruct (lookup_lt_is_Some_2 (heap g) i Hi) as [nd ->]. done.
Qed.

Lemma next_inbox (k : nat) :
  (k < N)%nat → inbox (next g) k = (stepped g (ring_right N k)).2.
Proof.
  intros Hk. unfold inbox, next, tick, par_round. simpl.
  rewrite par_msgs_lookup. by rewrite decide_True.
Qed.

Lemma next_inbox_ge (k : nat) : (N ≤ k)%nat → inbox (next g) k = [].
Proof.
  intros Hk. unfold inbox, next, tick, par_round. simpl.
  rewrite par_msgs_lookup. rewrite decide_False by (subst N; lia). done.
Qed.

Lemma stepped_eq (i : nat) :
  stepped g i =
    let r := foldl (receive (now g)) (activate (inbox g i) (node g i)) (inbox g i) in
    (Node.set_waiting
       (filter (λ e, ¬ entry_due (now g) e) (Node.waiting r.1)) r.1,
     r.2 ++ (entry_msg <$> filter (λ e, entry_due (now g) e) (Node.waiting r.1))).
Proof. unfold stepped. by rewrite node_step_eq. Qed.

(** The result of line 106 in terms of the stepped node. *)
Lemma active_false (i : nat) :
  active g i = false →
  (stepped g i).2 = [] ∧ Node.waiting (stepped g i).1 = [].
Proof.
  unfold active. intros [H1 H2]%orb_false_iff.
  destruct (stepped g i).2; [|done].
  destruct (Node.waiting (stepped g i).1); done.
Qed.

Lemma any_active_false (i : nat) :
  any_active g = false → (i < N)%nat → active g i = false.
Proof.
  unfold any_active. intros H Hi.
  destruct (active g i) eqn:E; [|done].
  assert (existsb (active g) (seq 0 (length (heap g))) = true) as Ht; [|congruence].
  apply existsb_exists. exists i. split; [|done].
  apply list_elem_of_In, elem_of_seq. subst N. lia.
Qed.

End Next.

(** ** The election on a ring of distinct identifiers *)

Section Election.
Variable ids : list Z.
Hypothesis ids_nodup : NoDup ids.
Local Abbreviation N := (length ids).

(** The position of the smallest identifier. *)
Variable o : nat.
Hypothesis o_lt : (o < N)%nat.
Hypothesis o_min : ∀ j, (j < N)%nat → ids !!! o ≤ ids !!! j.
Local Abbreviation μ := (ids !!! o).
Local Abbreviation r := (ring_right (length ids)).

Lemma ids_inj (i j : nat) :
  (i < N)%nat → (j < N)%nat → ids !!! i = ids !!! j → i = j.
Proof.
  intros Hi Hj E. apply (NoDup_lookup ids i j (ids !!! i)); [done| |].
  - by apply list_lookup_lookup_total_lt.
  - rewrite E. by apply list_lookup_lookup_total_lt.
Qed.

Lemma o_strict (j : nat) : (j < N)%nat → j ≠ o → μ < ids !!! j.
Proof.
  intros Hj Hne. pose proof (o_min j Hj).
  destruct (Z.eq_dec μ (ids !!! j)) as [E|E]; [|lia].
  exfalso. apply Hne. symmetry. by apply ids_inj.
Qed.

Lemma r_lt (k : nat) : (r k < N)%nat.
Proof. apply ring_right_lt. lia. Qed.

Lemma iter_r_lt (k d : nat) : (k < N)%nat → (Nat.iter d r k < N)%nat.
Proof. intros Hk. destruct d; simpl; [done|apply r_lt]. Qed.

(** A message carrying [m] that sits at node [k] has left the node whose
    identifier is [m], some [d] hops to the right of [k], and was accepted
    by every node in between, whose identifiers are all larger.  [from] is
    1 for a message in the queue of [k], and 0 once [k] itself has
    accepted it. *)
Definition path (from k : nat) (m : Z) : Prop :=
  ∃ d, (1 ≤ d ≤ N)%nat ∧ ids !!! (Nat.iter d r k) = m ∧
       ∀ j, (from ≤ j < d)%nat → m < ids !!! (Nat.iter j r k).

Lemma path_ge (from k : nat) (m : Z) : (k < N)%nat → path from k m → μ ≤ m.
Proof.
  intros Hk (d & Hd & <- & _). apply o_min. by apply iter_r_lt.
Qed.

Lemma path_accept (k : nat) (m : Z) :
  path 1 k m → m < ids !!! k → path 0 k m.
Proof.
  intros (d & Hd & Hm & Hj) Hlt. exists d. repeat split; try done; try lia.
  intros j Hjd. destruct (decide (j = 0)%nat) as [->|]; [done|].
  apply Hj. lia.
Qed.

Lemma path_step (k i : nat) (m : Z) :
  (k < N)%nat → r k = i → path 0 i m → path 1 k m.
Proof.
  intros Hk <- (d & Hd & Hm & Hj).
  assert (d < N)%nat as HdN.
  { destruct (decide (d = N)) as [->|]; [|lia]. exfalso.
    specialize (Hj 0%nat). simpl in Hj.
    assert (Nat.iter N r (r k) = r k) as E.
    { rewrite ring_right_iter by (apply ring_right_lt; lia).
      rewrite <- (Nat.Div0.add_mod_idemp_r _ N N), Nat.Div0.mod_same, Nat.add_0_r.
      apply Nat.mod_small, ring_right_lt. lia. }
    rewrite E in Hm. lia. }
  exists (S d). split; [lia|]. rewrite Nat.iter_succ_r. split; [done|].
  intros j Hjd. destruct j as [|j]; [lia|].
  rewrite Nat.iter_succ_r. apply Hj. lia.
Qed.

(** A message that comes back to the node it started from has been
    accepted by every other node: it carries the smallest identifier. *)
Lemma path_home (k : nat) : (k < N)%nat → path 1 k (ids !!! k) → k = o.
Proof.
  intros Hk (d & Hd & Hm & Hj).
  destruct (decide (k = o)) as [|Hne]; [done|exfalso].
  assert (Nat.iter d r k = k) as E by (apply ids_inj; [by apply iter_r_lt|done..]).
  rewrite ring_right_iter in E by done.
  assert (d = N) as ->.
  { destruct (decide (d = N)) as [|Hd']; [done|exfalso].
    destruct (decide (k + d < N)%nat).
    - rewrite Nat.mod_small in E by lia. lia.
    - assert ((k + d) mod N = k + d - N)%nat as E'
          by (symmetry; apply (Nat.mod_unique _ _ 1); lia).
      lia. }
  set (e := if decide (k < o)%nat then (o - k)%nat else (o + N - k)%nat).
  assert (1 ≤ e < N)%nat as He by (subst e; case_decide; lia).
  assert (Nat.iter e r k = o) as Eo.
  { rewrite ring_right_iter by done. subst e. case_decide.
    - rewrite Nat.mod_small by lia. lia.
    - symmetry. apply (Nat.mod_unique _ _ 1); lia. }
  specialize (Hj e He). rewrite Eo in Hj.
  pose proof (o_min k Hk). lia.
Qed.


(** *** The invariant of the running protocol *)

(** The node after lines 51-91 of its iteration, with the set [S] built so
    far. *)
Definition rcv (g : Graph) (i : nat) : Node.t * list Msg :=
  foldl (receive (now g)) (activate (inbox g i) (node g i)) (inbox g i).

Record Run (g : Graph) : Prop := {
  run_len : length (heap g) = N;
  run_id : ∀ i, (i < N)%nat → Node.id (node g i) = ids !!! i;
  run_min : ∀ i, (i < N)%nat →
            ∃ v, Node.min (node g i) = MinNum v ∧ μ ≤ v ≤ ids !!! i;
  run_status : ∀ i v, (i < N)%nat → Node.min (node g i) = MinNum v →
               match Node.status (node g i) with
               | participating =>
                   v = ids !!! i ∧ Node.is_leader (node g i) = false
               | not_elected =>
                   v < ids !!! i ∧ Node.is_leader (node g i) = false
               | elected => i = o ∧ Node.is_leader (node g i) = true
               | asleep | relay => False
               end;
  run_inbox : ∀ k m h, (k < N)%nat → (m, h) ∈ inbox g k → path 1 k m;
  run_waiting : ∀ i m h t v,
      (i < N)%nat → (m, h, t) ∈ Node.waiting (node g i) →
      Node.min (node g i) = MinNum v → path 0 i m ∧ v ≤ m
}.

Section Step.
Variable g : Graph.
Hypothesis HR : Run g.

Lemma run_awake (i : nat) :
  (i < N)%nat →
  Node.status (node g i) ≠ asleep ∧ Node.status (node g i) ≠ relay.
Proof.
  intros Hi. destruct (run_min g HR i Hi) as (v & Hv & _).
  pose proof (run_status g HR i v Hi Hv) as Hs.
  destruct (Node.status (node g i)); done.
Qed.

Lemma run_min_o : Node.min (node g o) = MinNum μ.
Proof.
  destruct (run_min g HR o o_lt) as (v & Hv & Hle).
  rewrite Hv. f_equal. lia.
Qed.

Lemma inbox_ge (k : nat) (m h : Z) :
  (k < N)%nat → (m, h) ∈ inbox g k → μ ≤ m.
Proof. intros Hk Hin. eapply path_ge; [done|]. by eapply run_inbox. Qed.

(** The node holding the smallest identifier accepts nothing. *)
Lemma rcv_o :
  rcv g o =
    (if carries μ (inbox g o)
     then Node.set_is_leader true (Node.set_status elected (node g o))
     else node g o, []).
Proof.
  unfold rcv. rewrite activate_awake by (by apply run_awake).
  rewrite (receive_loop_settled _ _ _ _ μ).
  - by rewrite (run_id g HR o o_lt).
  - apply run_min_o.
  - by apply run_awake.
  - intros m h Hin. by apply (inbox_ge o m h).
Qed.

(** Every other node never sees its own identifier come back. *)
Lemma rcv_other (i : nat) (v : Z) :
  (i < N)%nat → i ≠ o → Node.min (node g i) = MinNum v →
  rcv g i =
    (Node.mk (Node.id (node g i)) (Node.left_neighbor (node g i))
             (Node.right_neighbor (node g i))
             (if decide (low v (inbox g i) < v) then not_elected
              else Node.status (node g i))
             (MinNum (low v (inbox g i)))
             (Node.waiting (node g i) ++ accepted (now g) v (inbox g i))
             (Node.is_leader (node g i)),
     []).
Proof.
  intros Hi Hne Hv. unfold rcv.
  rewrite activate_awake by (by apply run_awake).
  apply receive_loop_foreign; [done|by apply run_awake|].
  intros m h Hin Hm. apply Hne, path_home; [done|].
  rewrite <- (run_id g HR i Hi), <- Hm. by eapply run_inbox.
Qed.

Lemma stepped_rcv (i : nat) :
  stepped g i =
    (Node.set_waiting
       (filter (λ e, ¬ entry_due (now g) e) (Node.waiting (rcv g i).1))
       (rcv g i).1,
     (rcv g i).2
     ++ (entry_msg <$>
           filter (λ e, entry_due (now g) e) (Node.waiting (rcv g i).1))).
Proof. by rewrite stepped_eq. Qed.

Lemma rcv_sends_nothing (i : nat) : (i < N)%nat → (rcv g i).2 = [].
Proof.
  intros Hi. destruct (decide (i = o)) as [->|Hne].
  - by rewrite rcv_o.
  - destruct (run_min g HR i Hi) as (v & Hv & _).
    by rewrite (rcv_other i v).
Qed.

Lemma low_ge (i : nat) (v : Z) :
  (i < N)%nat → μ ≤ v → μ ≤ low v (inbox g i).
Proof.
  intros Hi Hv. destruct (low_origin v (inbox g i)) as [->|[h Hin]]; [done|].
  by eapply inbox_ge.
Qed.

(** The new [min] of a node. *)
Lemma rcv_min (i : nat) (v : Z) :
  (i < N)%nat → Node.min (node g i) = MinNum v →
  Node.min (rcv g i).1 = MinNum (low v (inbox g i)).
Proof.
  intros Hi Hv. destruct (decide (i = o)) as [->|Hne].
  - rewrite rcv_o. rewrite run_min_o in Hv. injection Hv as <-.
    assert (low μ (inbox g o) = μ) as ->.
    { pose proof (low_le μ (inbox g o)). pose proof (low_ge o μ o_lt). lia. }
    destruct (carries μ (inbox g o)); simpl; apply run_min_o.
  - by rewrite (rcv_other i v).
Qed.

(** What the waiting list holds after the receive loop. *)
Lemma rcv_waiting (i : nat) (m h t v' : Z) :
  (i < N)%nat → (m, h, t) ∈ Node.waiting (rcv g i).1 →
  Node.min (rcv g i).1 = MinNum v' → path 0 i m ∧ v' ≤ m.
Proof.
  intros Hi Hin Hv'. destruct (run_min g HR i Hi) as (v & Hv & Hle).
  rewrite (rcv_min i v Hi Hv) in Hv'. injection Hv' as <-.
  pose proof (low_le v (inbox g i)) as Hlow.
  assert ((m, h, t) ∈ Node.waiting (node g i)
          ∨ (i ≠ o ∧ (m, h, t) ∈ accepted (now g) v (inbox g i))) as [Hold|[Hne Hnew]].
  { destruct (decide (i = o)) as [->|Hne].
    - left. rewrite rcv_o in Hin. by destruct (carries μ (inbox g o)).
    - rewrite (rcv_other i v) in Hin by done. simpl in Hin.
      apply elem_of_app in Hin as [?|?]; [by left|by right]. }
  - destruct (run_waiting g HR i m h t v Hi Hold Hv). split; [done|lia].
  - apply accepted_elem in Hnew as (m' & h' & [= -> -> ->] & Hin' & Hlt & Hl).
    split; [|done]. apply path_accept; [by eapply run_inbox|lia].
Qed.

Lemma next_node_rcv (i : nat) :
  (i < N)%nat →
  node (next g) i =
    Node.set_waiting
      (filter (λ e, ¬ entry_due (now g) e) (Node.waiting (rcv g i).1))
      (rcv g i).1.
Proof.
  intros Hi. rewrite next_node by (by rewrite (run_len g HR)).
  by rewrite stepped_rcv.
Qed.

Lemma next_inbox_rcv (k : nat) :
  (k < N)%nat →
  inbox (next g) k =
    entry_msg <$> filter (λ e, entry_due (now g) e)
                         (Node.waiting (rcv g (r k)).1).
Proof.
  intros Hk. rewrite next_inbox by (by rewrite (run_len g HR)).
  rewrite (run_len g HR), stepped_rcv. simpl.
  by rewrite rcv_sends_nothing by apply r_lt.
Qed.

Lemma rcv_id (i : nat) : (i < N)%nat → Node.id (rcv g i).1 = ids !!! i.
Proof.
  intros Hi. rewrite <- (run_id g HR i Hi). unfold rcv.
  rewrite activate_awake by (by apply run_awake).
  by destruct (receive_loop_frame (now g) (inbox g i) (node g i) []).
Qed.

Lemma run_next : Run (next g).
Proof.
  split.
  - rewrite next_length. apply (run_len g HR).
  - intros i Hi. rewrite next_node_rcv by done. simpl. by apply rcv_id.
  - intros i Hi. rewrite next_node_rcv by done. simpl.
    destruct (run_min g HR i Hi) as (v & Hv & Hle).
    exists (low v (inbox g i)). split; [by apply rcv_min|].
    pose proof (low_le v (inbox g i)). pose proof (low_ge i v Hi). lia.
  - intros i v' Hi. rewrite next_node_rcv by done. simpl.
    destruct (run_min g HR i Hi) as (v & Hv & Hle).
    pose proof (run_status g HR i v Hi Hv) as Hs.
    destruct (decide (i = o)) as [->|Hne].
    + rewrite rcv_o. rewrite run_min_o in Hv. injection Hv as <-.
      destruct (carries μ (inbox g o)); simpl; [by intros _|].
      rewrite run_min_o. intros [= <-]. done.
    + rewrite (rcv_other i v) by done. simpl. intros [= <-].
      pose proof (low_le v (inbox g i)).
      destruct (decide (low v (inbox g i) < v)) as [Hlt|Hge].
      * destruct (Node.status (node g i)); try done; split; try lia;
          tauto.
      * replace (low v (inbox g i)) with v by lia. done.
  - intros k m h Hk. rewrite next_inbox_rcv by done.
    intros ([[m' h'] t] & [= -> ->] & Hin)%list_elem_of_fmap.
    apply list_elem_of_filter in Hin as [_ Hin].
    destruct (run_min g HR (r k) (r_lt k)) as (v & Hv & _).
    apply (path_step k (r k)); [done|done|].
    eapply (rcv_waiting (r k)); [apply r_lt|exact Hin|].
    apply (rcv_min (r k) v); [apply r_lt|done].
  - intros i m h t v' Hi. rewrite next_node_rcv by done. simpl.
    intros [_ Hin]%list_elem_of_filter Hv'.
    by apply (rcv_waiting i m h t v').
Qed.

End Step.

(** *** The announcement of the smallest identifier stays alive *)

(** Node [k] has seen the smallest identifier. *)
Definition visited (g : Graph) (k : nat) : Prop :=
  Node.min (node g k) = MinNum μ.

(** The announcement of [μ] is pending for node [k]: in its queue, or held
    in the waiting list of its right neighbour. *)
Definition pending (g : Graph) (k : nat) : Prop :=
  (∃ h, (μ, h) ∈ inbox g k) ∨
  (∃ h t, (μ, h, t) ∈ Node.waiting (node g (r k))).

Record Live (g : Graph) : Prop := {
  live_closed : ∀ k, (k < N)%nat → visited g k → k = o ∨ visited g (r k);
  live_inbox : ∀ k h, (k < N)%nat → (μ, h) ∈ inbox g k → visited g (r k);
  live_token : Node.is_leader (node g o) = true ∨
               ∃ k, (k < N)%nat ∧ (k = o ∨ ¬ visited g k) ∧ pending g k
}.

Section LiveStep.
Variable g : Graph.
Hypothesis HR : Run g.
Hypothesis HL : Live g.

Lemma visited_next (k : nat) (v : Z) :
  (k < N)%nat → Node.min (node g k) = MinNum v →
  visited (next g) k ↔ low v (inbox g k) = μ.
Proof.
  intros Hk Hv. unfold visited. rewrite (next_node_rcv g HR) by done.
  simpl. rewrite (rcv_min g HR k v) by done.
  split; [by intros [= ->]|by intros ->].
Qed.

Lemma visited_mono (k : nat) :
  (k < N)%nat → visited g k → visited (next g) k.
Proof.
  intros Hk Hv. apply (visited_next k μ); [done|done|].
  pose proof (low_le μ (inbox g k)). pose proof (low_ge g HR k μ Hk). lia.
Qed.

Lemma visited_new (k : nat) :
  (k < N)%nat → visited (next g) k →
  visited g k ∨ ∃ h, (μ, h) ∈ inbox g k.
Proof.
  intros Hk Hv. destruct (run_min g HR k Hk) as (v & Hmin & _).
  apply (visited_next k v) in Hv; [|done..].
  destruct (low_origin v (inbox g k)) as [E|[h Hin]].
  - left. unfold visited. rewrite Hmin. f_equal. lia.
  - right. exists h. by rewrite <- Hv.
Qed.

Lemma rcv_keeps (i : nat) (e : WaitEntry) :
  (i < N)%nat → e ∈ Node.waiting (node g i) →
  e ∈ Node.waiting (rcv g i).1.
Proof.
  intros Hi Hin. unfold rcv.
  rewrite activate_awake by (by apply (run_awake g HR)).
  destruct (receive_loop_waiting (now g) (inbox g i) (node g i) [])
    as [extra ->].
  apply elem_of_app. by left.
Qed.

(** An entry of the waiting list is either released to the left
    neighbour or kept. *)
Lemma pending_from_rcv (k : nat) (h t : Z) :
  (k < N)%nat → (μ, h, t) ∈ Node.waiting (rcv g (r k)).1 →
  pending (next g) k.
Proof.
  intros Hk Hin. destruct (entry_due (now g) (μ, h, t)) eqn:Hd.
  - left. exists h. rewrite (next_inbox_rcv g HR) by done.
    apply list_elem_of_fmap. exists (μ, h, t). split; [done|].
    apply list_elem_of_filter. split; [|done]. rewrite Hd. simpl. tauto.
  - right. exists h, t. rewrite (next_node_rcv g HR) by apply r_lt.
    simpl. apply list_elem_of_filter. split; [|done].
    rewrite Hd. simpl. tauto.
Qed.

(** A node that has not seen [μ] does not see it before its right
    neighbour. *)
Lemma frontier_left (k : nat) :
  (k < N)%nat → ¬ visited g (r k) → k = o ∨ ¬ visited (next g) k.
Proof.
  intros Hk Hnv. destruct (decide (k = o)) as [|Hne]; [by left|right].
  intros [Hv|[h Hin]]%visited_new; [|apply Hnv|done].
  - destruct (live_closed g HL k Hk Hv); done.
  - by apply (live_inbox g HL k h).
Qed.

(** The announcement reaches a node that had not seen it. *)
Lemma token_accepted (k : nat) (h : Z) :
  (k < N)%nat → k ≠ o → ¬ visited g k → (μ, h) ∈ inbox g k →
  ∃ k', (k' < N)%nat ∧ (k' = o ∨ ¬ visited (next g) k') ∧
        pending (next g) k'.
Proof.
  intros Hk Hne Hnv Hin.
  destruct (run_min g HR k Hk) as (v & Hmin & Hle).
  assert (μ < v) as Hlt.
  { destruct (Z.eq_dec μ v) as [E|]; [|lia]. exfalso. apply Hnv.
    unfold visited. by rewrite Hmin, E. }
  assert (low v (inbox g k) = μ) as Hlow.
  { pose proof (low_lower v _ _ _ Hin). pose proof (low_ge g HR k v Hk). lia. }
  assert ((μ, 2, now g) ∈ Node.waiting (rcv g k).1) as Hw.
  { rewrite (rcv_other g HR k v) by done. simpl.
    apply elem_of_app. right. rewrite <- Hlow. apply accepted_low. lia. }
  exists (ring_left N k).
  assert (ring_left N k < N)%nat as Hk' by (apply ring_left_lt; lia).
  assert (r (ring_left N k) = k) as Hr by (by apply ring_right_left).
  split; [done|]. split.
  - apply frontier_left; [done|]. by rewrite Hr.
  - apply (pending_from_rcv _ 2 (now g)); [done|]. by rewrite Hr.
Qed.

Lemma live_next : Live (next g).
Proof.
  split.
  - intros k Hk [Hv|[h Hin]]%visited_new; [|right|done].
    + destruct (live_closed g HL k Hk Hv) as [|Hr]; [by left|right].
      apply visited_mono; [apply r_lt|done].
    + apply visited_mono; [apply r_lt|]. by apply (live_inbox g HL k h).
  - intros k h Hk. rewrite (next_inbox_rcv g HR) by done.
    intros ([[m' h'] t] & [= <- <-] & Hin)%list_elem_of_fmap.
    apply list_elem_of_filter in Hin as [_ Hin].
    destruct (run_min g HR (r k) (r_lt k)) as (v & Hv & Hle).
    pose proof (rcv_min g HR (r k) v (r_lt k) Hv) as Hmin.
    destruct (rcv_waiting g HR (r k) μ h t _ (r_lt k) Hin Hmin) as [_ Hge].
    apply (visited_next (r k) v); [apply r_lt|done|].
    pose proof (low_ge g HR (r k) v (r_lt k)). lia.
  - destruct (live_token g HL) as [Hlead|(k & Hk & Hfr & Hp)].
    { left. rewrite (next_node_rcv g HR) by done. simpl.
      rewrite (rcv_o g HR). by destruct (carries μ (inbox g o)). }
    destruct Hp as [[h Hin]|(h & t & Hin)].
    + destruct (decide (k = o)) as [->|Hne].
      * left. rewrite (next_node_rcv g HR) by done. simpl.
        rewrite (rcv_o g HR).
        assert (carries μ (inbox g o) = true) as ->; [|done].
        apply existsb_exists. exists (μ, h). split.
        -- by apply list_elem_of_In.
        -- apply Z.eqb_refl.
      * right. destruct Hfr as [|Hnv]; [done|].
        by apply (token_accepted k h).
    + assert (pending (next g) k) as Hp'.
      { apply (pending_from_rcv k h t); [done|].
        apply rcv_keeps; [apply r_lt|done]. }
      destruct Hfr as [->|Hnv]; [right; exists o; by auto|].
      destruct (decide (k = o)) as [->|Hne]; [right; exists o; by auto|].
      right.
      destruct (decide (Node.min (node (next g) k) = MinNum μ)) as [Hv'|Hnv'].
      * destruct (visited_new k Hk Hv') as [Hv|[h' Hin']]; [done|].
        by apply (token_accepted k h').
      * exists k. by auto.
Qed.

End LiveStep.

End Election.

(** ** Round 0: every node wakes up spontaneously *)

Section Round0.
Variable ids : list Z.
Local Abbreviation N := (length ids).

(** The state before the first round, as [build_ring] leaves it. *)
Definition fresh (g : Graph) : Prop :=
  length (heap g) = N ∧
  (∀ i, (i < N)%nat →
        node g i = Node.mk (ids !!! i) (Some (ring_left N i))
                           (Some (ring_right N i)) asleep MinNone [] false) ∧
  (∀ k, inbox g k = []).

Lemma fresh_ring0 : fresh (ring0 ids).
Proof.
  split; [apply ring0_length|]. split.
  - intros i Hi. unfold node. apply list_lookup_total_correct.
    apply ring0_lookup. by apply list_lookup_lookup_total_lt.
  - intros k. unfold inbox. simpl. rewrite fresh_queues_lookup.
    by case_decide.
Qed.

Lemma stepped_fresh (g : Graph) (i : nat) :
  fresh g → (i < N)%nat →
  stepped g i =
    (Node.mk (ids !!! i) (Some (ring_left N i)) (Some (ring_right N i))
             participating (MinNum (ids !!! i)) [] false,
     [(ids !!! i, 1)]).
Proof.
  intros (Hlen & Hnode & Hin) Hi. rewrite stepped_eq.
  rewrite (Hin i), (Hnode i Hi). reflexivity.
Qed.

(** Round 0 tests no entry. *)
Lemma fresh_safe (g : Graph) : fresh g → all_safe g = true.
Proof.
  intros (Hlen & Hnode & Hin). apply all_safe_intro. intros i e Hi.
  rewrite Hlen in Hi. rewrite (Hin i), (Hnode i Hi).
  unfold held, activate. simpl. by intros ?%elem_of_nil.
Qed.

Lemma next_fresh_node (g : Graph) (i : nat) :
  fresh g → (i < N)%nat →
  node (next g) i =
    Node.mk (ids !!! i) (Some (ring_left N i)) (Some (ring_right N i))
            participating (MinNum (ids !!! i)) [] false.
Proof.
  intros Hf Hi. rewrite next_node by (destruct Hf as [-> _]; done).
  by rewrite stepped_fresh.
Qed.

Lemma next_fresh_inbox (g : Graph) (k : nat) :
  fresh g → (k < N)%nat →
  inbox (next g) k = [(ids !!! (ring_right N k), 1)].
Proof.
  intros Hf Hk. pose proof Hf as [Hlen _].
  rewrite next_inbox by (by rewrite Hlen).
  rewrite Hlen, stepped_fresh; [done|done|]. apply ring_right_lt. lia.
Qed.

End Round0.

Section ElectionRun.
Variable ids : list Z.
Hypothesis ids_nodup : NoDup ids.
Variable o : nat.
Hypothesis o_lt : (o < length ids)%nat.
Hypothesis o_min : ∀ j, (j < length ids)%nat → ids !!! o ≤ ids !!! j.
Local Abbreviation N := (length ids).

Lemma run_round0 (g : Graph) : fresh ids g → Run ids o (next g).
Proof.
  intros Hf. pose proof Hf as [Hlen _]. split.
  - by rewrite next_length.
  - intros i Hi. by rewrite (next_fresh_node ids).
  - intros i Hi. rewrite (next_fresh_node ids) by done. simpl.
    exists (ids !!! i). split; [done|]. split; [by apply o_min|lia].
  - intros i v Hi. rewrite (next_fresh_node ids) by done. simpl.
    by intros [= <-].
  - intros k m h Hk. rewrite (next_fresh_inbox ids) by done.
    intros [= -> ->]%list_elem_of_singleton.
    exists 1%nat. split; [lia|]. split; [done|]. intros j Hj. lia.
  - intros i m h t v Hi. rewrite (next_fresh_node ids) by done. simpl.
    by intros ?%elem_of_nil.
Qed.

Lemma live_round0 (g : Graph) : fresh ids g → Live ids o (next g).
Proof.
  intros Hf. pose proof Hf as [Hlen _].
  assert (∀ k, (k < N)%nat → visited ids o (next g) k → k = o) as Hvis.
  { intros k Hk. unfold visited. rewrite (next_fresh_node ids) by done.
    simpl. intros [= E]. by apply (ids_inj ids ids_nodup). }
  split.
  - intros k Hk Hv. left. by apply Hvis.
  - intros k h Hk. rewrite (next_fresh_inbox ids) by done.
    intros [= E]%list_elem_of_singleton. unfold visited.
    rewrite (next_fresh_node ids); [|done|apply ring_right_lt; lia].
    simpl. by rewrite E.
  - right. exists (ring_left N o).
    assert (ring_left N o < N)%nat as Hk by (apply ring_left_lt; lia).
    split; [done|]. split.
    + destruct (decide (ring_left N o = o)) as [|Hne]; [by left|right].
      intros Hv. by apply Hne, Hvis.
    + left. exists 1. rewrite (next_fresh_inbox ids) by done.
      rewrite ring_right_left by done. apply list_elem_of_singleton. done.
Qed.

(** After at least one round, both invariants hold. *)
Lemma run_live_iter (g : Graph) (n : nat) :
  fresh ids g →
  Run ids o (Nat.iter (S n) next g) ∧ Live ids o (Nat.iter (S n) next g).
Proof.
  intros Hf. induction n as [|n [IH1 IH2]].
  - split; [by apply run_round0|by apply live_round0].
  - split.
    + by apply (run_next ids ids_nodup o o_lt o_min).
    + by apply (live_next ids ids_nodup o o_lt o_min).
Qed.

(** When a round reports no activity, the node holding the smallest
    identifier has just been elected. *)
Lemma quiet_round_elects (g : Graph) :
  Live ids o (next g) → length (heap g) = N → any_active g = false →
  Node.is_leader (node (next g) o) = true.
Proof.
  intros HL Hlen Hq. destruct (live_token ids o _ HL) as [|(k & Hk & _ & Hp)];
    [done|exfalso].
  assert (ring_right N k < length (heap g))%nat as Hr
      by (rewrite Hlen; apply ring_right_lt; lia).
  pose proof (any_active_false g _ Hq Hr) as [HS HW]%active_false.
  destruct Hp as [[h Hin]|(h & t & Hin)].
  - rewrite next_inbox in Hin by (by rewrite Hlen).
    rewrite Hlen, HS in Hin. by apply elem_of_nil in Hin.
  - rewrite next_node in Hin by done. rewrite HW in Hin.
    by apply elem_of_nil in Hin.
Qed.

(** Only the node holding the smallest identifier is ever a leader. *)
Lemma run_leader (g : Graph) (i : nat) :
  Run ids o g → (i < N)%nat → Node.is_leader (node g i) = true → i = o.
Proof.
  intros HR Hi Hlead. destruct (run_min ids o g HR i Hi) as (v & Hv & _).
  pose proof (run_status ids o g HR i v Hi Hv) as Hs.
  destruct (Node.status (node g i)); try done; destruct Hs; congruence.
Qed.

End ElectionRun.

(** ** The scheduler loop *)

(** The loop of [round_process] over synchronous steps. *)
Fixpoint loop_par (fuel : nat) (cap : Z) (g : Graph) (activity : bool)
  : Graph * bool :=
  match fuel with
  | O => (g, activity)
  | S fuel' =>
      if activity && (now g <? cap)
      then loop_par fuel' cap (next g) (any_active g)
      else (g, activity)
  end.

(** No round ever overflows from [g] on. *)
Definition always_safe (g : Graph) : Prop :=
  ∀ j, all_safe (Nat.iter j next g) = true.

Lemma always_safe_next (g : Graph) : always_safe g → always_safe (next g).
Proof. intros H j. rewrite iter_next_shift. apply (H (S j)). Qed.

Lemma always_safe_run (g : Graph) (n : nat) : always_safe g → safe_run n g.
Proof. intros H j _. apply H. Qed.

Lemma round_loop_par (fuel : nat) (cap : Z) (g : Graph) (activity : bool) :
  wf_ring g → always_safe g →
  round_loop fuel cap g activity = Ok (loop_par fuel cap g activity).
Proof.
  revert g activity. induction fuel as [|fuel IH]; intros g act Hwf Hs; [done|].
  cbn [round_loop loop_par].
  destruct (act && (now g <? cap)); [|done].
  rewrite process_round_par by (done || apply (Hs 0%nat)). simpl.
  change (tick (par_round g)) with (next g).
  apply IH; [by apply wf_next|by apply always_safe_next].
Qed.

(** When the loop returns, it returns what the loop over synchronous steps
    computes. *)
Lemma round_loop_ok (fuel : nat) (cap : Z) (g : Graph) (activity : bool)
    (r : Graph * bool) :
  wf_ring g → round_loop fuel cap g activity = Ok r →
  r = loop_par fuel cap g activity.
Proof.
  revert g activity. induction fuel as [|fuel IH]; intros g act Hwf.
  - by intros [= <-].
  - cbn [round_loop loop_par].
    destruct (act && (now g <? cap)); [|by intros [= <-]].
    rewrite process_round_spec by done. destruct (all_safe g); [|done].
    simpl. change (tick (par_round g)) with (next g).
    apply IH. by apply wf_next.
Qed.

(** The rounds of a loop that returned raised nothing. *)
Lemma round_loop_rounds (fuel : nat) (cap : Z) (g : Graph) (activity : bool)
    (r : Graph * bool) :
  wf_ring g → round_loop fuel cap g activity = Ok r →
  ∃ k, rounds k g = Ok r.1.
Proof.
  revert g activity. induction fuel as [|fuel IH]; intros g act Hwf.
  - intros [= <-]. by exists 0%nat.
  - cbn [round_loop].
    destruct (act && (now g <? cap)); [|intros [= <-]; by exists 0%nat].
    rewrite process_round_spec by done.
    destruct (all_safe g) eqn:H0; [|done].
    simpl. change (tick (par_round g)) with (next g). intros Hr.
    destruct (IH _ _ (wf_next g Hwf) Hr) as [k Hk]. exists (S k).
    cbn [rounds]. rewrite process_round_par by done. simpl.
    exact Hk.
Qed.

(** The flag [activity] before round [j] of a run started at [g]. *)
Definition flag_at (g : Graph) (j : nat) : bool :=
  match j with
  | O => true
  | S j' => any_active (Nat.iter j' next g)
  end.

Lemma now_iter (g : Graph) (k : nat) :
  now (Nat.iter k next g) = now g + Z.of_nat k.
Proof.
  induction k as [|k IH]; [simpl; lia|].
  change (Nat.iter (S k) next g) with (next (Nat.iter k next g)).
  rewrite next_now, IH. lia.
Qed.

(** The loop runs [k] rounds, each of them started with the flag set and the
    clock below the cap, and stops at the first test that fails. *)
Lemma loop_par_spec (fuel : nat) (cap : Z) :
  ∀ (g : Graph) (j : nat) (g0 : Graph),
    g = Nat.iter j next g0 → (cap - now g ≤ Z.of_nat fuel) →
    (∀ i, (i < j)%nat → flag_at g0 i = true ∧ now (Nat.iter i next g0) < cap) →
    ∃ k, loop_par fuel cap g (flag_at g0 j)
         = (Nat.iter k next g0, flag_at g0 k) ∧
         (∀ i, (i < k)%nat →
               flag_at g0 i = true ∧ now (Nat.iter i next g0) < cap) ∧
         (flag_at g0 k = false ∨ cap ≤ now (Nat.iter k next g0)).
Proof.
  induction fuel as [|fuel IH]; intros g j g0 Hg Hfuel Hrun.
  - exists j. cbn [loop_par]. subst g. split; [done|]. split; [done|].
    right. lia.
  - cbn [loop_par].
    destruct (flag_at g0 j) eqn:Hflag; simpl.
    + destruct (Z.ltb_spec (now g) cap) as [Hlt|Hge].
      * destruct (IH (next g) (S j) g0) as (k & Hk & Hall & Hstop).
        -- subst g. done.
        -- rewrite next_now. lia.
        -- intros i Hi. destruct (decide (i = j)) as [->|Hne].
           ++ subst g. done.
           ++ apply Hrun. lia.
        -- exists k. split; [|done]. rewrite <- Hk. subst g. done.
      * exists j. subst g. split; [by rewrite Hflag|]. split; [done|].
        right. done.
    + exists j. subst g. split; [by rewrite Hflag|]. split; [done|]. by left.
Qed.

(** ** [run_election] on the ring *)

Lemma filter_negb_Permutation {A} (p : A → bool) (l : list A) :
  List.filter p l ++ List.filter (λ x, negb (p x)) l ≡ₚ l.
Proof.
  induction l as [|x l IH]; [done|]. simpl. destruct (p x); simpl.
  - by rewrite IH.
  - rewrite <- Permutation_middle. by rewrite IH.
Qed.

Lemma initiator_first_Permutation (h : list Node.t) (init : option Z)
    (ns : list nat) :
  initiator_first h init ns ≡ₚ ns.
Proof. apply filter_negb_Permutation. Qed.

Lemma wf_prepare (g : Graph) (cap : Z) (init : option Z) :
  wf_ring g → wf_ring (prepare g cap init).
Proof.
  intros [H1 H2 H3]. split; simpl; [|done|done].
  by rewrite initiator_first_Permutation.
Qed.

Lemma fresh_prepare (ids : list Z) (g : Graph) (cap : Z) (init : option Z) :
  fresh ids g → fresh ids (prepare g cap init).
Proof. intros H. exact H. Qed.

Lemma nodes_iter_next (g : Graph) (k : nat) :
  nodes (Nat.iter k next g) = nodes g.
Proof. induction k as [|k IH]; [done|]. simpl. exact IH. Qed.

Lemma length_iter_next (g : Graph) (k : nat) :
  length (heap (Nat.iter k next g)) = length (heap g).
Proof.
  induction k as [|k IH]; [done|].
  change (Nat.iter (S k) next g) with (next (Nat.iter k next g)).
  by rewrite next_length.
Qed.

(** The election in terms of the loop over synchronous steps: the rounds
    either raise [OverflowError] or are the steps of [loop_par]. *)
Lemma election_loop_ok (ids : list Z) (cap : Z) (init : option Z)
    (r : Graph * list nat * bool) :
  election ids cap init = Ok r →
  let l := loop_par (Z.to_nat (cap - 0)) cap (prepare (ring0 ids) cap init)
                    true in
  r = (l.1, leaders_of l.1, l.2).
Proof.
  unfold election. rewrite build_ring_eq. simpl.
  unfold run_election, round_process. simpl.
  destruct (round_loop _ _ _ _) as [[g2 a]|e] eqn:E; [|done].
  apply round_loop_ok in E; [|apply wf_prepare, wf_ring0].
  simpl. intros [= <-]. by rewrite <- E.
Qed.

Lemma election_rounds (ids : list Z) (cap : Z) (init : option Z)
    (r : Graph * list nat * bool) :
  election ids cap init = Ok r →
  ∃ k, rounds k (prepare (ring0 ids) cap init) = Ok r.1.1.
Proof.
  unfold election. rewrite build_ring_eq. simpl.
  unfold run_election, round_process. simpl.
  destruct (round_loop _ _ _ _) as [[g2 a]|e] eqn:E; [|done].
  apply round_loop_rounds in E; [|apply wf_prepare, wf_ring0].
  simpl. by intros [= <-].
Qed.

Lemma election_loop_safe (ids : list Z) (cap : Z) (init : option Z) :
  always_safe (prepare (ring0 ids) cap init) →
  let l := loop_par (Z.to_nat (cap - 0)) cap (prepare (ring0 ids) cap init)
                    true in
  election ids cap init = Ok (l.1, leaders_of l.1, l.2).
Proof.
  intros Hs. unfold election. rewrite build_ring_eq. simpl.
  unfold run_election, round_process. simpl.
  rewrite round_loop_par by (done || apply wf_prepare, wf_ring0).
  simpl. by destruct (loop_par _ _ _ _).
Qed.

Lemma loop_closed (ids : list Z) (cap : Z) (init : option Z) :
  let g1 := prepare (ring0 ids) cap init in
  ∃ k, loop_par (Z.to_nat (cap - 0)) cap g1 true
       = (Nat.iter k next g1, flag_at g1 k) ∧
       (∀ i, (i < k)%nat →
             flag_at g1 i = true ∧ now (Nat.iter i next g1) < cap) ∧
       (flag_at g1 k = false ∨ cap ≤ now (Nat.iter k next g1)).
Proof.
  intros g1.
  destruct (loop_par_spec (Z.to_nat (cap - 0)) cap g1 0 g1) as (k & Hk & H1 & H2).
  - done.
  - simpl. lia.
  - intros i Hi. lia.
  - exists k. done.
Qed.

(** The whole run in closed form: an election that returns has run some
    number [k] of rounds, and stopped at the first test of the loop that
    failed. *)
Lemma election_runs (ids : list Z) (cap : Z) (init : option Z)
    (r : Graph * list nat * bool) :
  election ids cap init = Ok r →
  let g1 := prepare (ring0 ids) cap init in
  ∃ k, election ids cap init
       = Ok (Nat.iter k next g1, leaders_of (Nat.iter k next g1), flag_at g1 k) ∧
       (∀ i, (i < k)%nat →
             flag_at g1 i = true ∧ now (Nat.iter i next g1) < cap) ∧
       (flag_at g1 k = false ∨ cap ≤ now (Nat.iter k next g1)).
Proof.
  intros Hr. cbv zeta. rewrite Hr. apply election_loop_ok in Hr.
  cbv zeta in Hr.
  destruct (loop_closed ids cap init) as (k & Hk & H1 & H2).
  rewrite Hk in Hr. simpl in Hr. exists k. by rewrite Hr.
Qed.

(** The same, for a ring on which no round overflows: the election
    returns. *)
Lemma election_runs_safe (ids : list Z) (cap : Z) (init : option Z) :
  let g1 := prepare (ring0 ids) cap init in
  always_safe g1 →
  ∃ k, election ids cap init
       = Ok (Nat.iter k next g1, leaders_of (Nat.iter k next g1), flag_at g1 k) ∧
       (∀ i, (i < k)%nat →
             flag_at g1 i = true ∧ now (Nat.iter i next g1) < cap) ∧
       (flag_at g1 k = false ∨ cap ≤ now (Nat.iter k next g1)).
Proof.
  cbv zeta. intros Hs. rewrite (election_loop_safe ids cap init Hs).
  destruct (loop_closed ids cap init) as (k & Hk & H1 & H2).
  rewrite Hk. simpl. by exists k.
Qed.

(** Rounds that returned are synchronous steps. *)
Lemma rounds_prepare (ids : list Z) (cap : Z) (init : option Z) (n : nat)
    (g : Graph) :
  rounds n (prepare (ring0 ids) cap init) = Ok g →
  g = Nat.iter n next (prepare (ring0 ids) cap init).
Proof.
  intros Hr. by apply rounds_ok in Hr as [-> _]; [|apply wf_prepare, wf_ring0].
Qed.

(** * The properties of the specification *)

(** ** Topology construction *)

(** C2 (as amended).  The construction of the ring never fails: for every
    list of identifiers, the empty list and lists with repeated identifiers
    included, it returns a graph with one node per element of the list, in
    order, node [i] having node [(i + 1) mod N] as right neighbour and node
    [(i - 1) mod N] as left neighbour, every node asleep, every queue
    empty and the clock at 0. *)
Theorem build_ring_total (ids : list Z) :
  ∃ g, build_ring ids = Ok g ∧
       now g = 0 ∧
       nodes g = seq 0 (length ids) ∧
       heap g = imap (λ i x, Node.mk x (Some (ring_left (length ids) i))
                                    (Some (ring_right (length ids) i))
                                    asleep MinNone [] false) ids ∧
       ∀ k, inbox g k = [].
Proof.
  exists (ring0 ids). split; [apply build_ring_eq|]. split; [done|].
  split; [done|]. split.
  - apply list_eq. intros i. rewrite list_lookup_imap.
    destruct (ids !! i) as [x|] eqn:E.
    + by rewrite (ring0_lookup ids i x E).
    + simpl. rewrite list_lookup_imap, E. done.
  - apply (fresh_ring0 ids).
Qed.

(** C2 (as stated) fails: the empty list and a list with a repeated
    identifier are both accepted, and a graph is returned for each. *)
Lemma build_ring_accepts_invalid :
  (length ([] : list Z) < 1)%nat ∧ ¬ NoDup [7; 7] ∧
  (∃ g, build_ring [] = Ok g ∧ heap g = []) ∧
  (∃ g, build_ring [7; 7] = Ok g ∧ Node.id <$> heap g = [7; 7]) ∧
  (∀ e, build_ring [] ≠ Raise e) ∧ (∀ e, build_ring [7; 7] ≠ Raise e).
Proof.
  split; [simpl; lia|]. split.
  - intros H. apply NoDup_cons in H as [H _]. apply H. left.
  - repeat split; try (eexists; split; reflexivity); intros e; discriminate.
Qed.

(** ** Reporting of the leaders *)

Lemma leaders_of_iter (ids : list Z) (cap : Z) (init : option Z) (k i : nat) :
  let g := Nat.iter k next (prepare (ring0 ids) cap init) in
  i ∈ leaders_of g ↔ (i < length ids)%nat ∧ Node.is_leader (node g i) = true.
Proof.
  intros g. unfold leaders_of. rewrite list_elem_of_In, filter_In.
  rewrite <- list_elem_of_In. unfold g at 1. rewrite nodes_iter_next.
  simpl. rewrite initiator_first_Permutation, elem_of_seq.
  unfold node. split; intros [H1 H2]; (split; [lia|done]).
Qed.

Lemma leaders_of_NoDup (ids : list Z) (cap : Z) (init : option Z) (k : nat) :
  NoDup (leaders_of (Nat.iter k next (prepare (ring0 ids) cap init))).
Proof.
  unfold leaders_of. rewrite nodes_iter_next. simpl.
  apply NoDup_ListNoDup, List.NoDup_filter, NoDup_ListNoDup.
  rewrite initiator_first_Permutation. apply NoDup_seq.
Qed.




(** ** The ring of a single node *)

Section SingleNode.
Variable x : Z.

Lemma stepped_single_round1 (g : Graph) :
  fresh [x] g →
  stepped (next g) 0
  = (Node.mk x (Some 0%nat) (Some 0%nat) elected (MinNum x) [] true, []).
Proof.
  intros Hf. unfold stepped.
  change (heap (next g) !!! 0%nat) with (node (next g) 0).
  rewrite (next_fresh_node [x]), (next_fresh_inbox [x]) by (done || simpl; lia).
  unfold node_step, activate, receive. simpl.
  rewrite Z.ltb_irrefl, Z.eqb_refl. reflexivity.
Qed.

(** The single node accepts nothing: its release test is never run. *)
Lemma safe_single_round1 (g : Graph) : fresh [x] g → all_safe (next g) = true.
Proof.
  intros Hf. apply all_safe_intro. intros i e. rewrite next_length.
  destruct Hf as (Hlen & Hnode & Hin). rewrite Hlen. simpl. intros Hi.
  assert (i = 0%nat) as -> by lia.
  rewrite (next_fresh_node [x]), (next_fresh_inbox [x])
    by (done || simpl; lia).
  unfold held, activate, receive. simpl.
  rewrite Z.ltb_irrefl, Z.eqb_refl. simpl. by intros ?%elem_of_nil.
Qed.

Lemma heap_single (g : Graph) (nd : Node.t) :
  length (heap g) = 1%nat → node g 0 = nd → heap g = [nd].
Proof.
  unfold node. destruct (heap g) as [|a [|b l]]; simpl; try done.
  by intros _ ->.
Qed.

Lemma any_active_single (g : Graph) :
  length (heap g) = 1%nat → any_active g = active g 0.
Proof. intros H. unfold any_active. rewrite H. simpl. apply orb_false_r. Qed.

End SingleNode.

(** C9.  On the ring of one node, the node wakes up in round 0 and is elected
    in round 1: after the second round its status is [elected] and
    [is_leader] is set.  With a cap of at least 2 rounds the election stops
    right there (clock at 2, no activity) and returns that node as the only
    leader. *)
Theorem single_node_elected (x cap : Z) (init : option Z) :
  2 ≤ cap →
  ∃ g1 g2,
    (g0 ← build_ring [x]; rounds 1 (prepare g0 cap init)) = Ok g1 ∧
    statuses g1 = [participating] ∧ mins g1 = [MinNum x] ∧
    (g0 ← build_ring [x]; rounds 2 (prepare g0 cap init)) = Ok g2 ∧
    statuses g2 = [elected] ∧ leader_flags g2 = [true] ∧ now g2 = 2 ∧
    election [x] cap init = Ok (g2, [0%nat], false).
Proof.
  intros Hcap. rewrite build_ring_eq. simpl.
  set (g := prepare (ring0 [x]) cap init).
  assert (fresh [x] g) as Hf by apply fresh_prepare, fresh_ring0.
  assert (wf_ring g) as Hwf by apply wf_prepare, wf_ring0.
  assert (length (heap g) = 1%nat) as Hlen by (by destruct Hf as [-> _]).
  assert (heap (next g)
          = [Node.mk x (Some 0%nat) (Some 0%nat) participating (MinNum x) [] false])
    as Hh1.
  { apply heap_single; [by rewrite next_length|].
    rewrite (next_fresh_node [x]) by (done || simpl; lia). done. }
  assert (heap (next (next g))
          = [Node.mk x (Some 0%nat) (Some 0%nat) elected (MinNum x) [] true])
    as Hh2.
  { apply heap_single; [by rewrite !next_length|].
    rewrite next_node by (rewrite next_length; lia).
    by rewrite (stepped_single_round1 x). }
  assert (all_safe g = true) as Hs0 by (by apply (fresh_safe [x])).
  assert (all_safe (next g) = true) as Hs1 by (by apply (safe_single_round1 x)).
  assert (safe_run 2 g) as Hs2
      by (intros [|[|j]] Hj; [exact Hs0|exact Hs1|lia]).
  exists (next g), (next (next g)).
  split; [apply (rounds_next 1 g Hwf); intros j Hj; apply Hs2; lia|].
  split; [unfold statuses; by rewrite Hh1|].
  split; [unfold mins; by rewrite Hh1|].
  split; [apply (rounds_next 2 g Hwf Hs2)|].
  split; [unfold statuses; by rewrite Hh2|].
  split; [unfold leader_flags; by rewrite Hh2|].
  split; [done|].
  assert (any_active g = true) as Ha0.
  { rewrite any_active_single by done. unfold active.
    rewrite (stepped_fresh [x]) by (done || simpl; lia). done. }
  assert (any_active (next g) = false) as Ha1.
  { rewrite any_active_single by (by rewrite next_length). unfold active.
    by rewrite (stepped_single_round1 x). }
  unfold election. rewrite build_ring_eq. simpl.
  unfold run_election, round_process. fold g. simpl.
  destruct (Z.to_nat (cap - 0)) as [|[|fuel]] eqn:Hfuel; [lia|lia|].
  cbn [round_loop]. simpl (now g).
  rewrite (proj2 (Z.ltb_lt 0 cap)) by lia. simpl.
  rewrite process_round_par, Ha0 by done. simpl.
  change (tick (par_round g)) with (next g).
  rewrite (proj2 (Z.ltb_lt (0 + 1) cap)) by lia.
  rewrite process_round_par, Ha1 by (done || by apply wf_next). simpl.
  change (tick (par_round (next g))) with (next (next g)).
  assert (nodes (next (next g)) = [0%nat]) as Hn.
  { change (nodes (next (next g)))
      with (initiator_first (heap (ring0 [x])) init [0%nat]).
    unfold initiator_first. simpl. by destruct (has_id _ init 0). }
  destruct fuel; simpl; unfold leaders_of; rewrite Hh2, Hn; reflexivity.
Qed.

Lemma single_node_elected_witness :
  2 ≤ 100 ∧
  ∃ g1 g2,
    (g0 ← build_ring [5]; rounds 1 (prepare g0 100 None)) = Ok g1 ∧
    statuses g1 = [participating] ∧ mins g1 = [MinNum 5] ∧
    (g0 ← build_ring [5]; rounds 2 (prepare g0 100 None)) = Ok g2 ∧
    statuses g2 = [elected] ∧ leader_flags g2 = [true] ∧ now g2 = 2 ∧
    election [5] 100 None = Ok (g2, [0%nat], false).
Proof. split; [lia|apply (single_node_elected 5 100 None); lia]. Defined.

(** ** No node ever relays *)

(** The guards of lines 70 and 79 taken together: the message is accepted by
    a node that is a relay, and it is a first-phase message. *)
Definition relays (nd : Node.t) (msg : Msg) : bool :=
  accepts msg.1 (Node.min nd)
  && (bool_decide (Node.status nd = relay) && (msg.2 =? 1)).

(** Does the loop of lines 68-91, run over [R] from the state [acc], ever
    take the branch of line 81? *)
Fixpoint cheap_relay_taken (now : Z) (R : list Msg) (acc : Node.t * list Msg)
  : bool :=
  match R with
  | [] => false
  | msg :: R' =>
      relays acc.1 msg || cheap_relay_taken now R' (receive now acc msg)
  end.

(** A node that woke up spontaneously and has run ever since. *)
Definition awake (nd : Node.t) : Prop :=
  (Node.status nd = participating ∨ Node.status nd = not_elected
   ∨ Node.status nd = elected) ∧
  ∃ v, Node.min nd = MinNum v.

Definition Awake (g : Graph) : Prop :=
  ∀ i, (i < length (heap g))%nat → awake (node g i).

Lemma awake_not_relay (nd : Node.t) :
  awake nd → Node.status nd ≠ relay ∧ Node.status nd ≠ asleep.
Proof. intros [[H|[H|H]] _]; rewrite H; done. Qed.

Lemma receive_awake (now : Z) (nd : Node.t) (S0 : list Msg) (msg : Msg) :
  awake nd →
  awake (receive now (nd, S0) msg).1 ∧ (receive now (nd, S0) msg).2 = S0 ∧
  relays nd msg = false.
Proof.
  intros Ha. destruct (awake_not_relay nd Ha) as [Hr _].
  pose proof Ha as [Hs [v Hv]]. destruct msg as [m h].
  rewrite (receive_num now nd S0 m h v) by done. split; [|split].
  - destruct (m <? v); [|destruct (m =? Node.id nd)]; simpl.
    + split; [by right; left|by exists m].
    + split; [by right; right|by exists v].
    + done.
  - by destruct (m <? v); [|destruct (m =? Node.id nd)].
  - unfold relays. rewrite (bool_decide_eq_false_2 _ Hr).
    by rewrite andb_false_l, andb_false_r.
Qed.

Lemma receive_loop_awake (now : Z) (R : list Msg) :
  ∀ nd S0,
    awake nd →
    awake (foldl (receive now) (nd, S0) R).1 ∧
    (foldl (receive now) (nd, S0) R).2 = S0 ∧
    cheap_relay_taken now R (nd, S0) = false.
Proof.
  induction R as [|msg R IH]; intros nd S0 Ha; [done|].
  destruct (receive_awake now nd S0 msg Ha) as (Ha' & HS & Hr).
  cbn [foldl cheap_relay_taken]. simpl. rewrite Hr. simpl.
  destruct (receive now (nd, S0) msg) as [nd' S'] eqn:E. simpl in *. subst S'.
  apply IH, Ha'.
Qed.

Lemma awake_next (g : Graph) : Awake g → Awake (next g).
Proof.
  intros HA i. rewrite next_length. intros Hi.
  rewrite next_node by done. rewrite stepped_eq. simpl.
  destruct (awake_not_relay _ (HA i Hi)) as [_ Hs].
  rewrite activate_awake by done.
  apply (receive_loop_awake (now g) (inbox g i) (node g i) []), HA, Hi.
Qed.

Lemma awake_round0 (ids : list Z) (g : Graph) : fresh ids g → Awake (next g).
Proof.
  intros Hf i. rewrite next_length. pose proof Hf as [Hlen _].
  rewrite Hlen. intros Hi. rewrite (next_fresh_node ids) by done.
  split; [by left|by eexists].
Qed.

Lemma awake_iter (ids : list Z) (g : Graph) (n : nat) :
  fresh ids g → Awake (Nat.iter (S n) next g).
Proof.
  intros Hf. induction n as [|n IH]; [by apply (awake_round0 ids)|].
  by apply awake_next.
Qed.

(** C10.  In round 0 every queue is empty and every node wakes up
    spontaneously: after it, each node is [participating] with [min] its own
    identifier.  Hence in every state the election goes through, no node is
    a [relay], no [min] is infinite, and the loop over the received messages
    never takes the branch that relays a first-phase message. *)
Theorem no_relay_ever
    (ids : list Z) (cap : Z) (init : option Z) (g0 g : Graph) (n : nat) :
  build_ring ids = Ok g0 → rounds n (prepare g0 cap init) = Ok g →
  (n = 0%nat →
   (∀ i, inbox g i = []) ∧
   ∃ g1, rounds 1 g = Ok g1 ∧
         ∀ i nd, heap g1 !! i = Some nd →
                 Node.status nd = participating ∧
                 Node.min nd = MinNum (Node.id nd) ∧
                 ids !! i = Some (Node.id nd)) ∧
  (∀ i nd, heap g !! i = Some nd →
           Node.status nd ≠ relay ∧ Node.min nd ≠ MinInf) ∧
  (∀ i, cheap_relay_taken (now g) (inbox g i)
                          (activate (inbox g i) (node g i)) = false).
Proof.
  rewrite build_ring_eq. intros [= <-]. intros ->%rounds_prepare.
  set (g1 := prepare (ring0 ids) cap init).
  assert (fresh ids g1) as Hf by apply fresh_prepare, fresh_ring0.
  assert (wf_ring g1) as Hwf by apply wf_prepare, wf_ring0.
  pose proof Hf as (Hlen & Hnode & Hin).
  split; [|destruct n as [|n]].
  - intros ->. split; [exact Hin|]. exists (next g1).
    split; [apply (rounds_next 1 g1 Hwf); intros [|j] Hj;
            [by apply (fresh_safe ids)|lia]|].
    intros i nd Hi. pose proof (lookup_lt_Some _ _ _ Hi) as Hlt.
    rewrite next_length, Hlen in Hlt.
    apply list_lookup_total_correct in Hi. fold (node (next g1) i) in Hi.
    rewrite (next_fresh_node ids) in Hi by done. subst nd. simpl.
    split; [done|]. split; [done|]. by apply list_lookup_lookup_total_lt.
  - change (Nat.iter 0 next g1) with g1. split.
    + intros i nd Hi. pose proof (lookup_lt_Some _ _ _ Hi) as Hlt.
      rewrite Hlen in Hlt.
      apply list_lookup_total_correct in Hi. fold (node g1 i) in Hi.
      rewrite Hnode in Hi by done. by subst nd.
    + intros i. by rewrite Hin.
  - pose proof (awake_iter ids g1 n Hf) as HA.
    set (g := Nat.iter (S n) next g1) in *. split.
    + intros i nd Hi. pose proof (lookup_lt_Some _ _ _ Hi) as Hlt.
      apply list_lookup_total_correct in Hi. fold (node g i) in Hi.
      destruct (HA i Hlt) as [Hs [v Hv]]. rewrite Hi in Hs, Hv.
      split; [|by rewrite Hv].
      destruct Hs as [E|[E|E]]; rewrite E; done.
    + intros i. destruct (decide (i < length (heap g))%nat) as [Hi|Hi].
      * destruct (awake_not_relay _ (HA i Hi)) as [_ Hs].
        rewrite activate_awake by done.
        by apply receive_loop_awake, HA.
      * assert (inbox g i = []) as ->; [|done].
        unfold g. change (Nat.iter (S n) next g1) with (next (Nat.iter n next g1)).
        apply next_inbox_ge. unfold g in Hi. rewrite length_iter_next in Hi.
        rewrite length_iter_next. lia.
Qed.

Lemma no_relay_ever_witness :
  ∃ g0 g,
    build_ring [3; 1; 4; 2] = Ok g0 ∧
    rounds 3 (prepare g0 100 (Some 4)) = Ok g ∧
    statuses g = [not_elected; participating; not_elected; participating] ∧
    (∀ i nd, heap g !! i = Some nd →
             Node.status nd ≠ relay ∧ Node.min nd ≠ MinInf).
Proof.
  eexists _, _. split; [reflexivity|]. split; [vm_compute; reflexivity|].
  split; [reflexivity|].
  eapply (no_relay_ever [3; 1; 4; 2] 100 (Some 4) _ _ 3);
    [reflexivity|vm_compute; reflexivity].
Defined.

(** ** [min] never increases *)

(** The order on the values of [min]: numbers by [<], every number below
    [float('inf')]. *)
Definition min_lt (a b : MinVal) : Prop :=
  match a, b with
  | MinNum x, MinNum y => x < y
  | MinNum _, MinInf => True
  | _, _ => False
  end.

Definition min_le (a b : MinVal) : Prop := a = b ∨ min_lt a b.

Lemma min_le_trans (a b c : MinVal) : min_le a b → min_le b c → min_le a c.
Proof.
  intros [->|Hab] [->|Hbc]; [by left|by right|by right|right].
  destruct a, b, c; simpl in *; try done. lia.
Qed.

(** One message: [min] is left alone or replaced by a strictly smaller
    value. *)
Lemma receive_min (now : Z) (nd : Node.t) (S0 : list Msg) (msg : Msg) :
  Node.min nd ≠ MinNone →
  Node.min (receive now (nd, S0) msg).1 = Node.min nd ∨
  min_lt (Node.min (receive now (nd, S0) msg).1) (Node.min nd).
Proof.
  intros Hset. destruct msg as [m h]. unfold receive.
  destruct (accepts m (Node.min nd)) eqn:Hacc.
  - right. destruct (Node.min nd) as [| |v] eqn:Hmin; [done| |].
    + by destruct (bool_decide _ && _).
    + simpl in Hacc. apply Z.ltb_lt in Hacc.
      by destruct (bool_decide _ && _).
  - left. by destruct (m =? Node.id nd).
Qed.

Lemma receive_loop_min (now : Z) (R : list Msg) :
  ∀ nd S0,
    Node.min nd ≠ MinNone →
    min_le (Node.min (foldl (receive now) (nd, S0) R).1) (Node.min nd).
Proof.
  induction R as [|msg R IH]; intros nd S0 Hset; [by left|].
  cbn [foldl]. pose proof (receive_min now nd S0 msg Hset) as Hstep.
  destruct (receive now (nd, S0) msg) as [nd' S'] eqn:E. simpl in Hstep.
  assert (Node.min nd' ≠ MinNone) as Hset'.
  { destruct Hstep as [->|Hlt]; [done|]. by destruct (Node.min nd'). }
  eapply min_le_trans; [apply (IH nd' S' Hset')|exact Hstep].
Qed.

(** C7.  Once [min] has been set, every later assignment to it replaces it
    with a strictly smaller value, and so its value after a round is never
    larger than before the round. *)
Theorem min_never_increases
    (ids : list Z) (cap : Z) (init : option Z) (g0 g g' : Graph) (n : nat)
    (activity : bool) :
  build_ring ids = Ok g0 → rounds n (prepare g0 cap init) = Ok g →
  process_round g = Ok (g', activity) →
  (∀ i nd nd', heap g !! i = Some nd → heap g' !! i = Some nd' →
               Node.min nd ≠ MinNone → min_le (Node.min nd') (Node.min nd)) ∧
  (∀ now nd S0 msg,
      Node.min nd ≠ MinNone →
      Node.min (receive now (nd, S0) msg).1 = Node.min nd ∨
      min_lt (Node.min (receive now (nd, S0) msg).1) (Node.min nd)).
Proof.
  rewrite build_ring_eq. intros [= <-]. intros ->%rounds_prepare.
  set (g1 := prepare (ring0 ids) cap init).
  assert (fresh ids g1) as Hf by apply fresh_prepare, fresh_ring0.
  assert (wf_ring g1) as Hwf by apply wf_prepare, wf_ring0.
  pose proof (wf_iter_next n g1 Hwf) as Hwfn.
  intros Hpr. apply process_round_ok in Hpr as (-> & _ & Hsafe); [|done].
  split; [|apply receive_min].
  intros i nd nd' Hi Hi' Hset.
  pose proof (lookup_lt_Some _ _ _ Hi) as Hlt.
  apply list_lookup_total_correct in Hi, Hi'.
  change (node (Nat.iter n next g1) i = nd) in Hi.
  change (node (next (Nat.iter n next g1)) i = nd') in Hi'.
  rewrite next_node in Hi' by done. rewrite stepped_eq in Hi'.
  subst nd nd'. simpl.
  destruct n as [|n].
  - exfalso. apply Hset. destruct Hf as (Hlen & Hnode & _).
    change (Nat.iter 0 next g1) with g1 in *.
    rewrite Hnode by (by rewrite <- Hlen). done.
  - destruct (awake_not_relay _ (awake_iter ids g1 n Hf i Hlt)) as [_ Hs].
    rewrite activate_awake by done. by apply receive_loop_min.
Qed.

Lemma min_never_increases_witness :
  ∃ g0 g g',
    build_ring [3; 1; 4; 2] = Ok g0 ∧
    rounds 1 (prepare g0 100 (Some 4)) = Ok g ∧
    process_round g = Ok (g', true) ∧
    mins g = [MinNum 3; MinNum 1; MinNum 4; MinNum 2] ∧
    mins g' = [MinNum 1; MinNum 1; MinNum 2; MinNum 2] ∧
    (∀ i nd nd', heap g !! i = Some nd → heap g' !! i = Some nd' →
                 Node.min nd ≠ MinNone → min_le (Node.min nd') (Node.min nd)).
Proof.
  eexists _, _, _. split; [reflexivity|]. split; [vm_compute; reflexivity|].
  split; [vm_compute; reflexivity|]. split; [reflexivity|].
  split; [reflexivity|].
  eapply (min_never_increases [3; 1; 4; 2] 100 (Some 4) _ _ _ 1 true);
    [reflexivity|vm_compute; reflexivity|vm_compute; reflexivity].
Defined.

(** ** Release of the waiting entries *)

(** The number of rounds an entry for [m] is held: the least integer that is
    at least [2^m - 1], the power being the real one when [m] is negative. *)
Definition hold (m : Z) : Z := if 0 <=? m then 2 ^ m - 1 else 0.

Lemma hold_nonneg (m : Z) : 0 ≤ hold m.
Proof.
  unfold hold. destruct (Z.leb_spec 0 m); [|lia].
  pose proof (Z.pow_pos_nonneg 2 m). lia.
Qed.

Lemma due_hold (now t m : Z) :
  t ≤ now → overdue now t m = (hold m <=? now - t).
Proof.
  intros Ht. unfold overdue, hold. destruct (0 <=? m); [done|].
  destruct (-53 <=? m); [done|].
  rewrite (proj2 (Z.leb_le 0 (now - t))) by lia. apply Z.leb_le. lia.
Qed.

Lemma activate_waiting (R : list Msg) (nd : Node.t) :
  Node.waiting (activate R nd).1 = Node.waiting nd.
Proof. unfold activate. destruct (decide _); [destruct R|]; done. Qed.

Lemma rcv_keeps_waiting (g : Graph) (i : nat) (e : WaitEntry) :
  e ∈ Node.waiting (node g i) → e ∈ Node.waiting (rcv g i).1.
Proof.
  intros Hin. unfold rcv.
  destruct (activate (inbox g i) (node g i)) as [nd1 S1] eqn:Ea.
  destruct (receive_loop_waiting (now g) (inbox g i) nd1 S1) as [extra ->].
  apply elem_of_app. left.
  replace nd1 with (activate (inbox g i) (node g i)).1 by (by rewrite Ea).
  by rewrite activate_waiting.
Qed.

(** One round, at one node: the entries that are due go to [S], the others
    stay, in order. *)
Lemma release_one_round (now : Z) (R : list Msg) (nd : Node.t) :
  let W := Node.waiting (foldl (receive now) (activate R nd) R).1 in
  Node.waiting (node_step now R nd).1 = filter (λ e, ¬ entry_due now e) W ∧
  (node_step now R nd).2
  = (foldl (receive now) (activate R nd) R).2
    ++ (entry_msg <$> filter (λ e, entry_due now e) W).
Proof. intros W. by rewrite node_step_eq. Qed.

Lemma entry_released (g : Graph) (i : nat) (m h t : Z) :
  (i < length (heap g))%nat → t ≤ now g →
  (m, h, t) ∈ Node.waiting (rcv g i).1 → hold m ≤ now g - t →
  (m, h) ∈ inbox (next g) (ring_left (length (heap g)) i) ∧
  (m, h, t) ∉ Node.waiting (node (next g) i).
Proof.
  intros Hi Ht Hin Hdue.
  assert (entry_due (now g) (m, h, t) = true) as Hd.
  { unfold entry_due. simpl. rewrite due_hold by done. by apply Z.leb_le. }
  split.
  - rewrite next_inbox by (apply ring_left_lt; lia).
    rewrite ring_right_left by done. rewrite stepped_eq. simpl.
    apply elem_of_app. right. apply list_elem_of_fmap.
    exists (m, h, t). split; [done|]. apply list_elem_of_filter.
    split; [by rewrite Hd|done].
  - rewrite next_node by done. rewrite stepped_eq. simpl.
    intros [Hnd _]%list_elem_of_filter. rewrite Hd in Hnd. by apply Hnd.
Qed.

Lemma entry_kept (g : Graph) (i : nat) (m h t : Z) :
  (i < length (heap g))%nat → t ≤ now g →
  (m, h, t) ∈ Node.waiting (rcv g i).1 → now g - t < hold m →
  (m, h, t) ∈ Node.waiting (node (next g) i).
Proof.
  intros Hi Ht Hin Hdue.
  assert (entry_due (now g) (m, h, t) = false) as Hd.
  { unfold entry_due. simpl. rewrite due_hold by done. by apply Z.leb_gt. }
  rewrite next_node by done. rewrite stepped_eq. simpl.
  apply list_elem_of_filter. split; [|done]. rewrite Hd. simpl. tauto.
Qed.

(** An entry tagged [t], present after the receive loop of the round [g]
    starts, [j] rounds later. *)
Lemma entry_timeline (g : Graph) (i : nat) (m h t : Z) (j : nat) :
  (i < length (heap g))%nat → t ≤ now g →
  (m, h, t) ∈ Node.waiting (rcv g i).1 →
  now g + Z.of_nat j ≤ t + hold m →
  (now g + Z.of_nat j < t + hold m →
   (m, h, t) ∈ Node.waiting (node (Nat.iter (S j) next g) i)) ∧
  (now g + Z.of_nat j = t + hold m →
   (m, h) ∈ inbox (Nat.iter (S j) next g) (ring_left (length (heap g)) i) ∧
   (m, h, t) ∉ Node.waiting (node (Nat.iter (S j) next g) i)).
Proof.
  revert g. induction j as [|j IH]; intros g Hi Ht Hin Hj.
  - change (Nat.iter 1 next g) with (next g). split; intros Hlt.
    + apply entry_kept; [done|done|done|lia].
    + apply entry_released; [done|done|done|lia].
  - change (Nat.iter (S (S j)) next g) with (next (Nat.iter (S j) next g)).
    rewrite <- iter_next_shift.
    assert ((m, h, t) ∈ Node.waiting (rcv (next g) i).1) as Hin'.
    { apply rcv_keeps_waiting, entry_kept; [done|done|done|lia]. }
    destruct (IH (next g)) as [IH1 IH2].
    + by rewrite next_length.
    + rewrite next_now. lia.
    + done.
    + rewrite next_now. lia.
    + rewrite next_now, next_length in *. split; intros H.
      * apply IH1. lia.
      * apply IH2. lia.
Qed.

(** An identifier below the range of Python's floats. *)
Definition huge_negative : Z := - 2 ^ 1024.

(** C3 (fails on the code).  Line 97 computes [2**m] as a float when [m] is
    negative, and Python raises [OverflowError] when [m] is
    [-(2^1024 - 2^970)] or less.  On the ring [-(2^1024), 5], in round 1
    node 1 receives [(-(2^1024), 1)], accepts it and enqueues the entry
    [(-(2^1024), 2, 1)]; that round is the first round [r] with
    [r - 1 >= 2^m - 1], so the entry is to be moved to [S] there, but the
    test of line 97 raises [OverflowError] instead, and so do the round and
    the election. *)
Theorem release_overflows_below_the_float_range :
  ∃ g1,
    rounds 1 (prepare (ring0 [huge_negative; 5]) 100 None) = Ok g1 ∧
    now g1 = 1 ∧
    inbox g1 1 = [(huge_negative, 1)] ∧
    held (now g1) (inbox g1 1) (node g1 1) = [(huge_negative, 2, 1)] ∧
    due 1 1 huge_negative = Raise OverflowError ∧
    node_round (now g1) (inbox g1 1) (node g1 1) = Raise OverflowError ∧
    process_round g1 = Raise OverflowError ∧
    election [huge_negative; 5] 100 None = Raise OverflowError.
Proof.
  eexists. split; [vm_compute; reflexivity|].
  repeat split; vm_compute; reflexivity.
Qed.

(** X18.  The release of the waiting entries, for identifiers above
    [-(2^1024 - 2^970)], the ones whose power Python can compute.  If every
    entry a node holds has such an identifier, its turn raises nothing: the
    entries that are due are moved to [S] and the others are kept as they
    are.  The test of an entry [(m, h, t)] succeeds exactly when
    [now - t >= hold m].  An entry enqueued in round [t] stays in [waiting]
    through every round [t + j] with [j < hold m], and in round
    [t + hold m], the first round [r] with [r - t >= 2^m - 1], it is sent to
    the left neighbour and removed. *)
Theorem waiting_release_timing
    (ids : list Z) (cap : Z) (init : option Z) (g0 g : Graph) (n : nat) :
  build_ring ids = Ok g0 → rounds n (prepare g0 cap init) = Ok g →
  (∀ i, let W := Node.waiting (rcv g i).1 in
        (∀ e, e ∈ W → - float_limit < e.1.1) →
        ∃ out,
          node_round (now g) (inbox g i) (node g i) = Ok out ∧
          Node.waiting out.1 = filter (λ e, ¬ entry_due (now g) e) W ∧
          out.2 = (rcv g i).2
                  ++ (entry_msg <$> filter (λ e, entry_due (now g) e) W)) ∧
  (∀ now m t, - float_limit < m → t ≤ now →
              due now t m = Ok (bool_decide (hold m ≤ now - t))) ∧
  (∀ i m h j gj,
      (i < length ids)%nat →
      (m, h, now g) ∈ Node.waiting (rcv g i).1 →
      rounds (S j) g = Ok gj →
      (Z.of_nat j < hold m → (m, h, now g) ∈ Node.waiting (node gj i)) ∧
      (Z.of_nat j = hold m →
       (m, h) ∈ inbox gj (ring_left (length ids) i) ∧
       (m, h, now g) ∉ Node.waiting (node gj i))).
Proof.
  rewrite build_ring_eq. intros [= <-]. intros ->%rounds_prepare.
  set (g1 := prepare (ring0 ids) cap init).
  assert (wf_ring g1) as Hwf by apply wf_prepare, wf_ring0.
  pose proof (wf_iter_next n g1 Hwf) as Hwfn.
  set (g := Nat.iter n next g1) in *.
  assert (length (heap g) = length ids) as Hlen.
  { unfold g. rewrite length_iter_next. apply ring0_length. }
  split; [|split].
  - intros i W Hfit. exists (node_step (now g) (inbox g i) (node g i)).
    destruct (release_one_round (now g) (inbox g i) (node g i)) as [H1 H2].
    split; [|split; [exact H1|exact H2]].
    rewrite node_round_spec.
    assert (safe_node (now g) (inbox g i) (node g i) = true) as ->; [|done].
    apply forallb_forall. intros e He%list_elem_of_In.
    by apply fits_spec, Hfit.
  - intros now m t Hm Ht. rewrite due_spec.
    rewrite (proj2 (fits_spec m) Hm), due_hold by done. f_equal.
    destruct (Z.leb_spec (hold m) (now - t)).
    + by rewrite bool_decide_eq_true_2.
    + rewrite bool_decide_eq_false_2; [done|lia].
  - intros i m h j gj Hi Hin Hr.
    apply rounds_ok in Hr as [-> _]; [|done].
    rewrite <- Hlen in Hi.
    destruct (Z_le_gt_dec (Z.of_nat j) (hold m)) as [Hj|Hj]; [|split; lia].
    destruct (entry_timeline g i m h (now g) j Hi) as [H1 H2];
      [lia|done|lia|].
    rewrite Hlen in H2. split; intros H; [apply H1|apply H2]; lia.
Qed.

Lemma waiting_release_timing_witness :
  ∃ g0 g g2 g3,
    build_ring [3; 1; 4; 2] = Ok g0 ∧
    rounds 1 (prepare g0 100 (Some 4)) = Ok g ∧
    rounds 1 g = Ok g2 ∧ rounds 2 g = Ok g3 ∧
    (1, 2, 1) ∈ Node.waiting (node g2 0) ∧
    (1, 2) ∈ inbox g3 3 ∧ (1, 2, 1) ∉ Node.waiting (node g3 0).
Proof.
  eexists _, _, _, _. split; [reflexivity|]. split; [vm_compute; reflexivity|].
  split; [vm_compute; reflexivity|]. split; [vm_compute; reflexivity|].
  match goal with |- context [inbox ?g3 3] => set (gc := g3) end.
  match goal with |- context [node ?g2 0] =>
    match g2 with gc => fail 1 | _ => set (gb := g2) end end.
  pose proof (waiting_release_timing [3; 1; 4; 2] 100 (Some 4) _ _ 1
                eq_refl ltac:(vm_compute; reflexivity)) as (_ & _ & H).
  assert ((0 < length [3; 1; 4; 2])%nat) as Hi by (simpl; lia).
  split.
  - refine (proj1 (H 0%nat 1 2 0%nat gb Hi _ _) _).
    + vm_compute. left.
    + vm_compute. reflexivity.
    + vm_compute. reflexivity.
  - refine (proj2 (H 0%nat 1 2 1%nat gc Hi _ _) _).
    + vm_compute. left.
    + vm_compute. reflexivity.
    + vm_compute. reflexivity.
Defined.

(** ** Halting of the scheduler *)

(** C5 (fails on the code).  The loop of [round_process] can be left in a
    third way, by the [OverflowError] of line 97.  On the ring
    [-(2^1024), 5] with the cap at 100, round 0 reports activity and leaves
    the clock at 1, below the cap, and round 1 raises [OverflowError]:
    [round_process] ends there, although the last round reported activity
    and the cap is not reached. *)
Theorem scheduler_is_left_by_the_overflow :
  ∃ g,
    process_round (prepare (ring0 [huge_negative; 5]) 100 None) = Ok (g, true) ∧
    now (tick g) = 1 ∧ (now (tick g) <? 100) = true ∧
    process_round (tick g) = Raise OverflowError ∧
    round_process (prepare (ring0 [huge_negative; 5]) 100 None)
    = Raise OverflowError.
Proof.
  eexists. split; [vm_compute; reflexivity|].
  repeat split; vm_compute; reflexivity.
Qed.

Lemma any_active_iff (g : Graph) :
  any_active g = false ↔
  ∀ i, (i < length (heap g))%nat →
       (stepped g i).2 = [] ∧ Node.waiting (stepped g i).1 = [].
Proof.
  split.
  - intros Hq i Hi. by apply active_false, any_active_false.
  - intros Hall. unfold any_active.
    destruct (existsb _ _) eqn:E; [exfalso|done].
    apply existsb_exists in E as (i & Hi & Hact).
    apply list_elem_of_In, elem_of_seq in Hi.
    destruct (Hall i) as [HS HW]; [lia|].
    unfold active in Hact. by rewrite HS, HW in Hact.
Qed.

(** ** The outcome does not depend on the processing order *)

Lemma exists_min (ids : list Z) :
  ids ≠ [] →
  ∃ o, (o < length ids)%nat ∧
       ∀ j, (j < length ids)%nat → ids !!! o ≤ ids !!! j.
Proof.
  induction ids as [|x l IH]; [done|]. intros _.
  destruct l as [|y l'].
  - exists 0%nat. split; [simpl; lia|]. intros j Hj. simpl in Hj.
    replace j with 0%nat by lia. done.
  - destruct IH as (o & Ho & Hmin); [done|].
    destruct (Z.le_gt_cases x ((y :: l') !!! o)) as [Hle|Hgt].
    + exists 0%nat. split; [simpl; lia|]. intros [|j] Hj; [done|].
      change ((x :: y :: l') !!! S j) with ((y :: l') !!! j).
      change ((x :: y :: l') !!! 0%nat) with x.
      specialize (Hmin j). simpl in Hj, Hmin. lia.
    + exists (S o). split; [simpl in *; lia|]. intros [|j] Hj.
      * change ((x :: y :: l') !!! S o) with ((y :: l') !!! o).
        change ((x :: y :: l') !!! 0%nat) with x. lia.
      * change ((x :: y :: l') !!! S o) with ((y :: l') !!! o).
        change ((x :: y :: l') !!! S j) with ((y :: l') !!! j).
        apply Hmin. simpl in *. lia.
Qed.

(** What a round reads of a graph: the clock, the nodes and the queues. *)
Definition same_core (g g' : Graph) : Prop :=
  now g = now g' ∧ heap g = heap g' ∧ messages g = messages g'.

Lemma next_same_core (g g' : Graph) :
  same_core g g' →
  same_core (next g) (next g') ∧ any_active g = any_active g'.
Proof.
  destruct g, g'. unfold same_core. simpl. intros (-> & -> & ->).
  repeat split.
Qed.

Lemma loop_par_same_core (fuel : nat) (cap : Z) :
  ∀ g g' a,
    same_core g g' →
    same_core (loop_par fuel cap g a).1 (loop_par fuel cap g' a).1 ∧
    (loop_par fuel cap g a).2 = (loop_par fuel cap g' a).2.
Proof.
  induction fuel as [|fuel IH]; intros g g' a Hc; [done|].
  cbn [loop_par]. destruct (next_same_core g g' Hc) as [Hn Ha].
  pose proof Hc as (Hnow & _). rewrite <- Hnow, <- Ha.
  destruct (a && (now g <? cap)); [by apply IH|done].
Qed.

Lemma loop_par_nodes (fuel : nat) (cap : Z) :
  ∀ g a, nodes (loop_par fuel cap g a).1 = nodes g.
Proof.
  induction fuel as [|fuel IH]; intros g a; [done|].
  cbn [loop_par]. destruct (a && (now g <? cap)); [|done].
  by rewrite IH.
Qed.

Lemma filter_Permutation_list {A} (p : A → bool) (l1 l2 : list A) :
  l1 ≡ₚ l2 → List.filter p l1 ≡ₚ List.filter p l2.
Proof.
  induction 1 as [|x l1 l2 _ IH|x y l|l1 l2 l3 _ IH1 _ IH2]; simpl.
  - done.
  - destruct (p x); by rewrite IH.
  - destruct (p x), (p y); try done. apply perm_swap.
  - by rewrite IH1.
Qed.

Lemma at_most_one_equal (l1 l2 : list nat) (o : nat) :
  NoDup l1 → (∀ x, x ∈ l1 → x = o) → l1 ≡ₚ l2 → l1 = l2.
Proof.
  intros Hnd Hall Hp. destruct l1 as [|a [|b l]].
  - by apply Permutation_nil_l.
  - by apply Permutation_singleton_l.
  - exfalso. apply NoDup_cons in Hnd as [Hnd _]. apply Hnd.
    rewrite (Hall a) by left. rewrite (Hall b) by (right; left). left.
Qed.

Lemma leaders_only_min (ids : list Z) (cap : Z) (init : option Z) (k : nat) :
  NoDup ids →
  ∃ o, ∀ i, i ∈ leaders_of (Nat.iter k next (prepare (ring0 ids) cap init)) →
            i = o.
Proof.
  intros Hnd. destruct (decide (ids = [])) as [->|Hne].
  - exists 0%nat. intros i [Hi _]%leaders_of_iter. simpl in Hi. lia.
  - destruct (exists_min ids Hne) as (o & Ho & Hmin). exists o.
    intros i [Hi Hlead]%leaders_of_iter.
    assert (fresh ids (prepare (ring0 ids) cap init)) as Hf
        by apply fresh_prepare, fresh_ring0.
    destruct k as [|k].
    + exfalso. destruct Hf as (_ & Hnode & _).
      change (Nat.iter 0 next (prepare (ring0 ids) cap init))
        with (prepare (ring0 ids) cap init) in Hlead.
      by rewrite Hnode in Hlead.
    + destruct (run_live_iter ids Hnd o Ho Hmin _ k Hf) as [HR _].
      by apply (run_leader ids o _ i HR).
Qed.


(** ** Direction of the status changes *)

(** asleep, then participating or relay, then not_elected or elected. *)
Definition rank (s : Status) : nat :=
  match s with
  | asleep => 0
  | participating | relay => 1
  | not_elected | elected => 2
  end.

Definition terminal (s : Status) : Prop := s = not_elected ∨ s = elected.

(** A change of status allowed between two rounds. *)
Definition advances (s s' : Status) : Prop := s' = s ∨ (rank s < rank s')%nat.

Lemma status_step (ids : list Z) (o : nat) (g : Graph) (i : nat) :
  NoDup ids → (o < length ids)%nat →
  (∀ j, (j < length ids)%nat → ids !!! o ≤ ids !!! j) →
  Run ids o g → (i < length ids)%nat →
  advances (Node.status (node g i)) (Node.status (node (next g) i)) ∧
  (terminal (Node.status (node g i)) →
   Node.status (node (next g) i) = Node.status (node g i)).
Proof.
  intros Hnd Ho Hmin HR Hi.
  rewrite (next_node_rcv ids o g HR i Hi). simpl.
  destruct (run_min ids o g HR i Hi) as (v & Hv & Hle).
  pose proof (run_status ids o g HR i v Hi Hv) as Hs.
  destruct (decide (i = o)) as [->|Hne].
  - rewrite (rcv_o ids o Ho Hmin g HR).
    destruct (carries (ids !!! o) (inbox g o)); [simpl|by split; [left|]].
    destruct (Node.status (node g o)); try done.
    + split; [right; simpl; lia|]. by intros [|].
    + lia.
    + split; [by left|done].
  - rewrite (rcv_other ids Hnd o Ho Hmin g HR i v Hi Hne Hv). simpl.
    destruct (decide (low v (inbox g i) < v)); [|by split; [left|]].
    destruct (Node.status (node g i)); try done.
    + split; [right; simpl; lia|]. by intros [|].
    + split; [by left|done].
    + by destruct Hs.
Qed.

(** C6 (as amended).  On a ring of pairwise distinct identifiers, between
    the start of a round and the start of the next one, the status of a node
    either stays the same or moves forward in the order
    asleep < {participating, relay} < {not_elected, elected}; a node that is
    [not_elected] or [elected] keeps its status. *)
Theorem status_only_advances
    (ids : list Z) (cap : Z) (init : option Z) (g0 g g' : Graph) (n : nat)
    (activity : bool) :
  NoDup ids →
  build_ring ids = Ok g0 → rounds n (prepare g0 cap init) = Ok g →
  process_round g = Ok (g', activity) →
  ∀ i nd nd',
    heap g !! i = Some nd → heap g' !! i = Some nd' →
    advances (Node.status nd) (Node.status nd') ∧
    (terminal (Node.status nd) → Node.status nd' = Node.status nd).
Proof.
  intros Hnd. rewrite build_ring_eq. intros [= <-].
  intros ->%rounds_prepare.
  set (g1 := prepare (ring0 ids) cap init).
  assert (fresh ids g1) as Hf by apply fresh_prepare, fresh_ring0.
  assert (wf_ring g1) as Hwf by apply wf_prepare, wf_ring0.
  pose proof (wf_iter_next n g1 Hwf) as Hwfn.
  intros Hpr. apply process_round_ok in Hpr as (-> & _ & Hsafe); [|done].
  intros i nd nd' Hi Hi'.
  pose proof (lookup_lt_Some _ _ _ Hi) as Hlt.
  rewrite length_iter_next in Hlt.
  change (length (heap g1)) with (length (heap (ring0 ids))) in Hlt.
  rewrite ring0_length in Hlt.
  apply list_lookup_total_correct in Hi, Hi'.
  change (node (Nat.iter n next g1) i = nd) in Hi.
  change (node (next (Nat.iter n next g1)) i = nd') in Hi'.
  subst nd nd'.
  destruct n as [|n].
  - change (Nat.iter 0 next g1) with g1.
    rewrite (next_fresh_node ids) by done. destruct Hf as (_ & Hnode & _).
    rewrite Hnode by done. simpl. split; [right; simpl; lia|]. by intros [|].
  - assert (ids ≠ []) as Hne by (intros ->; simpl in Hlt; lia).
    destruct (exists_min ids Hne) as (o & Ho & Hmin).
    destruct (run_live_iter ids Hnd o Ho Hmin g1 n Hf) as [HR _].
    by apply (status_step ids o).
Qed.

Lemma status_only_advances_witness :
  NoDup [3; 1; 4; 2] ∧
  ∃ g0 g g',
    build_ring [3; 1; 4; 2] = Ok g0 ∧
    rounds 3 (prepare g0 100 (Some 4)) = Ok g ∧
    process_round g = Ok (g', true) ∧
    statuses g = [not_elected; participating; not_elected; participating] ∧
    statuses g' = [not_elected; participating; not_elected; not_elected] ∧
    ∀ i nd nd',
      heap g !! i = Some nd → heap g' !! i = Some nd' →
      advances (Node.status nd) (Node.status nd') ∧
      (terminal (Node.status nd) → Node.status nd' = Node.status nd).
Proof.
  assert (NoDup [3; 1; 4; 2]) as Hnd
      by (apply (bool_decide_unpack _); reflexivity).
  split; [exact Hnd|].
  eexists _, _, _. split; [reflexivity|]. split; [vm_compute; reflexivity|].
  split; [vm_compute; reflexivity|]. split; [reflexivity|].
  split; [reflexivity|].
  eapply (status_only_advances [3; 1; 4; 2] 100 (Some 4) _ _ _ 3 true Hnd);
    [reflexivity|vm_compute; reflexivity|vm_compute; reflexivity].
Defined.

(** C6 (as stated) fails: identifiers may repeat.  On the ring [3, 3, 1]
    node 0 is [elected] in round 1, when the identifier 3 of node 1 reaches
    it, and becomes [not_elected] in round 3, when it accepts the
    identifier 1. *)
Lemma elected_node_becomes_not_elected :
  ∃ g0 g g',
    build_ring [3; 3; 1] = Ok g0 ∧
    rounds 3 (prepare g0 100 None) = Ok g ∧
    process_round g = Ok (g', true) ∧
    statuses g = [elected; not_elected; participating] ∧
    statuses g' = [not_elected; not_elected; participating] ∧
    ¬ (∀ i nd nd',
         heap g !! i = Some nd → heap g' !! i = Some nd' →
         advances (Node.status nd) (Node.status nd') ∧
         (terminal (Node.status nd) → Node.status nd' = Node.status nd)).
Proof.
  eexists _, _, _. split; [reflexivity|]. split; [vm_compute; reflexivity|].
  split; [vm_compute; reflexivity|]. split; [reflexivity|].
  split; [reflexivity|].
  intros H.
  match type of H with
  | ∀ i nd nd', heap ?g !! i = _ → heap ?g' !! i = _ → _ =>
      destruct (H 0%nat (node g 0) (node g' 0)) as [_ Ht];
        [vm_compute; reflexivity|vm_compute; reflexivity|]
  end.
  specialize (Ht ltac:(right; vm_compute; reflexivity)).
  vm_compute in Ht. discriminate Ht.
Qed.

(** ** The elected leader *)

Lemma singleton_list (l : list nat) (o : nat) :
  NoDup l → (∀ i, i ∈ l ↔ i = o) → l = [o].
Proof.
  intros Hnd Hall. destruct l as [|a [|b l]].
  - exfalso. by apply (not_elem_of_nil o), Hall.
  - f_equal. apply Hall. left.
  - exfalso. apply NoDup_cons in Hnd as [Hnd _]. apply Hnd.
    rewrite (proj1 (Hall a)) by left.
    rewrite (proj1 (Hall b)) by (right; left). left.
Qed.

(** C1.  On a ring of at least one node with pairwise distinct identifiers,
    whatever their arrangement and whoever the initiator, when
    [run_election] stops because a round reported no activity, exactly one
    node has [is_leader] set, it is the node returned, its status is
    [elected], and its identifier is the smallest of the ring. *)
Theorem converged_election_elects_minimum
    (ids : list Z) (cap : Z) (init : option Z) (g : Graph)
    (leaders : list nat) :
  NoDup ids → ids ≠ [] →
  election ids cap init = Ok (g, leaders, false) →
  ∃ o nd,
    leaders = [o] ∧
    heap g !! o = Some nd ∧
    Node.is_leader nd = true ∧ Node.status nd = elected ∧
    ids !! o = Some (Node.id nd) ∧
    (∀ x, x ∈ ids → Node.id nd ≤ x) ∧
    (∀ i nd', heap g !! i = Some nd' → Node.is_leader nd' = true → i = o).
Proof.
  intros Hnd Hne Hrun.
  destruct (exists_min ids Hne) as (o & Ho & Hmin).
  destruct (election_runs ids cap init _ Hrun) as (k & Hk & _ & _).
  rewrite Hk in Hrun. injection Hrun as <- <- Hflag.
  set (g1 := prepare (ring0 ids) cap init) in *.
  assert (fresh ids g1) as Hf by apply fresh_prepare, fresh_ring0.
  destruct k as [|k]; [done|]. simpl in Hflag.
  destruct (run_live_iter ids Hnd o Ho Hmin g1 k Hf) as [HR HL].
  set (g := Nat.iter (S k) next g1) in *.
  assert (length (heap (Nat.iter k next g1)) = length ids) as Hlen
      by (rewrite length_iter_next; apply ring0_length).
  assert (Node.is_leader (node g o) = true) as Hlead
      by (by apply (quiet_round_elects ids o Ho (Nat.iter k next g1))).
  assert (∀ i, (i < length ids)%nat →
               Node.is_leader (node g i) = true → i = o) as Huniq
      by (intros i; apply (run_leader ids o g i HR)).
  assert (length (heap g) = length ids) as Hleng by apply (run_len ids o g HR).
  exists o, (node g o). split; [|split; [|split; [done|split; [|split; [|split]]]]].
  - apply singleton_list; [apply leaders_of_NoDup|].
    intros i. unfold g, g1. rewrite leaders_of_iter. fold g1. fold g. split.
    + intros [Hi Hl]. by apply Huniq.
    + by intros ->.
  - apply list_lookup_lookup_total_lt. by rewrite Hleng.
  - destruct (run_min ids o g HR o Ho) as (v & Hv & _).
    pose proof (run_status ids o g HR o v Ho Hv) as Hs.
    destruct (Node.status (node g o)); try done; destruct Hs; congruence.
  - rewrite (run_id ids o g HR o Ho). by apply list_lookup_lookup_total_lt.
  - intros x [j Hj]%list_elem_of_lookup. rewrite (run_id ids o g HR o Ho).
    pose proof (lookup_lt_Some _ _ _ Hj) as Hlt.
    rewrite <- (list_lookup_total_correct _ _ _ Hj). by apply Hmin.
  - intros i nd' Hi Hl. pose proof (lookup_lt_Some _ _ _ Hi) as Hlt.
    rewrite Hleng in Hlt. apply list_lookup_total_correct in Hi.
    apply Huniq; [done|]. unfold node. by rewrite Hi.
Qed.

Lemma converged_election_elects_minimum_witness :
  NoDup [3; 1; 4; 2] ∧ [3; 1; 4; 2] ≠ [] ∧
  ∃ g,
    election [3; 1; 4; 2] 100 (Some 4) = Ok (g, [1%nat], false) ∧
    statuses g = [not_elected; elected; not_elected; not_elected] ∧
    now g = 8 ∧
    ∃ o nd, [1%nat] = [o] ∧ heap g !! o = Some nd ∧
            Node.is_leader nd = true ∧ Node.id nd = 1.
Proof.
  assert (NoDup [3; 1; 4; 2]) as Hnd
      by (apply (bool_decide_unpack _); reflexivity).
  split; [exact Hnd|]. split; [done|].
  eexists. split; [vm_compute; reflexivity|]. split; [reflexivity|].
  split; [reflexivity|].
  match goal with |- context [heap ?gg] => set (g := gg) end.
  destruct (converged_election_elects_minimum [3; 1; 4; 2] 100 (Some 4) g
              [1%nat] Hnd ltac:(done) ltac:(vm_compute; reflexivity))
    as (o & nd & Ho & Hnd' & Hl & _ & Hid & _).
  exists o, nd. split; [exact Ho|]. split; [exact Hnd'|]. split; [exact Hl|].
  injection Ho as <-. simpl in Hid. by injection Hid as <-.
Defined.

(** * Further properties of the code *)

(** ** The receive loop at any node that is awake *)

(** Whatever the messages, a node that is awake (not a relay, [min] a
    number) ends the loop with the running minimum as [min], the accepted
    messages appended to [waiting], nothing added to [S], and its leader flag
    never cleared. *)
Lemma receive_loop_general (now : Z) (R : list Msg) :
  ∀ nd S0 v,
    Node.min nd = MinNum v → Node.status nd ≠ relay →
    let r := foldl (receive now) (nd, S0) R in
    Node.min r.1 = MinNum (low v R) ∧
    Node.waiting r.1 = Node.waiting nd ++ accepted now v R ∧
    r.2 = S0 ∧
    (Node.is_leader nd = true → Node.is_leader r.1 = true) ∧
    (Node.status r.1 = Node.status nd ∨ Node.status r.1 = not_elected
     ∨ Node.status r.1 = elected) ∧
    (Node.status r.1 = participating → r.1 = nd) ∧
    (Node.status r.1 = not_elected →
     Node.status nd = not_elected ∨ low v R < v) ∧
    (Node.is_leader r.1 = true →
     Node.is_leader nd = true ∨ carries (Node.id nd) R = true).
Proof.
  induction R as [|[m h] R IH]; intros nd S0 v Hmin Hst.
  - simpl. rewrite app_nil_r. repeat split; auto.
  - cbn [foldl]. rewrite (receive_num now nd S0 m h v) by done.
    cbn [low accepted]. unfold carries. cbn [existsb fst].
    destruct (Z.ltb_spec m v) as [Hlt|Hge].
    + destruct (IH (Node.set_waiting (Node.waiting nd ++ [(m, 2, now)])
                      (Node.set_min (MinNum m)
                         (Node.set_status not_elected nd))) S0 m)
        as (H1 & H2 & H3 & H4 & H5 & H6 & H7 & H8); [done|done|].
      cbv zeta in *. simpl in H2, H4, H5, H6, H7, H8.
      pose proof (low_le m R) as Hlow.
      split; [done|]. split; [by rewrite H2, <- app_assoc|].
      split; [done|]. split; [done|].
      split; [destruct H5 as [E|[E|E]]; rewrite E; auto|].
      split; [intros Hp; destruct H5 as [E|[E|E]]; rewrite E in Hp; done|].
      split; [intros _; right; lia|].
      intros Hl. destruct (H8 Hl) as [|Hc]; [by left|right].
      fold (carries (Node.id nd) R). by rewrite Hc, orb_true_r.
    + destruct (m =? Node.id nd) eqn:Eid.
      * destruct (IH (Node.set_is_leader true (Node.set_status elected nd))
                    S0 v) as (H1 & H2 & H3 & H4 & H5 & H6 & H7 & H8);
          [done|done|].
        cbv zeta in *. simpl in H2, H4, H5, H6, H7, H8.
        split; [done|]. split; [done|]. split; [done|].
        split; [auto|].
        split; [destruct H5 as [E|[E|E]]; rewrite E; auto|].
        split; [intros Hp; destruct H5 as [E|[E|E]]; rewrite E in Hp; done|].
        split; [intros Hn; destruct (H7 Hn) as [|]; [done|by right]|].
        intros _. by right.
      * destruct (IH nd S0 v Hmin Hst)
          as (H1 & H2 & H3 & H4 & H5 & H6 & H7 & H8).
        cbv zeta in *. repeat split; auto.
Qed.

(** ** What holds in every state, whatever the identifiers *)

Lemma next_node_waiting (g : Graph) (i : nat) :
  (i < length (heap g))%nat →
  node (next g) i =
    Node.set_waiting
      (filter (λ e, ¬ entry_due (now g) e) (Node.waiting (rcv g i).1))
      (rcv g i).1.
Proof. intros Hi. rewrite next_node by done. by rewrite stepped_eq. Qed.

Lemma next_inbox_released (g : Graph) (k : nat) :
  (k < length (heap g))%nat →
  inbox (next g) k =
    (rcv g (ring_right (length (heap g)) k)).2
    ++ (entry_msg <$>
          filter (λ e, entry_due (now g) e)
                 (Node.waiting (rcv g (ring_right (length (heap g)) k)).1)).
Proof. intros Hk. rewrite next_inbox by done. by rewrite stepped_eq. Qed.

Lemma rcv_awake (g : Graph) (i : nat) :
  awake (node g i) →
  rcv g i = foldl (receive (now g)) (node g i, []) (inbox g i).
Proof.
  intros Ha. unfold rcv. destruct (awake_not_relay _ Ha) as [_ Hs].
  by rewrite activate_awake.
Qed.

Section Generic.
Variable ids : list Z.
Local Abbreviation N := (length ids).

(** The invariant of the states reached after at least one round. *)
Record Gen (g : Graph) : Prop := {
  gen_len : length (heap g) = N;
  gen_now : 1 ≤ now g;
  gen_awake : ∀ i, (i < N)%nat → awake (node g i);
  gen_id : ∀ i, (i < N)%nat → Node.id (node g i) = ids !!! i;
  gen_links : ∀ i, (i < N)%nat →
      Node.left_neighbor (node g i) = Some (ring_left N i) ∧
      Node.right_neighbor (node g i) = Some (ring_right N i);
  gen_min : ∀ i v, (i < N)%nat → Node.min (node g i) = MinNum v →
      v ∈ ids ∧ v ≤ ids !!! i;
  gen_participating : ∀ i, (i < N)%nat →
      Node.status (node g i) = participating →
      Node.min (node g i) = MinNum (ids !!! i) ∧
      Node.waiting (node g i) = [] ∧ Node.is_leader (node g i) = false;
  gen_not_elected : ∀ i v, (i < N)%nat →
      Node.status (node g i) = not_elected →
      Node.min (node g i) = MinNum v → v < ids !!! i;
  gen_inbox : ∀ k m h, (m, h) ∈ inbox g k →
      m ∈ ids ∧ (h = 2 ∨ (h = 1 ∧ now g = 1));
  gen_waiting : ∀ i m h t, (i < N)%nat →
      (m, h, t) ∈ Node.waiting (node g i) →
      m ∈ ids ∧ h = 2 ∧ 1 ≤ t < now g
}.

Lemma gen_round0 (g : Graph) : fresh ids g → now g = 0 → Gen (next g).
Proof.
  intros Hf Hnow. pose proof Hf as (Hlen & Hnode & Hin). split.
  - by rewrite next_length.
  - rewrite next_now. lia.
  - intros i Hi. rewrite (next_fresh_node ids) by done.
    split; [by left|by eexists].
  - intros i Hi. by rewrite (next_fresh_node ids).
  - intros i Hi. by rewrite (next_fresh_node ids).
  - intros i v Hi. rewrite (next_fresh_node ids) by done. simpl.
    intros [= <-]. split; [|lia]. by apply list_elem_of_lookup_total_2.
  - intros i Hi. by rewrite (next_fresh_node ids).
  - intros i v Hi. by rewrite (next_fresh_node ids).
  - intros k m h. destruct (decide (k < N)%nat) as [Hk|Hk].
    + rewrite (next_fresh_inbox ids) by done.
      intros [= -> ->]%list_elem_of_singleton. split.
      * apply list_elem_of_lookup_total_2, ring_right_lt. lia.
      * right. rewrite next_now. split; [done|lia].
    + rewrite next_inbox_ge by lia. by intros ?%elem_of_nil.
  - intros i m h t Hi. rewrite (next_fresh_node ids) by done. simpl.
    by intros ?%elem_of_nil.
Qed.

Lemma gen_next (g : Graph) : Gen g → Gen (next g).
Proof.
  intros HG. pose proof (gen_len g HG) as Hlen.
  assert (∀ i, (i < N)%nat →
     ∃ v, Node.min (node g i) = MinNum v ∧
          let r := rcv g i in
          Node.min r.1 = MinNum (low v (inbox g i)) ∧
          Node.waiting r.1
          = Node.waiting (node g i) ++ accepted (now g) v (inbox g i) ∧
          r.2 = [] ∧
          (Node.status r.1 = Node.status (node g i)
           ∨ Node.status r.1 = not_elected ∨ Node.status r.1 = elected) ∧
          (Node.status r.1 = participating → r.1 = node g i) ∧
          (Node.status r.1 = not_elected →
           Node.status (node g i) = not_elected ∨ low v (inbox g i) < v) ∧
          same_frame (node g i) r.1) as Hrcv.
  { intros i Hi. pose proof (gen_awake g HG i Hi) as Ha.
    pose proof Ha as [_ [v Hv]]. exists v. split; [done|].
    destruct (awake_not_relay _ Ha) as [Hr _].
    rewrite (rcv_awake g i Ha). cbv zeta.
    destruct (receive_loop_general (now g) (inbox g i) (node g i) [] v Hv Hr)
      as (H1 & H2 & H3 & _ & H5 & H6 & H7 & _).
    repeat split; try done. apply receive_loop_frame.
    all: apply receive_loop_frame. }
  assert (∀ i v, (i < N)%nat → Node.min (node g i) = MinNum v →
                 low v (inbox g i) ∈ ids ∧ low v (inbox g i) ≤ ids !!! i)
    as Hlow.
  { intros i v Hi Hv. destruct (gen_min g HG i v Hi Hv) as [Hin Hle].
    pose proof (low_le v (inbox g i)). split; [|lia].
    destruct (low_origin v (inbox g i)) as [->|[h Hh]]; [done|].
    by destruct (gen_inbox g HG i _ h Hh). }
  split.
  - by rewrite next_length.
  - rewrite next_now. pose proof (gen_now g HG). lia.
  - intros i Hi. rewrite next_node_waiting by (by rewrite Hlen).
    destruct (Hrcv i Hi) as (v & Hv & H1 & H2 & H3 & H5 & H6 & H7 & HF).
    destruct (gen_awake g HG i Hi) as [Hs _].
    split; simpl; [|by eexists].
    destruct H5 as [E|[E|E]]; rewrite E; auto.
  - intros i Hi. rewrite next_node_waiting by (by rewrite Hlen). simpl.
    destruct (Hrcv i Hi) as (v & _ & _ & _ & _ & _ & _ & _ & (E & _)).
    rewrite E. by apply (gen_id g HG).
  - intros i Hi. rewrite next_node_waiting by (by rewrite Hlen). simpl.
    destruct (Hrcv i Hi) as (v & _ & _ & _ & _ & _ & _ & _ & (_ & El & Er)).
    rewrite El, Er. by apply (gen_links g HG).
  - intros i v' Hi. rewrite next_node_waiting by (by rewrite Hlen). simpl.
    destruct (Hrcv i Hi) as (v & Hv & H1 & _). rewrite H1. intros [= <-].
    by apply Hlow.
  - intros i Hi. rewrite next_node_waiting by (by rewrite Hlen). simpl.
    destruct (Hrcv i Hi) as (v & Hv & H1 & H2 & H3 & H5 & H6 & H7 & HF).
    intros Hp. pose proof (H6 Hp) as E. rewrite E in Hp |- *.
    destruct (gen_participating g HG i Hi Hp) as (Hm & Hw & Hl).
    split; [done|]. split; [|done]. by rewrite Hw.
  - intros i v' Hi. rewrite next_node_waiting by (by rewrite Hlen). simpl.
    destruct (Hrcv i Hi) as (v & Hv & H1 & H2 & H3 & H5 & H6 & H7 & HF).
    rewrite H1. intros Hn [= <-].
    destruct (gen_min g HG i v Hi Hv) as [_ Hle].
    pose proof (low_le v (inbox g i)).
    destruct (H7 Hn) as [Hold|Hlt]; [|lia].
    pose proof (gen_not_elected g HG i v Hi Hold Hv). lia.
  - intros k m h. destruct (decide (k < N)%nat) as [Hk|Hk].
    2:{ rewrite next_inbox_ge by lia. by intros ?%elem_of_nil. }
    rewrite next_inbox_released by (by rewrite Hlen). rewrite Hlen.
    assert (ring_right N k < N)%nat as Hr by (apply ring_right_lt; lia).
    destruct (Hrcv _ Hr) as (v & Hv & H1 & H2 & H3 & _).
    rewrite H3, H2. simpl.
    intros ([[m' h'] t] & [= -> ->] & [_ Hin]%list_elem_of_filter)%list_elem_of_fmap.
    apply elem_of_app in Hin as [Hin|Hin].
    + destruct (gen_waiting g HG _ _ _ _ Hr Hin) as (? & ? & _). auto.
    + apply accepted_elem in Hin as (m & h & [= -> -> ->] & Hin & _).
      destruct (gen_inbox g HG _ _ _ Hin). auto.
  - intros i m h t Hi. rewrite next_node_waiting by (by rewrite Hlen). simpl.
    destruct (Hrcv i Hi) as (v & Hv & H1 & H2 & _). rewrite H2.
    intros [_ Hin]%list_elem_of_filter. rewrite ?next_now.
    pose proof (gen_now g HG).
    apply elem_of_app in Hin as [Hin|Hin].
    + destruct (gen_waiting g HG _ _ _ _ Hi Hin) as (? & ? & ?).
      split; [done|]. split; [done|lia].
    + apply accepted_elem in Hin as (m' & h' & [= -> -> ->] & Hin & _).
      destruct (gen_inbox g HG _ _ _ Hin). split; [done|]. split; [done|lia].
Qed.

Lemma gen_iter (g : Graph) (n : nat) :
  fresh ids g → now g = 0 → Gen (Nat.iter (S n) next g).
Proof.
  intros Hf Hnow. induction n as [|n IH]; [by apply gen_round0|].
  by apply gen_next.
Qed.

End Generic.

(** The states an election goes through: the fresh ring, then states that
    satisfy the invariant. *)
Lemma reached_cases (ids : list Z) (cap : Z) (init : option Z) (n : nat) :
  let g := Nat.iter n next (prepare (ring0 ids) cap init) in
  now g = Z.of_nat n ∧ wf_ring g ∧
  ((n = 0%nat ∧ fresh ids g) ∨ ((0 < n)%nat ∧ Gen ids g)).
Proof.
  intros g. set (g1 := prepare (ring0 ids) cap init) in *.
  assert (fresh ids g1) as Hf by apply fresh_prepare, fresh_ring0.
  assert (wf_ring g1) as Hwf by apply wf_prepare, wf_ring0.
  split; [unfold g; rewrite now_iter; simpl; lia|].
  split; [apply (wf_iter_next n g1 Hwf)|].
  destruct n as [|n]; [by left|right]. split; [lia|].
  by apply gen_iter.
Qed.

Lemma reached_inv (ids : list Z) (cap : Z) (init : option Z) (g0 g : Graph)
    (n : nat) :
  build_ring ids = Ok g0 → rounds n (prepare g0 cap init) = Ok g →
  g = Nat.iter n next (prepare (ring0 ids) cap init).
Proof.
  rewrite build_ring_eq. intros [= <-]. by intros ->%rounds_prepare.
Qed.

(** *** Rings on which the release test never overflows *)

(** The identifiers whose power Python can compute. *)
Definition safe_ids (ids : list Z) : Prop := ∀ x, x ∈ ids → - float_limit < x.

(** Every entry a node holds carries an identifier of the ring. *)
Lemma gen_held (ids : list Z) (g : Graph) (i : nat) (e : WaitEntry) :
  Gen ids g → (i < length ids)%nat →
  e ∈ held (now g) (inbox g i) (node g i) → e.1.1 ∈ ids.
Proof.
  intros HG Hi He. pose proof (gen_awake ids g HG i Hi) as Ha.
  pose proof Ha as [_ [v Hv]]. destruct (awake_not_relay _ Ha) as [Hr Hs].
  unfold held in He. rewrite activate_awake in He by done.
  destruct (receive_loop_general (now g) (inbox g i) (node g i) [] v Hv Hr)
    as (_ & H2 & _).
  cbv zeta in H2. rewrite H2 in He. destruct e as [[m h] t].
  apply elem_of_app in He as [He|He].
  - by destruct (gen_waiting ids g HG i m h t Hi He).
  - apply accepted_elem in He as (m' & h' & [= -> -> ->] & Hin & _).
    by destruct (gen_inbox ids g HG i m' h' Hin).
Qed.

Lemma gen_safe (ids : list Z) (g : Graph) :
  Gen ids g → safe_ids ids → all_safe g = true.
Proof.
  intros HG Hs. apply all_safe_intro. intros i e Hi He.
  rewrite (gen_len ids g HG) in Hi.
  by apply fits_spec, Hs, (gen_held ids g i).
Qed.

Lemma safe_ids_always (ids : list Z) (cap : Z) (init : option Z) :
  safe_ids ids → always_safe (prepare (ring0 ids) cap init).
Proof.
  intros Hs [|j].
  - apply (fresh_safe ids), fresh_prepare, fresh_ring0.
  - apply (gen_safe ids); [|done].
    apply gen_iter; [apply fresh_prepare, fresh_ring0|done].
Qed.

(** On such a ring the rounds raise nothing. *)
Lemma rounds_prepare_safe (ids : list Z) (cap : Z) (init : option Z)
    (n : nat) :
  safe_ids ids →
  rounds n (prepare (ring0 ids) cap init)
  = Ok (Nat.iter n next (prepare (ring0 ids) cap init)).
Proof.
  intros Hs. apply rounds_next; [apply wf_prepare, wf_ring0|].
  by apply always_safe_run, safe_ids_always.
Qed.

(** Either every identifier is in the range of Python's floats, or one is
    not. *)
Lemma safe_ids_dec (ids : list Z) :
  safe_ids ids ∨ ∃ x, x ∈ ids ∧ x ≤ - float_limit.
Proof.
  destruct (decide (Forall (λ x, - float_limit < x) ids)) as [H|H].
  - left. intros x Hx. by apply (proj1 (Forall_forall _ _) H).
  - right. apply not_Forall_Exists in H; [|apply _].
    apply Exists_exists in H as (x & Hx & Hn). exists x. simpl in Hn.
    split; [done|lia].
Qed.

(** The loop raises nothing but the [OverflowError] of line 97. *)
Lemma round_loop_raise (fuel : nat) (cap : Z) (g : Graph) (activity : bool)
    (e : exn) :
  wf_ring g → round_loop fuel cap g activity = Raise e → e = OverflowError.
Proof.
  revert g activity. induction fuel as [|fuel IH]; intros g act Hwf; [done|].
  cbn [round_loop]. destruct (act && (now g <? cap)); [|done].
  rewrite process_round_spec by done. destruct (all_safe g); [|by intros [= <-]].
  simpl. change (tick (par_round g)) with (next g).
  apply IH. by apply wf_next.
Qed.

Lemma election_raise (ids : list Z) (cap : Z) (init : option Z) (e : exn) :
  election ids cap init = Raise e →
  e = OverflowError ∧ ∃ x, x ∈ ids ∧ x ≤ - float_limit.
Proof.
  intros Hr. split.
  - revert Hr. unfold election. rewrite build_ring_eq. simpl.
    unfold run_election, round_process. simpl.
    destruct (round_loop _ _ _ _) as [[g2 a]|e'] eqn:E; [done|].
    apply round_loop_raise in E; [|apply wf_prepare, wf_ring0].
    simpl. by intros [= <-].
  - destruct (safe_ids_dec ids) as [Hs|Hx]; [exfalso|done].
    destruct (election_runs_safe ids cap init
                (safe_ids_always ids cap init Hs)) as (k & Hk & _).
    congruence.
Qed.

Lemma same_core_safe (g g' : Graph) :
  same_core g g' → all_safe g = all_safe g'.
Proof.
  destruct g, g'. unfold same_core. simpl. by intros (-> & -> & ->).
Qed.

(** Two loops started on graphs that differ in the order of [self.nodes]
    only both raise, or both return. *)
Lemma round_loop_same_core (fuel : nat) (cap : Z) :
  ∀ g g' a,
    wf_ring g → wf_ring g' → same_core g g' →
    match round_loop fuel cap g a with
    | Ok r => round_loop fuel cap g' a = Ok (loop_par fuel cap g' a)
    | Raise e => round_loop fuel cap g' a = Raise e
    end.
Proof.
  induction fuel as [|fuel IH]; intros g g' a Hwf Hwf' Hc; [done|].
  cbn [round_loop loop_par].
  destruct (next_same_core g g' Hc) as [Hn Ha].
  pose proof Hc as (Hnow & _). rewrite <- Hnow.
  destruct (a && (now g <? cap)); [|done].
  rewrite !process_round_spec by done.
  rewrite <- (same_core_safe g g' Hc).
  destruct (all_safe g); [|done]. simpl.
  change (tick (par_round g)) with (next g).
  change (tick (par_round g')) with (next g').
  rewrite <- Ha. apply IH; [by apply wf_next|by apply wf_next|done].
Qed.

(** ** The initiator *)

(** X19.  The initiator does not matter.  Two elections over the same
    identifiers that differ only in the initiator either both raise the
    [OverflowError] of line 97, which takes an identifier of
    [-(2^1024 - 2^970)] or less, or both return: then they have gone through
    the same rounds and end with the same activity flag, the same clock, the
    same nodes (status, [min], waiting list and leader flag of each) and the
    same queues, and they return the same leaders, in an order that may
    differ; when the identifiers are distinct the two lists of leaders are
    equal. *)
Theorem initiator_does_not_matter
    (ids : list Z) (cap : Z) (init1 init2 : option Z) :
  match election ids cap init1, election ids cap init2 with
  | Ok (g1, l1, a1), Ok (g2, l2, a2) =>
      a1 = a2 ∧
      now g1 = now g2 ∧ heap g1 = heap g2 ∧ messages g1 = messages g2 ∧
      statuses g1 = statuses g2 ∧
      l1 ≡ₚ l2 ∧
      (NoDup ids → l1 = l2)
  | Raise e1, Raise e2 =>
      e1 = OverflowError ∧ e2 = OverflowError ∧
      ∃ x, x ∈ ids ∧ x ≤ - float_limit
  | _, _ => False
  end.
Proof.
  set (p1 := prepare (ring0 ids) cap init1).
  set (p2 := prepare (ring0 ids) cap init2).
  set (fuel := Z.to_nat (cap - 0)).
  assert (wf_ring p1 ∧ wf_ring p2) as [Hwf1 Hwf2]
      by (split; apply wf_prepare, wf_ring0).
  assert (same_core p1 p2) as Hc by done.
  pose proof (round_loop_same_core fuel cap p1 p2 true Hwf1 Hwf2 Hc) as Hsame.
  assert (∀ init, election ids cap init
                  = '(g2, activity) ← round_loop fuel cap
                                        (prepare (ring0 ids) cap init) true;
                    Ok (g2, leaders_of g2, activity)) as Hel.
  { intros init. unfold election. rewrite build_ring_eq. reflexivity. }
  destruct (election ids cap init1) as [[[g1 l1] a1]|e1] eqn:E1.
  - pose proof E1 as E1'. rewrite Hel in E1'. fold p1 in E1'.
    destruct (round_loop fuel cap p1 true) as [[g1' a1']|?] eqn:R1; [|done].
    simpl in E1'. injection E1' as <- <- <-.
    apply round_loop_ok in R1; [|done].
    rewrite Hel. fold p2. rewrite Hsame. simpl.
    destruct (loop_par fuel cap p2 true) as [g2 a2] eqn:L2. simpl.
    destruct (loop_par_same_core fuel cap p1 p2 true Hc)
      as [(Hnow & Hheap & Hmsg) Ha].
    rewrite <- R1, L2 in *. simpl in *.
    assert (leaders_of g1' ≡ₚ leaders_of g2) as Hperm.
    { unfold leaders_of.
      replace (nodes g1') with (nodes (loop_par fuel cap p1 true).1)
        by (by rewrite <- R1).
      replace (nodes g2) with (nodes (loop_par fuel cap p2 true).1)
        by (by rewrite L2).
      rewrite !loop_par_nodes, Hheap.
      apply filter_Permutation_list. unfold p1, p2. simpl.
      by rewrite !initiator_first_Permutation. }
    split; [done|]. split; [done|]. split; [done|]. split; [done|].
    split; [unfold statuses; by rewrite Hheap|]. split; [done|].
    intros Hnd.
    destruct (loop_par_spec fuel cap p1 0 p1) as (k & Hk & _);
      [done|subst fuel; simpl; lia|intros i Hi; lia|].
    simpl in Hk. rewrite Hk in R1. injection R1 as -> _.
    destruct (leaders_only_min ids cap init1 k Hnd) as [o Ho].
    apply (at_most_one_equal _ _ o); [apply leaders_of_NoDup|exact Ho|done].
  - destruct (election_raise ids cap init1 e1 E1) as [-> Hx].
    pose proof E1 as E1'. rewrite Hel in E1'. fold p1 in E1'.
    destruct (round_loop fuel cap p1 true) as [[g1' a1']|e] eqn:R1; [done|].
    simpl in E1'. injection E1' as ->.
    rewrite Hel. fold p2. rewrite Hsame. simpl. done.
Qed.

Lemma initiator_does_not_matter_witness :
  NoDup [3; 1; 4; 2] ∧
  ∃ g1 g2 l a,
    election [3; 1; 4; 2] 100 (Some 4) = Ok (g1, l, a) ∧
    election [3; 1; 4; 2] 100 (Some 1) = Ok (g2, l, a) ∧
    statuses g1 = statuses g2.
Proof.
  assert (NoDup [3; 1; 4; 2]) as Hnd
      by (apply (bool_decide_unpack _); reflexivity).
  split; [exact Hnd|].
  pose proof (initiator_does_not_matter [3; 1; 4; 2] 100 (Some 4) (Some 1))
    as H.
  destruct (election [3; 1; 4; 2] 100 (Some 4)) as [[[g1 l1] a1]|e1];
    destruct (election [3; 1; 4; 2] 100 (Some 1)) as [[[g2 l2] a2]|e2];
    try done.
  - destruct H as (-> & _ & _ & _ & Hs & _ & Heq).
    rewrite (Heq Hnd). by exists g1, g2, l2, a2.
  - exfalso. destruct H as (_ & _ & x & Hx & Hle).
    revert Hle. apply Z.lt_nge.
    apply (proj1 (Forall_forall (λ x, - float_limit < x) [3; 1; 4; 2]));
      [|done].
    repeat constructor; vm_compute; reflexivity.
Defined.

(** ** The loop of [round_process] *)

(** X20.  [round_process] on a ring built by the script's construction.
    When it returns, it has run some number [k] of rounds: each was started
    with the clock below the cap, all but the last reported activity, and
    the loop stopped because the last round reported none or because the
    clock reached [max_rounds].  It can also be left by the [OverflowError]
    of line 97, which takes an identifier of [-(2^1024 - 2^970)] or less,
    and by nothing else.  A round that returns reports no activity exactly
    when every node ends its turn with the set [S] and its waiting list
    empty. *)
Theorem scheduler_halts_when_quiet_or_capped
    (ids : list Z) (cap : Z) (init : option Z) (g0 : Graph) :
  build_ring ids = Ok g0 →
  match round_process (prepare g0 cap init) with
  | Ok (gk, a) =>
      ∃ k,
        rounds k (prepare g0 cap init) = Ok gk ∧
        (∀ j, (j < k)%nat →
              ∃ gj gj' aj,
                rounds j (prepare g0 cap init) = Ok gj ∧ now gj < cap ∧
                process_round gj = Ok (gj', aj) ∧
                (S j < k → aj = true)%nat ∧ (S j = k → aj = a)) ∧
        (k = 0%nat → a = true) ∧
        (a = false ∨ cap ≤ now gk)
  | Raise e => e = OverflowError ∧ ∃ x, x ∈ ids ∧ x ≤ - float_limit
  end ∧
  (∀ n g g' act,
      rounds n (prepare g0 cap init) = Ok g →
      process_round g = Ok (g', act) →
      (act = false ↔
       ∀ i, (i < length ids)%nat →
            ∃ nd, node_round (now g) (inbox g i) (node g i) = Ok (nd, []) ∧
                  Node.waiting nd = [])).
Proof.
  rewrite build_ring_eq. intros [= <-].
  set (g1 := prepare (ring0 ids) cap init).
  assert (wf_ring g1) as Hwf by apply wf_prepare, wf_ring0.
  assert (∀ j, now (Nat.iter j next g1) = Z.of_nat j) as Hnow
      by (intros j; rewrite now_iter; simpl; lia).
  split.
  - unfold round_process. simpl (max_rounds g1). cbv iota beta.
    destruct (round_loop _ _ _ _) as [[gk a]|e] eqn:E.
    + pose proof (round_loop_rounds _ _ _ _ _ Hwf E) as [k' Hk'].
      simpl in Hk'. pose proof Hk' as Hk''.
      apply rounds_ok in Hk'' as [Hgk Hsafe]; [|done].
      apply round_loop_ok in E; [|done].
      destruct (loop_par_spec (Z.to_nat (cap - now g1)) cap g1 0 g1)
        as (k & Hk & Hall & Hstop); [done|lia|intros i Hi; lia|].
      change (flag_at g1 0) with true in Hk. rewrite Hk in E.
      injection E as E1 E2.
      assert (k' = k) as ->.
      { rewrite Hgk in E1. apply (f_equal now) in E1.
        rewrite !Hnow in E1. lia. }
      subst gk a. exists k. split; [done|]. split; [|split; [|done]].
      * intros j Hj.
        assert (all_safe (Nat.iter j next g1) = true) as Hsj
            by (by apply Hsafe).
        exists (Nat.iter j next g1), (par_round (Nat.iter j next g1)),
               (flag_at g1 (S j)).
        split; [apply rounds_next; [done|]; intros i Hi; apply Hsafe; lia|].
        split; [by apply Hall|].
        split; [apply process_round_par; [by apply wf_iter_next|done]|].
        split; [|by intros <-]. intros Hlt. by apply (Hall (S j)).
      * by intros ->.
    + split; [by apply (round_loop_raise _ _ _ _ _ Hwf E)|].
      destruct (safe_ids_dec ids) as [Hs|Hx]; [exfalso|done].
      rewrite round_loop_par in E; [done|done|by apply safe_ids_always].
  - intros n g g' act Hr. apply rounds_ok in Hr as [-> Hsafe]; [|done].
    pose proof (wf_iter_next n g1 Hwf) as Hwfn.
    intros Hp. apply process_round_ok in Hp as (-> & -> & Hs); [|done].
    rewrite any_active_iff.
    assert (length (heap (Nat.iter n next g1)) = length ids) as Hlen
        by (rewrite length_iter_next; apply ring0_length).
    rewrite Hlen.
    assert (∀ i, (i < length ids)%nat →
                 node_round (now (Nat.iter n next g1))
                            (inbox (Nat.iter n next g1) i)
                            (node (Nat.iter n next g1) i)
                 = Ok (stepped (Nat.iter n next g1) i)) as Hnr.
    { intros i Hi. rewrite node_round_spec.
      assert (safe_node (now (Nat.iter n next g1))
                (inbox (Nat.iter n next g1) i) (node (Nat.iter n next g1) i)
              = true) as ->; [|done].
      apply forallb_forall. intros e He%list_elem_of_In.
      apply (all_safe_elim _ i e Hs); [by rewrite Hlen|done]. }
    split.
    + intros Hall i Hi. destruct (Hall i Hi) as [H1 H2].
      exists (stepped (Nat.iter n next g1) i).1. rewrite (Hnr i Hi).
      split; [|done]. f_equal.
      by destruct (stepped (Nat.iter n next g1) i) as [nd S_]; simpl in *;
        subst.
    + intros Hall i Hi. destruct (Hall i Hi) as (nd & H1 & H2).
      rewrite (Hnr i Hi) in H1. injection H1 as H1. by rewrite H1.
Qed.

Lemma scheduler_halts_when_quiet_or_capped_witness :
  ∃ g0 g,
    build_ring [3; 1; 4; 2] = Ok g0 ∧
    round_process (prepare g0 100 (Some 4)) = Ok (g, false) ∧
    now g = 8 ∧
    ∃ k, rounds k (prepare g0 100 (Some 4)) = Ok g ∧
         (false = false ∨ 100 ≤ now g).
Proof.
  eexists _, _. split; [reflexivity|]. split; [vm_compute; reflexivity|].
  split; [reflexivity|].
  match goal with |- ∃ k, rounds k (prepare ?g0 _ _) = Ok ?gg ∧ _ =>
    set (ga := g0); set (gb := gg)
  end.
  assert (build_ring [3; 1; 4; 2] = Ok ga) as Hb by reflexivity.
  pose proof (scheduler_halts_when_quiet_or_capped
                       [3; 1; 4; 2] 100 (Some 4) ga Hb) as H.
  apply proj1 in H.
  assert (round_process (prepare ga 100 (Some 4)) = Ok (gb, false)) as E
      by (vm_compute; reflexivity).
  rewrite E in H. destruct H as (k & H1 & _ & _ & H2).
  exists k. split; [exact H1|exact H2].
Defined.

Lemma lookup_node (g : Graph) (i : nat) (nd : Node.t) :
  heap g !! i = Some nd → (i < length (heap g))%nat ∧ node g i = nd.
Proof.
  intros Hi. split; [by eapply lookup_lt_Some|].
  by apply list_lookup_total_correct.
Qed.

(** ** The ring stays a ring *)

(** X1.  In every state an election goes through, node [i] holds the
    identifier [ids[i]], and the links set up by [Edge] are inverse of each
    other and never change: the right neighbour of the left neighbour of a
    node is the node itself, and so is the left neighbour of its right
    neighbour. *)
Theorem ring_links_are_kept
    (ids : list Z) (cap : Z) (init : option Z) (g0 g : Graph) (n : nat) :
  build_ring ids = Ok g0 → rounds n (prepare g0 cap init) = Ok g →
  length (heap g) = length ids ∧
  ∀ i nd,
    heap g !! i = Some nd →
    ids !! i = Some (Node.id nd) ∧
    ∃ l r ndl ndr,
      Node.left_neighbor nd = Some l ∧ Node.right_neighbor nd = Some r ∧
      l = ((i + length ids - 1) mod length ids)%nat ∧
      r = ((i + 1) mod length ids)%nat ∧
      heap g !! l = Some ndl ∧ Node.right_neighbor ndl = Some i ∧
      heap g !! r = Some ndr ∧ Node.left_neighbor ndr = Some i.
Proof.
  intros Hb Hr. rewrite (reached_inv ids cap init g0 g n Hb Hr).
  destruct (reached_cases ids cap init n) as (_ & _ & Hc).
  set (gn := Nat.iter n next (prepare (ring0 ids) cap init)) in *.
  assert (length (heap gn) = length ids ∧
          ∀ i, (i < length ids)%nat →
               Node.id (node gn i) = ids !!! i ∧
               Node.left_neighbor (node gn i)
               = Some (ring_left (length ids) i) ∧
               Node.right_neighbor (node gn i)
               = Some (ring_right (length ids) i)) as [Hlen Hall].
  { destruct Hc as [[_ (Hlen & Hnode & _)]|[_ HG]].
    - split; [done|]. intros i Hi. by rewrite Hnode.
    - split; [apply (gen_len ids gn HG)|]. intros i Hi.
      split; [by apply (gen_id ids gn HG)|by apply (gen_links ids gn HG)]. }
  split; [done|]. intros i nd [Hi <-]%lookup_node. rewrite Hlen in Hi.
  destruct (Hall i Hi) as (Hid & Hl & Hrr).
  split; [rewrite Hid; by apply list_lookup_lookup_total_lt|].
  assert (ring_left (length ids) i < length ids)%nat as Hli
      by (apply ring_left_lt; lia).
  assert (ring_right (length ids) i < length ids)%nat as Hri
      by (apply ring_right_lt; lia).
  exists (ring_left (length ids) i), (ring_right (length ids) i),
         (node gn (ring_left (length ids) i)),
         (node gn (ring_right (length ids) i)).
  split; [done|]. split; [done|]. split; [done|]. split; [done|].
  split; [apply list_lookup_lookup_total_lt; by rewrite Hlen|].
  split.
  { destruct (Hall _ Hli) as (_ & _ & ->). by rewrite ring_right_left. }
  split; [apply list_lookup_lookup_total_lt; by rewrite Hlen|].
  destruct (Hall _ Hri) as (_ & -> & _). by rewrite ring_left_right.
Qed.

Lemma ring_links_are_kept_witness :
  ∃ g0 g,
    build_ring [3; 1; 4; 2] = Ok g0 ∧
    rounds 5 (prepare g0 100 (Some 4)) = Ok g ∧
    length (heap g) = 4%nat ∧ ids_of g [0; 1; 2; 3]%nat = [3; 1; 4; 2].
Proof.
  eexists _, _. split; [reflexivity|]. split; [vm_compute; reflexivity|].
  split; [|reflexivity].
  eapply (ring_links_are_kept [3; 1; 4; 2] 100 (Some 4) _ _ 5);
    [reflexivity|vm_compute; reflexivity].
Defined.

(** ** The leader flag *)

Lemma leader_kept_one_round (ids : list Z) (g : Graph) (i : nat) :
  Gen ids g → (i < length ids)%nat →
  Node.is_leader (node g i) = true →
  Node.is_leader (node (next g) i) = true.
Proof.
  intros HG Hi Hl. rewrite next_node_waiting
    by (by rewrite (gen_len ids g HG)). simpl.
  pose proof (gen_awake ids g HG i Hi) as Ha. pose proof Ha as [_ [v Hv]].
  destruct (awake_not_relay _ Ha) as [Hr _]. rewrite (rcv_awake g i Ha).
  by apply (receive_loop_general (now g) (inbox g i) (node g i) [] v Hv Hr).
Qed.

Lemma leader_kept_iter (ids : list Z) (g : Graph) (i m : nat) :
  Gen ids g → (i < length ids)%nat →
  Node.is_leader (node g i) = true →
  Node.is_leader (node (Nat.iter m next g) i) = true.
Proof.
  intros HG Hi Hl. induction m as [|m IH]; [done|].
  change (Nat.iter (S m) next g) with (next (Nat.iter m next g)).
  apply (leader_kept_one_round ids); [|done|done].
  clear IH. induction m as [|m IH]; [done|]. by apply gen_next.
Qed.

(** X2.  [is_leader] is never cleared: a node whose flag is set at the start
    of some round still has it set after any number of further rounds,
    whatever the identifiers (repeated ones included) and whatever happens
    to its status. *)
Theorem leader_flag_is_never_cleared
    (ids : list Z) (cap : Z) (init : option Z) (g0 g g' : Graph) (n m : nat)
    (i : nat) (nd nd' : Node.t) :
  build_ring ids = Ok g0 → rounds n (prepare g0 cap init) = Ok g →
  rounds m g = Ok g' →
  heap g !! i = Some nd → heap g' !! i = Some nd' →
  Node.is_leader nd = true → Node.is_leader nd' = true.
Proof.
  intros Hb Hr. rewrite (reached_inv ids cap init g0 g n Hb Hr).
  destruct (reached_cases ids cap init n) as (_ & Hwf & Hc).
  set (gn := Nat.iter n next (prepare (ring0 ids) cap init)) in *.
  intros Hm. apply rounds_ok in Hm as [-> _]; [|done].
  intros [Hi <-]%lookup_node [_ <-]%lookup_node Hl.
  destruct Hc as [[_ (Hlen & Hnode & _)]|[_ HG]].
  - rewrite Hlen in Hi. by rewrite Hnode in Hl.
  - rewrite (gen_len ids gn HG) in Hi. by apply (leader_kept_iter ids).
Qed.

Lemma leader_flag_is_never_cleared_witness :
  ∃ g0 g g',
    build_ring [3; 3; 1] = Ok g0 ∧
    rounds 2 (prepare g0 100 None) = Ok g ∧ rounds 2 g = Ok g' ∧
    statuses g = [elected; not_elected; participating] ∧
    statuses g' = [not_elected; not_elected; participating] ∧
    leader_flags g' = [true; false; false].
Proof.
  eexists _, _, _. split; [reflexivity|]. split; [vm_compute; reflexivity|].
  split; [vm_compute; reflexivity|]. split; [reflexivity|].
  split; [reflexivity|].
  match goal with |- leader_flags ?g' = _ => set (gb := g') end.
  assert (Node.is_leader (node gb 0) = true) as H; [|reflexivity].
  eapply (leader_flag_is_never_cleared [3; 3; 1] 100 None _ _ gb 2 2 0%nat);
    [reflexivity|vm_compute; reflexivity|vm_compute; reflexivity
    |reflexivity|reflexivity|reflexivity].
Defined.

(** ** Queues, waiting lists and [min] *)

(** X3.  In every state an election goes through, every queued message
    carries the identifier of a node of the ring; its phase is 2, except for
    the announcements of round 0, of phase 1, which are all consumed in
    round 1.  Every waiting entry carries an identifier of the ring, has
    phase 2 and a stored time at least 1 and smaller than the clock. *)
Theorem queues_hold_ring_identifiers
    (ids : list Z) (cap : Z) (init : option Z) (g0 g : Graph) (n : nat) :
  build_ring ids = Ok g0 → rounds n (prepare g0 cap init) = Ok g →
  now g = Z.of_nat n ∧
  (∀ k m h, (m, h) ∈ inbox g k → m ∈ ids ∧ (h = 2 ∨ (h = 1 ∧ n = 1%nat))) ∧
  (∀ i nd m h t, heap g !! i = Some nd → (m, h, t) ∈ Node.waiting nd →
                 m ∈ ids ∧ h = 2 ∧ 1 ≤ t < now g).
Proof.
  intros Hb Hr. rewrite (reached_inv ids cap init g0 g n Hb Hr).
  destruct (reached_cases ids cap init n) as (Hnow & _ & Hc).
  set (gn := Nat.iter n next (prepare (ring0 ids) cap init)) in *.
  split; [done|].
  destruct Hc as [[_ (Hlen & Hnode & Hin)]|[_ HG]].
  - split.
    + intros k m h. rewrite Hin. by intros ?%elem_of_nil.
    + intros i nd m h t [Hi <-]%lookup_node. rewrite Hlen in Hi.
      rewrite Hnode by done. by intros ?%elem_of_nil.
  - split.
    + intros k m h Hin. destruct (gen_inbox ids gn HG k m h Hin) as [? [|[? ?]]].
      * auto.
      * split; [done|]. right. split; [done|lia].
    + intros i nd m h t [Hi <-]%lookup_node. rewrite (gen_len ids gn HG) in Hi.
      by apply (gen_waiting ids gn HG).
Qed.

Lemma queues_hold_ring_identifiers_witness :
  ∃ g0 g,
    build_ring [3; 1; 4; 2] = Ok g0 ∧
    rounds 2 (prepare g0 100 (Some 4)) = Ok g ∧
    Node.waiting (node g 2) = [(2, 2, 1)] ∧ now g = 2.
Proof.
  eexists _, _. split; [reflexivity|]. split; [vm_compute; reflexivity|].
  split; [reflexivity|].
  match goal with |- now ?gg = _ => set (gb := gg) end.
  destruct (queues_hold_ring_identifiers [3; 1; 4; 2] 100 (Some 4) _ gb 2
              eq_refl ltac:(vm_compute; reflexivity)) as [H _].
  exact H.
Defined.

(** X4.  In every state an election goes through and for any identifiers:
    a node is asleep only before round 0; once set, [min] is the
    identifier of some node of the ring and is at most the node's own
    identifier; a node still participating has accepted nothing ([min] its
    own identifier, nothing waiting, not a leader); a node that is not
    elected knows an identifier smaller than its own. *)
Theorem min_and_status_agree
    (ids : list Z) (cap : Z) (init : option Z) (g0 g : Graph) (n : nat)
    (i : nat) (nd : Node.t) :
  build_ring ids = Ok g0 → rounds n (prepare g0 cap init) = Ok g →
  heap g !! i = Some nd →
  (Node.status nd = asleep ↔ n = 0%nat) ∧
  (Node.min nd = MinNone ↔ n = 0%nat) ∧
  (∀ v, Node.min nd = MinNum v → v ∈ ids ∧ v ≤ Node.id nd) ∧
  (Node.status nd = participating →
   Node.min nd = MinNum (Node.id nd) ∧ Node.waiting nd = [] ∧
   Node.is_leader nd = false) ∧
  (Node.status nd = not_elected →
   ∃ v, Node.min nd = MinNum v ∧ v < Node.id nd).
Proof.
  intros Hb Hr. rewrite (reached_inv ids cap init g0 g n Hb Hr).
  destruct (reached_cases ids cap init n) as (_ & _ & Hc).
  set (gn := Nat.iter n next (prepare (ring0 ids) cap init)) in *.
  intros [Hi <-]%lookup_node.
  destruct Hc as [[-> (Hlen & Hnode & Hin)]|[Hn HG]].
  - rewrite Hlen in Hi. rewrite Hnode by done. simpl. by repeat split.
  - rewrite (gen_len ids gn HG) in Hi.
    pose proof (gen_awake ids gn HG i Hi) as [Hs [v Hv]].
    rewrite (gen_id ids gn HG i Hi).
    split; [split; [intros E; rewrite E in Hs; by destruct Hs as [|[|]]|lia]|].
    split; [split; [by rewrite Hv|lia]|].
    split; [intros v'; by apply (gen_min ids gn HG)|].
    split; [by apply (gen_participating ids gn HG)|].
    intros Hne. exists v. split; [done|].
    by apply (gen_not_elected ids gn HG).
Qed.

Lemma min_and_status_agree_witness :
  ∃ g0 g nd,
    build_ring [3; 1; 4; 2] = Ok g0 ∧
    rounds 2 (prepare g0 100 (Some 4)) = Ok g ∧
    heap g !! 2%nat = Some nd ∧
    Node.status nd = not_elected ∧ Node.min nd = MinNum 2 ∧
    ∃ v, Node.min nd = MinNum v ∧ v < Node.id nd.
Proof.
  eexists _, _, _. split; [reflexivity|]. split; [vm_compute; reflexivity|].
  split; [reflexivity|]. split; [reflexivity|]. split; [reflexivity|].
  eapply (min_and_status_agree [3; 1; 4; 2] 100 (Some 4) _ _ 2 2%nat);
    [vm_compute; reflexivity|vm_compute; reflexivity
    |vm_compute; reflexivity|vm_compute; reflexivity].
Defined.

(** ** One round, in any processing order *)

(** [self.nodes = ns]: the processing order is replaced. *)
Definition with_nodes (ns : list nat) (g : Graph) : Graph :=
  mkGraph (now g) (heap g) ns (edges g) (messages g) (orderNode g)
          (max_rounds g).

Lemma wf_with_nodes (ns : list nat) (g : Graph) :
  wf_ring g → ns ≡ₚ nodes g → wf_ring (with_nodes ns g).
Proof.
  intros [H1 H2 H3] Hp. split; simpl; [|done|done]. by rewrite Hp.
Qed.

(** X5.  What a single call of [process_round] returns does not depend on
    the order in which [self.nodes] lists the nodes.  In any state of an
    election and for two orders that list every node once: if the call
    returns for one order, it returns for the other, with the same nodes,
    the same queues and the same activity flag; the only exception it can
    raise is the [OverflowError] of line 97, and it then raises it for every
    order; and it raises nothing when every identifier of the ring is above
    [-(2^1024 - 2^970)]. *)
Theorem process_round_any_order
    (ids : list Z) (cap : Z) (init : option Z) (g0 g : Graph) (n : nat)
    (ns1 ns2 : list nat) :
  build_ring ids = Ok g0 → rounds n (prepare g0 cap init) = Ok g →
  ns1 ≡ₚ seq 0 (length ids) → ns2 ≡ₚ seq 0 (length ids) →
  (∀ g1 a, process_round (with_nodes ns1 g) = Ok (g1, a) →
           ∃ g2, process_round (with_nodes ns2 g) = Ok (g2, a) ∧
                 heap g1 = heap g2 ∧ messages g1 = messages g2 ∧
                 now g1 = now g2) ∧
  (∀ e, process_round (with_nodes ns1 g) = Raise e →
        e = OverflowError ∧
        process_round (with_nodes ns2 g) = Raise OverflowError) ∧
  ((∀ x, x ∈ ids → - float_limit < x) →
   ∃ g1 a, process_round (with_nodes ns1 g) = Ok (g1, a)).
Proof.
  intros Hb Hr Hp1 Hp2. rewrite (reached_inv ids cap init g0 g n Hb Hr).
  destruct (reached_cases ids cap init n) as (_ & Hwf & Hc).
  set (gn := Nat.iter n next (prepare (ring0 ids) cap init)) in *.
  assert (length (heap gn) = length ids) as Hlen
      by (unfold gn; rewrite length_iter_next; apply ring0_length).
  assert (∀ ns, ns ≡ₚ seq 0 (length ids) → wf_ring (with_nodes ns gn)) as Hw.
  { intros ns Hp. apply wf_with_nodes; [done|].
    rewrite Hp, <- Hlen. symmetry. apply (wf_nodes gn Hwf). }
  rewrite !process_round_spec by auto.
  change (all_safe (with_nodes ns1 gn)) with (all_safe gn).
  change (all_safe (with_nodes ns2 gn)) with (all_safe gn).
  change (any_active (with_nodes ns1 gn)) with (any_active gn).
  change (any_active (with_nodes ns2 gn)) with (any_active gn).
  split; [|split].
  - intros g1 a. destruct (all_safe gn); [|done]. intros [= <- <-].
    by eexists.
  - intros e. destruct (all_safe gn); [done|]. by intros [= <-].
  - intros Hs. assert (all_safe gn = true) as ->; [|by eexists _, _].
    destruct Hc as [[_ Hf]|[_ HG]];
      [by apply (fresh_safe ids)|by apply (gen_safe ids)].
Qed.

Lemma process_round_any_order_witness :
  ∃ g0 g g1 g2 a,
    build_ring [3; 1; 4; 2] = Ok g0 ∧
    rounds 1 (prepare g0 100 None) = Ok g ∧
    process_round (with_nodes [3; 1; 0; 2]%nat g) = Ok (g1, a) ∧
    process_round (with_nodes [0; 1; 2; 3]%nat g) = Ok (g2, a) ∧
    heap g1 = heap g2 ∧ messages g1 = messages g2.
Proof.
  eexists _, _, _.
  destruct (process_round_any_order [3; 1; 4; 2] 100 None _ _ 1
              [3; 1; 0; 2]%nat [0; 1; 2; 3]%nat eq_refl
              ltac:(vm_compute; reflexivity))
    as (Hsame & _ & _).
  - apply (Permutation_sym (l := [0; 1; 2; 3]%nat)).
    apply (perm_trans (l' := [1; 0; 2; 3]%nat)); [apply perm_swap|].
    apply (perm_trans (l' := [1; 2; 0; 3]%nat));
      [apply perm_skip, perm_swap|].
    apply (perm_trans (l' := [1; 2; 3; 0]%nat));
      [do 2 apply perm_skip; apply perm_swap|].
    apply (perm_trans (l' := [1; 3; 2; 0]%nat));
      [apply perm_skip, perm_swap|].
    apply (perm_trans (l' := [3; 1; 2; 0]%nat)); [apply perm_swap|].
    do 2 apply perm_skip. apply perm_swap.
  - reflexivity.
  - destruct (Hsame _ _ ltac:(vm_compute; reflexivity))
      as (g2 & H2 & H3 & H4 & _).
    exists g2, true. split; [reflexivity|]. split; [vm_compute; reflexivity|].
    split; [vm_compute; reflexivity|]. split; [exact H2|].
    split; [exact H3|exact H4].
Defined.

(** ** A graph whose nodes were never linked *)

(** A node asleep with no left neighbour, processed first with an empty
    queue. *)
Lemma process_round_unlinked (g : Graph) (j : nat) (rest : list nat) :
  nodes g = j :: rest → messages g !! j = Some [] →
  Node.status (heap g !!! j) = asleep →
  Node.waiting (heap g !!! j) = [] →
  Node.left_neighbor (heap g !!! j) = None →
  process_round g = Raise KeyError.
Proof.
  intros Hn Hm Hs Hw Hl. unfold process_round. rewrite Hn. cbn [for_each].
  assert (visit (now g) (messages g)
                (heap g, fresh_queues (j :: rest), false) j
          = Raise KeyError) as ->; [|done].
  unfold visit, getitem. rewrite Hm. cbn [mbind result_bind].
  rewrite node_round_spec.
  assert (safe_node (now g) [] (heap g !!! j) = true) as ->.
  { unfold safe_node, held. rewrite (activate_asleep _ Hs). simpl.
    by rewrite Hw. }
  pose proof (node_step_frame (now g) [] (heap g !!! j)) as (_ & Hl' & _).
  pose proof (node_step_eq (now g) [] (heap g !!! j)) as E.
  rewrite (activate_asleep _ Hs) in E. cbn [foldl] in E.
  destruct (node_step (now g) [] (heap g !!! j)) as [nd' S'].
  injection E as _ ->. simpl in Hl'. cbn [mbind result_bind truthy orb].
  rewrite Hl' , Hl. done.
Qed.

(** X6.  [Graph.__init__] links nothing: the neighbours are set by the
    [Edge] objects when these are created.  On a graph made of nodes that no
    [Edge] ever linked, whatever the list passed as [edges], the first round
    raises [KeyError], because the first node processed wakes up, has a
    message to send, and its [left_neighbor] is [None]. *)
Theorem unlinked_graph_raises
    (ids : list Z) (es : list (nat * nat)) (cap : Z) (init : option Z) :
  ids ≠ [] → 1 ≤ cap →
  let g := Graph_init (Node.init <$> ids) (seq 0 (length ids)) es in
  process_round g = Raise KeyError ∧
  run_election g cap init = Raise KeyError.
Proof.
  intros Hne Hcap g.
  assert (∀ j, (j < length ids)%nat →
               fresh_queues (seq 0 (length ids)) !! j = Some [] ∧
               Node.status ((Node.init <$> ids) !!! j) = asleep ∧
               Node.waiting ((Node.init <$> ids) !!! j) = [] ∧
               Node.left_neighbor ((Node.init <$> ids) !!! j) = None)
    as Hnode.
  { intros j Hj. rewrite fresh_queues_lookup.
    rewrite decide_True by (apply elem_of_seq; lia).
    assert ((Node.init <$> ids) !!! j = Node.init (ids !!! j)) as ->; [|done].
    apply list_lookup_total_correct.
    by rewrite list_lookup_fmap, (list_lookup_lookup_total_lt ids j Hj). }
  split.
  - assert (0 < length ids)%nat as Hpos
        by (destruct ids; simpl; [done|lia]).
    destruct (Hnode 0%nat Hpos) as (H1 & H2 & H3 & H4).
    apply (process_round_unlinked g 0 (seq 1 (length ids - 1))); try done.
    unfold g. simpl. destruct (length ids); [lia|].
    simpl. by rewrite Nat.sub_0_r.
  - unfold run_election, round_process. simpl (max_rounds _). cbv iota beta.
    simpl (now _).
    destruct (Z.to_nat (cap - 0)) as [|fuel] eqn:Hf; [lia|].
    cbn [round_loop]. simpl (now _).
    rewrite (proj2 (Z.ltb_lt 0 cap)) by lia. simpl (true && true).
    cbv iota.
    assert (process_round (prepare g cap init) = Raise KeyError) as ->;
      [|done].
    pose proof (initiator_first_Permutation (heap g) init (nodes g)) as Hp.
    destruct (initiator_first (heap g) init (nodes g)) as [|j rest] eqn:Ens.
    + symmetry in Hp. apply Permutation_nil_r in Hp.
      destruct ids; simpl in Hp; done.
    + assert (j < length ids)%nat as Hj.
      { assert (j ∈ nodes g) as Hin by (rewrite <- Hp; left).
        apply elem_of_seq in Hin. lia. }
      destruct (Hnode j Hj) as (H1 & H2 & H3 & H4).
      by apply (process_round_unlinked (prepare g cap init) j rest).
Qed.

Lemma unlinked_graph_raises_witness :
  [5; 7] ≠ [] ∧ 1 ≤ 100 ∧
  process_round (Graph_init (Node.init <$> [5; 7]) [0; 1]%nat [])
  = Raise KeyError.
Proof.
  split; [done|]. split; [lia|].
  apply (unlinked_graph_raises [5; 7] [] 100 None); [done|lia].
Defined.

(** ** After a round without activity *)

Lemma set_waiting_same (nd : Node.t) :
  Node.set_waiting (Node.waiting nd) nd = nd.
Proof. by destruct nd. Qed.

(** A state with nothing queued and nothing waiting. *)
Definition silent (g : Graph) : Prop :=
  (∀ k, inbox g k = []) ∧
  (∀ i, (i < length (heap g))%nat → Node.waiting (node g i) = []).

Lemma silent_after_quiet_round (g : Graph) :
  any_active g = false → silent (next g).
Proof.
  intros Hq. split.
  - intros k. destruct (decide (k < length (heap g))%nat) as [Hk|Hk].
    + rewrite next_inbox by done.
      apply (active_false g), any_active_false; [done|].
      apply ring_right_lt. lia.
    + apply next_inbox_ge. lia.
  - intros i. rewrite next_length. intros Hi. rewrite next_node by done.
    by apply (active_false g), any_active_false.
Qed.

Lemma silent_stepped (ids : list Z) (g : Graph) (i : nat) :
  Gen ids g → silent g → (i < length ids)%nat →
  stepped g i = (node g i, []).
Proof.
  intros HG [Hin Hw] Hi. rewrite stepped_eq, Hin.
  destruct (awake_not_relay _ (gen_awake ids g HG i Hi)) as [_ Ha].
  rewrite activate_awake by done. cbn [foldl fst snd].
  assert (Node.waiting (node g i) = []) as E
      by (apply Hw; by rewrite (gen_len ids g HG)).
  rewrite E. cbn. rewrite <- E. by rewrite set_waiting_same.
Qed.

(** Nothing is tested in a silent state. *)
Lemma silent_safe (ids : list Z) (g : Graph) :
  Gen ids g → silent g → all_safe g = true.
Proof.
  intros HG [Hin Hw]. apply all_safe_intro. intros i e Hi.
  pose proof Hi as Hi'. rewrite (gen_len ids g HG) in Hi'.
  destruct (awake_not_relay _ (gen_awake ids g HG i Hi')) as [_ Ha].
  unfold held. rewrite Hin, activate_awake by done. simpl.
  rewrite (Hw i Hi). by intros ?%elem_of_nil.
Qed.

Lemma silent_is_stable (ids : list Z) (g : Graph) :
  Gen ids g → silent g →
  heap (next g) = heap g ∧ silent (next g) ∧ any_active g = false.
Proof.
  intros HG Hs. pose proof (gen_len ids g HG) as Hlen.
  assert (any_active g = false) as Hq.
  { apply any_active_iff. intros i Hi. rewrite Hlen in Hi.
    rewrite (silent_stepped ids) by done. simpl. split; [done|].
    apply Hs. by rewrite Hlen. }
  split; [|split; [by apply silent_after_quiet_round|done]].
  apply list_eq. intros i. unfold next, tick, par_round. simpl.
  rewrite par_heap_lookup. destruct (heap g !! i) as [nd|] eqn:E; [|done].
  apply lookup_node in E as [Hi <-]. rewrite Hlen in Hi. simpl.
  by rewrite (silent_stepped ids).
Qed.

Lemma silent_iter (ids : list Z) (g : Graph) (m : nat) :
  Gen ids g → silent g →
  Gen ids (Nat.iter m next g) ∧ silent (Nat.iter m next g) ∧
  heap (Nat.iter m next g) = heap g.
Proof.
  intros HG Hs. induction m as [|m (IH1 & IH2 & IH3)]; [done|].
  change (Nat.iter (S m) next g) with (next (Nat.iter m next g)).
  destruct (silent_is_stable ids _ IH1 IH2) as (H1 & H2 & _).
  split; [by apply gen_next|]. split; [done|]. by rewrite H1.
Qed.

(** X7.  A round that reports no activity leaves every queue and every
    waiting list empty, and the protocol is then at rest: were further
    rounds run, each would leave every node as it is, keep the queues empty
    and report no activity again. *)
Theorem quiet_state_is_final
    (ids : list Z) (cap : Z) (init : option Z) (g0 g g1 : Graph) (n m : nat)
    (g2 : Graph) :
  build_ring ids = Ok g0 → rounds n (prepare g0 cap init) = Ok g →
  process_round g = Ok (g1, false) →
  rounds m (tick g1) = Ok g2 →
  (∀ k, inbox g1 k = []) ∧
  (∀ i nd, heap g1 !! i = Some nd → Node.waiting nd = []) ∧
  heap g2 = heap g1 ∧ (∀ k, inbox g2 k = []) ∧
  ∃ g3, process_round g2 = Ok (g3, false) ∧ heap g3 = heap g1.
Proof.
  intros Hb Hr. rewrite (reached_inv ids cap init g0 g n Hb Hr).
  destruct (reached_cases ids cap init n) as (Hnow & Hwf & Hc).
  set (gn := Nat.iter n next (prepare (ring0 ids) cap init)) in *.
  intros Hpr. apply process_round_ok in Hpr as (-> & Hq & _); [|done].
  symmetry in Hq.
  change (tick (par_round gn)) with (next gn).
  assert (wf_ring (next gn)) as Hwf' by (by apply wf_next).
  intros Hm. apply rounds_ok in Hm as [-> _]; [|done].
  pose proof (wf_iter_next m (next gn) Hwf') as Hwfm.
  assert (Gen ids (next gn)) as HG.
  { destruct Hc as [[-> Hf]|[_ HG]]; [|by apply gen_next].
    apply gen_round0; [done|]. by rewrite Hnow. }
  pose proof (silent_after_quiet_round gn Hq) as Hs.
  destruct (silent_iter ids (next gn) m HG Hs) as (HGm & Hsm & Hhm).
  destruct (silent_is_stable ids _ HGm Hsm) as (Hh & _ & Hqm).
  split; [apply Hs|]. split.
  { intros i nd [Hi <-]%lookup_node. by apply Hs. }
  split; [done|]. split; [apply Hsm|].
  eexists. split;
    [rewrite process_round_par by (done || by apply (silent_safe ids));
     by rewrite Hqm|].
  change (heap (par_round (Nat.iter m next (next gn))))
    with (heap (next (Nat.iter m next (next gn)))).
  by rewrite Hh.
Qed.

Lemma quiet_state_is_final_witness :
  ∃ g0 g g1 g2,
    build_ring [3; 1; 4; 2] = Ok g0 ∧
    rounds 7 (prepare g0 100 (Some 4)) = Ok g ∧
    process_round g = Ok (g1, false) ∧
    rounds 3 (tick g1) = Ok g2 ∧
    heap g2 = heap g1 ∧
    statuses g2 = [not_elected; elected; not_elected; not_elected].
Proof.
  eexists _, _, _, _. split; [reflexivity|]. split; [vm_compute; reflexivity|].
  split; [vm_compute; reflexivity|]. split; [vm_compute; reflexivity|].
  split; [|reflexivity].
  eapply (quiet_state_is_final [3; 1; 4; 2] 100 (Some 4) _ _ _ 7 3);
    [vm_compute; reflexivity|vm_compute; reflexivity
    |vm_compute; reflexivity|vm_compute; reflexivity].
Defined.

(** ** Calling [run_election] again *)

(** X8.  The graph keeps its state between calls.  Calling [run_election] a
    second time on the graph of an election that stopped for lack of
    activity, with any cap and any initiator, changes no node and returns
    the same leaders: it runs one idle round if the clock is below the new
    cap, and none otherwise. *)
Theorem rerun_returns_same_leaders
    (ids : list Z) (cap cap' : Z) (init init' : option Z) (g : Graph)
    (leaders : list nat) :
  election ids cap init = Ok (g, leaders, false) →
  ∃ g' leaders' a',
    run_election g cap' init' = Ok (g', leaders', a') ∧
    heap g' = heap g ∧
    leaders' ≡ₚ leaders ∧ (NoDup ids → leaders' = leaders) ∧
    a' = negb (now g <? cap') ∧
    now g' = if now g <? cap' then now g + 1 else now g.
Proof.
  intros Hrun.
  destruct (election_runs ids cap init _ Hrun) as (k & Hk & _ & _).
  rewrite Hk in Hrun. injection Hrun as <- <- Hflag.
  destruct k as [|k]; [done|]. simpl in Hflag.
  set (g1 := prepare (ring0 ids) cap init) in *.
  destruct (reached_cases ids cap init k) as (Hnow & Hwf & Hc).
  fold g1 in Hnow, Hwf, Hc.
  set (gk := Nat.iter k next g1) in *.
  change (Nat.iter (S k) next g1) with (next gk).
  assert (Gen ids (next gk)) as HG.
  { destruct Hc as [[-> Hf]|[_ HG]]; [|by apply gen_next].
    apply gen_round0; [done|]. by rewrite Hnow. }
  pose proof (silent_after_quiet_round gk Hflag) as Hs.
  destruct (silent_is_stable ids _ HG Hs) as (Hh & _ & Hq).
  set (g := next gk) in *.
  assert (wf_ring g) as Hwfg by (by apply wf_next).
  assert (∀ h : list Node.t, List.filter
                 (λ n, Node.is_leader (h !!! n))
                 (initiator_first (heap g) init' (nodes g))
               ≡ₚ List.filter (λ n, Node.is_leader (h !!! n)) (nodes g))
    as Hperm.
  { intros h. apply filter_Permutation_list, initiator_first_Permutation. }
  assert (∀ l, l ≡ₚ leaders_of g → NoDup ids → l = leaders_of g) as Heq.
  { intros l Hp Hnd.
    destruct (leaders_only_min ids cap init (S k) Hnd) as [o Ho].
    symmetry. apply (at_most_one_equal _ _ o);
      [exact (leaders_of_NoDup ids cap init (S k))|exact Ho|by symmetry]. }
  unfold run_election, round_process. simpl (max_rounds _). cbv iota beta.
  change (now (prepare g cap' init')) with (now g).
  destruct (Z.ltb_spec (now g) cap') as [Hlt|Hge].
  - destruct (Z.to_nat (cap' - now g)) as [|fuel] eqn:Hf; [lia|].
    cbn [round_loop]. change (now (prepare g cap' init')) with (now g).
    rewrite (proj2 (Z.ltb_lt _ _) Hlt). simpl (true && true). cbv iota.
    rewrite process_round_par
      by (by apply wf_prepare || exact (silent_safe ids g HG Hs)).
    cbn [mbind result_bind].
    change (tick (par_round (prepare g cap' init')))
      with (next (prepare g cap' init')).
    change (any_active (prepare g cap' init')) with (any_active g).
    rewrite Hq.
    assert (∀ gg, round_loop fuel cap' gg false = Ok (gg, false)) as ->
        by (intros gg; by destruct fuel).
    assert (leaders_of (next (prepare g cap' init')) ≡ₚ leaders_of g) as Hl.
    { unfold leaders_of.
      change (heap (next (prepare g cap' init'))) with (heap (next g)).
      rewrite Hh. apply Hperm. }
    eexists _, _, _. cbn [mbind result_bind]. split; [reflexivity|].
    split; [exact Hh|]. split; [exact Hl|]. split; [|done]. by apply Heq.
  - assert (Z.to_nat (cap' - now g) = 0%nat) as -> by lia.
    assert (leaders_of (prepare g cap' init') ≡ₚ leaders_of g) as Hl
        by apply Hperm.
    cbn [round_loop]. eexists _, _, _. cbn [mbind result_bind].
    split; [reflexivity|]. split; [done|].
    split; [exact Hl|]. split; [|done]. by apply Heq.
Qed.

Lemma rerun_returns_same_leaders_witness :
  ∃ g g',
    election [3; 1; 4; 2] 100 (Some 4) = Ok (g, [1%nat], false) ∧
    run_election g 100 (Some 2) = Ok (g', [1%nat], false) ∧
    heap g' = heap g ∧ now g' = 9.
Proof.
  eexists _, _. split; [vm_compute; reflexivity|].
  split; [vm_compute; reflexivity|]. split; [|reflexivity].
  match goal with |- heap ?a = heap ?b => set (ga := a); set (gb := b) end.
  destruct (rerun_returns_same_leaders [3; 1; 4; 2] 100 100 (Some 4) (Some 2)
              gb [1%nat] ltac:(vm_compute; reflexivity))
    as (g' & l' & a' & H1 & H2 & _).
  assert (run_election gb 100 (Some 2) = Ok (ga, [1%nat], false)) as H
      by (vm_compute; reflexivity).
  rewrite H in H1. injection H1 as <- _ _. exact H2.
Defined.

(** ** The round cap *)

(** X9.  [run_election] never runs more than [max_rounds] rounds, and the
    clock counts them: the final clock is the number of rounds run, it is at
    most [max(0, max_rounds)], and it is exactly that when the last round
    still reported activity.  With a cap of 0 or less no round is run: the
    nodes are still asleep and no leader is returned. *)
Theorem rounds_bounded_by_cap
    (ids : list Z) (cap : Z) (init : option Z) (g0 g : Graph)
    (leaders : list nat) (a : bool) :
  build_ring ids = Ok g0 →
  run_election g0 cap init = Ok (g, leaders, a) →
  0 ≤ now g ≤ Z.max 0 cap ∧
  rounds (Z.to_nat (now g)) (prepare g0 cap init) = Ok g ∧
  (a = true → now g = Z.max 0 cap) ∧
  (cap ≤ 0 → g = prepare g0 cap init ∧ leaders = [] ∧ a = true).
Proof.
  intros Hb Hrun.
  assert (election ids cap init = Ok (g, leaders, a)) as He
      by (unfold election; by rewrite Hb).
  rewrite build_ring_eq in Hb. injection Hb as <-.
  destruct (election_runs ids cap init _ He) as (k & Hk & Hall & Hstop).
  destruct (election_rounds ids cap init _ He) as (k' & Hk').
  rewrite Hk in He. injection He as <- <- <-.
  set (g1 := prepare (ring0 ids) cap init) in *.
  assert (∀ i, now (Nat.iter i next g1) = Z.of_nat i) as Hnow
      by (intros i; rewrite now_iter; simpl; lia).
  assert (rounds k g1 = Ok (Nat.iter k next g1)) as Hrk.
  { simpl in Hk'. pose proof Hk' as Hi.
    apply rounds_prepare in Hi. fold g1 in Hi.
    assert (k' = k) as <-; [|done].
    apply (f_equal now) in Hi. rewrite !Hnow in Hi. lia. }
  rewrite Hnow in *. rewrite Nat2Z.id.
  assert (k = 0%nat ∨ Z.of_nat k ≤ cap) as Hkc.
  { destruct k as [|k]; [by left|right].
    destruct (Hall k) as [_ Hlt]; [lia|]. rewrite Hnow in Hlt. lia. }
  split; [lia|]. split; [exact Hrk|]. split.
  - intros Ha. destruct Hstop as [Hf|Hc]; [congruence|]. lia.
  - intros Hcap. assert (k = 0%nat) as -> by lia.
    split; [done|]. split; [|done].
    change (Nat.iter 0 next g1) with g1.
    destruct (leaders_of g1) as [|x l] eqn:E; [done|exfalso].
    assert (x ∈ leaders_of (Nat.iter 0 next g1)) as Hx
        by (change (Nat.iter 0 next g1) with g1; rewrite E; left).
    apply leaders_of_iter in Hx as [Hx Hl].
    destruct (fresh_prepare ids _ cap init (fresh_ring0 ids))
      as (_ & Hnode & _).
    change (Nat.iter 0 next (prepare (ring0 ids) cap init)) with g1 in Hl.
    unfold g1 in Hl. by rewrite Hnode in Hl.
Qed.

Lemma rounds_bounded_by_cap_witness :
  ∃ g0 g,
    build_ring [3; 1; 4; 2] = Ok g0 ∧
    run_election g0 5 (Some 4) = Ok (g, [], true) ∧
    now g = 5 ∧ 0 ≤ now g ≤ Z.max 0 5.
Proof.
  eexists _, _. split; [reflexivity|]. split; [vm_compute; reflexivity|].
  split; [reflexivity|].
  eapply (rounds_bounded_by_cap [3; 1; 4; 2] 5 (Some 4) _ _ [] true);
    [vm_compute; reflexivity|vm_compute; reflexivity].
Defined.

(** ** When a leader exists, every node knows the smallest identifier *)

Section Seen.
Variable ids : list Z.
Hypothesis ids_nodup : NoDup ids.
Variable o : nat.
Hypothesis o_lt : (o < length ids)%nat.
Hypothesis o_min : ∀ j, (j < length ids)%nat → ids !!! o ≤ ids !!! j.
Local Abbreviation N := (length ids).
Local Abbreviation μ := (ids !!! o).
Local Abbreviation r := (ring_right (length ids)).

(** Every position is reached from any other by going right. *)
Lemma reach_right (x k : nat) :
  (x < N)%nat → (k < N)%nat → ∃ j, Nat.iter j r x = k.
Proof.
  intros Hx Hk.
  exists (if decide (x ≤ k)%nat then (k - x)%nat else (k + N - x)%nat).
  rewrite ring_right_iter by done. case_decide.
  - rewrite Nat.mod_small by lia. lia.
  - symmetry. apply (Nat.mod_unique _ _ 1); lia.
Qed.

(** Once the right neighbour of the smallest node has seen [μ], every node
    has. *)
Lemma all_visited (g : Graph) :
  Run ids o g → Live ids o g → visited ids o g (r o) →
  ∀ k, (k < N)%nat → visited ids o g k.
Proof.
  intros HR HL Hro.
  assert (∀ j, visited ids o g (Nat.iter j r (r o))) as Hall.
  { induction j as [|j IH]; [done|]. simpl.
    destruct (live_closed ids o g HL _ (iter_r_lt ids o o_lt _ j (r_lt ids o o_lt o)) IH)
      as [E|Hv]; [by rewrite E|done]. }
  intros k Hk. destruct (reach_right (r o) k (r_lt ids o o_lt o) Hk) as [j <-].
  apply Hall.
Qed.

Definition Seen (g : Graph) : Prop :=
  Node.is_leader (node g o) = true → ∀ k, (k < N)%nat → visited ids o g k.

Lemma seen_next (g : Graph) :
  Run ids o g → Live ids o g → Seen g → Seen (next g).
Proof.
  intros HR HL HS Hlead k Hk.
  apply (visited_mono ids ids_nodup o o_lt o_min g HR k Hk).
  rewrite (next_node_rcv ids o g HR o o_lt) in Hlead. simpl in Hlead.
  rewrite (rcv_o ids o o_lt o_min g HR) in Hlead.
  destruct (carries μ (inbox g o)) eqn:Hc; [|by apply HS].
  apply existsb_exists in Hc as ([m h] & Hin & Hm%Z.eqb_eq).
  simpl in Hm. subst m. apply list_elem_of_In in Hin.
  apply all_visited; [done|done| |done].
  by apply (live_inbox ids o g HL o h).
Qed.

Lemma seen_iter (g : Graph) (n : nat) :
  fresh ids g → Seen (Nat.iter (S n) next g).
Proof.
  intros Hf. induction n as [|n IH].
  - intros Hl. simpl in Hl. rewrite (next_fresh_node ids) in Hl by done.
    done.
  - destruct (run_live_iter ids ids_nodup o o_lt o_min g n Hf) as [HR HL].
    by apply seen_next.
Qed.

End Seen.

(** X10.  On a ring of distinct identifiers, as soon as some node has
    [is_leader] set, the election is decided everywhere: that node is
    [elected], every node has the leader's identifier, the smallest of the
    ring, as [min], and every other node is [not_elected] and no leader. *)
Theorem leader_decides_every_node
    (ids : list Z) (cap : Z) (init : option Z) (g0 g : Graph) (n : nat)
    (j : nat) (ndj : Node.t) :
  NoDup ids →
  build_ring ids = Ok g0 → rounds n (prepare g0 cap init) = Ok g →
  heap g !! j = Some ndj → Node.is_leader ndj = true →
  Node.status ndj = elected ∧ (∀ x, x ∈ ids → Node.id ndj ≤ x) ∧
  ∀ i nd, heap g !! i = Some nd →
          Node.min nd = MinNum (Node.id ndj) ∧
          (i ≠ j → Node.status nd = not_elected ∧ Node.is_leader nd = false).
Proof.
  intros Hnd Hb Hr. rewrite (reached_inv ids cap init g0 g n Hb Hr).
  set (g1 := prepare (ring0 ids) cap init).
  assert (fresh ids g1) as Hf by apply fresh_prepare, fresh_ring0.
  intros [Hj <-]%lookup_node Hlead.
  assert (length (heap (Nat.iter n next g1)) = length ids) as Hlen
      by (rewrite length_iter_next; apply ring0_length).
  rewrite Hlen in Hj.
  destruct n as [|n].
  { exfalso. destruct Hf as (_ & Hnode & _).
    change (Nat.iter 0 next g1) with g1 in Hlead.
    by rewrite Hnode in Hlead. }
  assert (ids ≠ []) as Hne by (intros ->; simpl in Hj; lia).
  destruct (exists_min ids Hne) as (o & Ho & Hmin).
  destruct (run_live_iter ids Hnd o Ho Hmin g1 n Hf) as [HR HL].
  pose proof (seen_iter ids Hnd o Ho Hmin g1 n Hf) as HS.
  set (gn := Nat.iter (S n) next g1) in *.
  assert (j = o) as -> by (by apply (run_leader ids o gn j HR)).
  pose proof (HS Hlead) as Hvis.
  pose proof (run_id ids o gn HR o Ho) as Hid.
  assert (∀ i, (i < length ids)%nat →
               match Node.status (node gn i) with
               | participating =>
                   ids !!! o = ids !!! i ∧ Node.is_leader (node gn i) = false
               | not_elected =>
                   ids !!! o < ids !!! i ∧ Node.is_leader (node gn i) = false
               | elected => i = o ∧ Node.is_leader (node gn i) = true
               | asleep | relay => False
               end) as Hst.
  { intros i Hi. apply (run_status ids o gn HR i _ Hi). by apply Hvis. }
  split; [|split].
  - specialize (Hst o Ho). destruct (Node.status (node gn o)); try done;
      destruct Hst; congruence.
  - intros x [i Hi]%list_elem_of_lookup. rewrite Hid.
    pose proof (lookup_lt_Some _ _ _ Hi).
    rewrite <- (list_lookup_total_correct _ _ _ Hi). by apply Hmin.
  - intros i nd [Hi <-]%lookup_node. rewrite Hlen in Hi. rewrite Hid.
    split; [by apply Hvis|]. intros Hio. specialize (Hst i Hi).
    destruct (Node.status (node gn i)); try done.
    + destruct Hst as [E _]. exfalso. apply Hio. symmetry.
      by apply (ids_inj ids Hnd).
    + by destruct Hst.
    + by destruct Hst.
Qed.

Lemma leader_decides_every_node_witness :
  NoDup [3; 1; 4; 2] ∧
  ∃ g0 g nd,
    build_ring [3; 1; 4; 2] = Ok g0 ∧
    rounds 8 (prepare g0 100 (Some 4)) = Ok g ∧
    heap g !! 1%nat = Some nd ∧ Node.is_leader nd = true ∧
    Node.status nd = elected ∧
    mins g = [MinNum 1; MinNum 1; MinNum 1; MinNum 1].
Proof.
  assert (NoDup [3; 1; 4; 2]) as Hnd
      by (apply (bool_decide_unpack _); reflexivity).
  split; [exact Hnd|].
  eexists _, _, _. split; [reflexivity|]. split; [vm_compute; reflexivity|].
  split; [reflexivity|]. split; [reflexivity|]. split; [|reflexivity].
  eapply (leader_decides_every_node [3; 1; 4; 2] 100 (Some 4) _ _ 8 1%nat _
            Hnd);
    [vm_compute; reflexivity|vm_compute; reflexivity
    |vm_compute; reflexivity|vm_compute; reflexivity].
Defined.

(** ** The round in which the leader is elected *)

Section Timing.
Variable ids : list Z.
Hypothesis ids_nodup : NoDup ids.
Variable o : nat.
Hypothesis o_lt : (o < length ids)%nat.
Hypothesis o_min : ∀ j, (j < length ids)%nat → ids !!! o ≤ ids !!! j.
Local Abbreviation N := (length ids).
Local Abbreviation μ := (ids !!! o).
Local Abbreviation r := (ring_right (length ids)).
Local Abbreviation P := (hold (ids !!! o) + 1).

(** The node [d] hops to the left of the smallest one. *)
Definition pos (d : nat) : nat := ((o + N - d) mod N)%nat.

Lemma pos_lt (d : nat) : (pos d < N)%nat.
Proof. unfold pos. apply Nat.mod_upper_bound. lia. Qed.

Lemma pos_N : pos N = o.
Proof.
  unfold pos. replace (o + N - N)%nat with o by lia.
  by apply Nat.mod_small.
Qed.

Lemma r_pos (d : nat) : (d < N)%nat → r (pos (S d)) = pos d.
Proof.
  intros Hd. unfold pos, ring_right.
  rewrite Nat.Div0.add_mod_idemp_l. f_equal. lia.
Qed.

Lemma pos_inj (j d : nat) :
  (1 ≤ j ≤ N)%nat → (1 ≤ d ≤ N)%nat → pos j = pos d → j = d.
Proof.
  unfold pos. intros Hj Hd E.
  pose proof (Nat.div_mod_eq (o + N - j) N) as Ea.
  pose proof (Nat.div_mod_eq (o + N - d) N) as Eb.
  rewrite E in Ea.
  set (qa := ((o + N - j) / N)%nat) in *.
  set (qb := ((o + N - d) / N)%nat) in *.
  set (rb := ((o + N - d) mod N)%nat) in *.
  assert (qa = qb) by nia. subst qa. lia.
Qed.

Lemma pos_not_o (d : nat) : (1 ≤ d < N)%nat → pos d ≠ o.
Proof.
  intros Hd E. rewrite <- pos_N in E. apply pos_inj in E; lia.
Qed.

Lemma left_of_pos (k d : nat) :
  (k < N)%nat → (d < N)%nat → r k = pos d → k = pos (S d).
Proof.
  intros Hk Hd E. rewrite <- (ring_left_right N k) by done.
  rewrite E, <- (r_pos d) by done. apply ring_left_right, pos_lt.
Qed.

(** Where the announcement of [μ] is at the start of a round: it has made
    [d - 1] hops and reached node [pos d]; with [q = 0] it sits in the queue
    of that node, otherwise it has been waiting there for [q] rounds.  No
    other copy of it exists, and the nodes further to the left have not
    seen it. *)
Record Tim (g : Graph) (d : nat) (q : Z) : Prop := {
  tim_range : (1 ≤ d ≤ N)%nat ∧ 0 ≤ q < P ∧ (d = N → q = 0);
  tim_now : now g = Z.of_nat (d - 1) * P + 1 + q;
  tim_leader : Node.is_leader (node g o) = false;
  tim_token : if decide (q = 0) then ∃ h, (μ, h) ∈ inbox g (pos d)
              else (μ, 2, now g - q) ∈ Node.waiting (node g (pos d));
  tim_inbox : ∀ k h, (k < N)%nat → (μ, h) ∈ inbox g k → q = 0 ∧ k = pos d;
  tim_waiting : ∀ k h t, (k < N)%nat →
      (μ, h, t) ∈ Node.waiting (node g k) →
      q ≠ 0 ∧ k = pos d ∧ t = now g - q;
  tim_visited : ∀ j, (1 ≤ j < N)%nat → visited ids o g (pos j) →
      (j < d)%nat ∨ (j = d ∧ q ≠ 0)
}.

Lemma tim_round0 (g : Graph) : fresh ids g → now g = 0 → Tim (next g) 1 0.
Proof.
  intros Hf Hnow.
  assert (pos 1 < N)%nat as Hp by apply pos_lt.
  assert (r (pos 1) = o) as Hr.
  { rewrite r_pos by lia. unfold pos. rewrite Nat.sub_0_r.
    rewrite <- (Nat.Div0.add_mod_idemp_r _ N N), Nat.Div0.mod_same, Nat.add_0_r.
    by apply Nat.mod_small. }
  split.
  - pose proof (hold_nonneg μ). lia.
  - rewrite next_now, Hnow. simpl. lia.
  - by rewrite (next_fresh_node ids).
  - rewrite decide_True by done. exists 1.
    rewrite (next_fresh_inbox ids) by done. rewrite Hr.
    apply list_elem_of_singleton. done.
  - intros k h Hk. rewrite (next_fresh_inbox ids) by done.
    intros [= E]%list_elem_of_singleton. split; [done|].
    assert (r k = o) as Hk' by (symmetry; apply (ids_inj ids ids_nodup);
      [done|apply ring_right_lt; lia|done]).
    rewrite <- (ring_left_right N k), Hk', <- Hr by done.
    apply ring_left_right, pos_lt.
  - intros k h t Hk. rewrite (next_fresh_node ids) by done. simpl.
    by intros ?%elem_of_nil.
  - intros j Hj. unfold visited.
    rewrite (next_fresh_node ids) by (done || apply pos_lt). simpl.
    intros [= E]. exfalso. apply (pos_not_o j Hj).
    apply (ids_inj ids ids_nodup); [apply pos_lt|done|done].
Qed.

Section TimStep.
Variable g : Graph.
Variables (d : nat) (q : Z).
Hypothesis HR : Run ids o g.
Hypothesis HT : Tim g d q.
Hypothesis Hd : (d < N)%nat.

Lemma tim_entry_due (h : Z) :
  entry_due (now g) (μ, h, now g - q) = (hold μ <=? q).
Proof.
  destruct (tim_range g d q HT) as (_ & Hq & _).
  unfold entry_due. simpl. rewrite due_hold by lia. f_equal. lia.
Qed.

Lemma tim_no_self_message : carries μ (inbox g o) = false.
Proof.
  destruct (carries μ (inbox g o)) eqn:Hc; [exfalso|done].
  apply existsb_exists in Hc as ([m h] & Hin & Hm%Z.eqb_eq).
  simpl in Hm. subst m. apply list_elem_of_In in Hin.
  destruct (tim_inbox g d q HT o h o_lt Hin) as [_ E].
  destruct (tim_range g d q HT) as (Hr & _).
  apply (pos_not_o d); [lia|done].
Qed.

Lemma tim_rcv_waiting (i : nat) :
  (i < N)%nat →
  ∀ e, e ∈ Node.waiting (rcv g i).1 →
       e ∈ Node.waiting (node g i) ∨
       (i ≠ o ∧ ∃ m h, e = (m, 2, now g) ∧ (m, h) ∈ inbox g i).
Proof.
  intros Hi e He. destruct (decide (i = o)) as [->|Hne].
  - left. rewrite (rcv_o ids o o_lt o_min g HR) in He.
    by rewrite tim_no_self_message in He.
  - destruct (run_min ids o g HR i Hi) as (v & Hv & _).
    rewrite (rcv_other ids ids_nodup o o_lt o_min g HR i v Hi Hne Hv) in He.
    simpl in He. apply elem_of_app in He as [He|He]; [by left|right].
    split; [done|].
    apply accepted_elem in He as (m & h & -> & Hin & _). by exists m, h.
Qed.

(** Every entry for [μ] held anywhere after the receive loops is the
    announcement itself. *)
Lemma tim_unique (i : nat) (h t : Z) :
  (i < N)%nat → (μ, h, t) ∈ Node.waiting (rcv g i).1 →
  i = pos d ∧ t = now g - q.
Proof.
  intros Hi He. destruct (tim_rcv_waiting i Hi _ He)
    as [Hold|(_ & m & h' & [= Em Eh Et] & Hin)].
  - by destruct (tim_waiting g d q HT i h t Hi Hold) as (_ & ? & ?).
  - rewrite <- Em in Hin.
    destruct (tim_inbox g d q HT i h' Hi Hin) as [Eq Ei].
    split; [done|lia].
Qed.

Lemma tim_present : (μ, 2, now g - q) ∈ Node.waiting (rcv g (pos d)).1.
Proof.
  pose proof (tim_token g d q HT) as Htok.
  destruct (tim_range g d q HT) as (Hr & _).
  destruct (decide (q = 0)) as [Eq|Hq].
  - destruct Htok as [h Hin].
    assert (pos d ≠ o) as Hne by (apply pos_not_o; lia).
    destruct (run_min ids o g HR (pos d) (pos_lt d)) as (v & Hv & Hle).
    rewrite (rcv_other ids ids_nodup o o_lt o_min g HR _ v (pos_lt d) Hne Hv).
    simpl. apply elem_of_app. right.
    assert (μ < v) as Hlt.
    { destruct (Z.eq_dec μ v) as [E|]; [exfalso|lia].
      destruct (tim_visited g d q HT d) as [|[_ ?]]; [lia| |lia|done].
      unfold visited. by rewrite Hv, E. }
    assert (low v (inbox g (pos d)) = μ) as Hlow.
    { pose proof (low_lower v _ _ _ Hin).
      pose proof (low_ge ids o o_lt o_min g HR (pos d) v (pos_lt d)). lia. }
    rewrite Eq, Z.sub_0_r, <- Hlow. apply accepted_low. lia.
  - apply (rcv_keeps ids o g HR); [apply pos_lt|done].
Qed.

Lemma tim_leader_next : Node.is_leader (node (next g) o) = false.
Proof.
  rewrite (next_node_rcv ids o g HR o o_lt). simpl.
  rewrite (rcv_o ids o o_lt o_min g HR), tim_no_self_message.
  apply (tim_leader g d q HT).
Qed.

Lemma tim_visited_next (j : nat) :
  (1 ≤ j < N)%nat → visited ids o (next g) (pos j) →
  (j < d)%nat ∨ (j = d ∧ (q ≠ 0 ∨ q = 0)).
Proof.
  intros Hj Hv. destruct (tim_range g d q HT) as (Hr & _).
  destruct (visited_new ids ids_nodup o o_lt o_min g HR _ (pos_lt j) Hv)
    as [Hold|[h Hin]].
  - destruct (tim_visited g d q HT j Hj Hold) as [|[? ?]]; [by left|].
    right. split; [done|by left].
  - destruct (tim_inbox g d q HT _ h (pos_lt j) Hin) as [Hq E].
    right. split; [apply pos_inj; [lia|lia|done]|by right].
Qed.

(** The announcement is not due yet: it waits one more round. *)
Lemma tim_wait : q + 1 < P → Tim (next g) d (q + 1).
Proof.
  intros Hq. destruct (tim_range g d q HT) as (Hr & Hq0 & _).
  assert (∀ h, entry_due (now g) (μ, h, now g - q) = false) as Hdue.
  { intros h. rewrite tim_entry_due. apply Z.leb_gt. lia. }
  split.
  - lia.
  - rewrite next_now, (tim_now g d q HT). lia.
  - apply tim_leader_next.
  - rewrite decide_False by lia. rewrite next_now.
    replace (now g + 1 - (q + 1)) with (now g - q) by lia.
    rewrite (next_node_rcv ids o g HR _ (pos_lt d)). simpl.
    apply list_elem_of_filter. split; [|apply tim_present].
    rewrite Hdue. simpl. tauto.
  - intros k h Hk.
    rewrite (next_inbox_rcv ids ids_nodup o o_lt o_min g HR k Hk).
    intros ([[m' h'] t] & [= <- <-] & [Hd' Hin]%list_elem_of_filter)%list_elem_of_fmap.
    exfalso.
    destruct (tim_unique _ h t (ring_right_lt N k ltac:(lia)) Hin) as [_ ->].
    by rewrite Hdue in Hd'.
  - intros k h t Hk. rewrite (next_node_rcv ids o g HR k Hk). simpl.
    intros [_ Hin]%list_elem_of_filter.
    destruct (tim_unique k h t Hk Hin) as [-> ->].
    rewrite ?next_now. split; [lia|]. split; [done|lia].
  - intros j Hj Hv. destruct (tim_visited_next j Hj Hv) as [|[-> _]];
      [by left|right]. split; [done|lia].
Qed.

(** The announcement is due: it moves one hop to the left. *)
Lemma tim_hop : q + 1 = P → Tim (next g) (S d) 0.
Proof.
  intros Hq. destruct (tim_range g d q HT) as (Hr & Hq0 & _).
  assert (∀ h, entry_due (now g) (μ, h, now g - q) = true) as Hdue.
  { intros h. rewrite tim_entry_due. apply Z.leb_le. lia. }
  split.
  - lia.
  - rewrite next_now, (tim_now g d q HT).
    replace (S d - 1)%nat with (S (d - 1)) by lia. lia.
  - apply tim_leader_next.
  - rewrite decide_True by done. exists 2.
    rewrite (next_inbox_rcv ids ids_nodup o o_lt o_min g HR _ (pos_lt _)).
    rewrite r_pos by done. apply list_elem_of_fmap.
    exists (μ, 2, now g - q). split; [done|].
    apply list_elem_of_filter. split; [by rewrite Hdue|apply tim_present].
  - intros k h Hk.
    rewrite (next_inbox_rcv ids ids_nodup o o_lt o_min g HR k Hk).
    intros ([[m' h'] t] & [= <- <-] & [_ Hin]%list_elem_of_filter)%list_elem_of_fmap.
    destruct (tim_unique _ h t (ring_right_lt N k ltac:(lia)) Hin) as [E _].
    split; [done|]. by apply left_of_pos.
  - intros k h t Hk. rewrite (next_node_rcv ids o g HR k Hk). simpl.
    intros [Hnd Hin]%list_elem_of_filter. exfalso.
    destruct (tim_unique k h t Hk Hin) as [_ ->].
    rewrite Hdue in Hnd. by apply Hnd.
  - intros j Hj Hv. left.
    destruct (tim_visited_next j Hj Hv) as [|[-> _]]; lia.
Qed.

End TimStep.

(** The announcement is back in the queue of the smallest node: the node is
    elected in this round. *)
Lemma tim_home (g : Graph) :
  Run ids o g → Tim g N 0 → Node.is_leader (node (next g) o) = true.
Proof.
  intros HR HT. pose proof (tim_token g N 0 HT) as Htok.
  rewrite decide_True in Htok by done. destruct Htok as [h Hin].
  rewrite pos_N in Hin.
  rewrite (next_node_rcv ids o g HR o o_lt). simpl.
  rewrite (rcv_o ids o o_lt o_min g HR).
  assert (carries μ (inbox g o) = true) as ->; [|done].
  apply existsb_exists. exists (μ, h). split; [by apply list_elem_of_In|].
  apply Z.eqb_refl.
Qed.

(** After [s + 1] rounds, for [s] up to [(N - 1) * P], the announcement has
    travelled for [s] rounds. *)
Lemma tim_iter (g : Graph) (s : nat) :
  fresh ids g → now g = 0 → Z.of_nat s ≤ (Z.of_nat N - 1) * P →
  ∃ d q, Tim (Nat.iter (S s) next g) d q ∧
         Z.of_nat s = Z.of_nat (d - 1) * P + q.
Proof.
  intros Hf Hnow. induction s as [|s IH]; intros Hs.
  - exists 1%nat, 0. split; [by apply tim_round0|simpl; lia].
  - destruct IH as (d & q & HT & Hsq); [lia|].
    destruct (run_live_iter ids ids_nodup o o_lt o_min g s Hf) as [HR _].
    destruct (tim_range _ d q HT) as (Hr & Hq & HN).
    assert (d < N)%nat as Hd.
    { destruct (decide (d = N)) as [->|]; [|lia].
      rewrite (HN eq_refl) in Hsq.
      replace (Z.of_nat (N - 1)) with (Z.of_nat N - 1) in Hsq by lia. lia. }
    change (Nat.iter (S (S s)) next g) with (next (Nat.iter (S s) next g)).
    destruct (Z_lt_ge_dec (q + 1) P) as [Hlt|Hge].
    + exists d, (q + 1). split; [by apply tim_wait|lia].
    + exists (S d), 0. split; [apply (tim_hop _ d q); [done|done|done|lia]|].
      replace (S d - 1)%nat with (S (d - 1)) by lia. lia.
Qed.

(** The leader flag of every node after any number of rounds. *)
Lemma tim_leader_iff (g : Graph) (n i : nat) :
  fresh ids g → now g = 0 → (i < N)%nat →
  Node.is_leader (node (Nat.iter n next g) i) = true ↔
  i = o ∧ (Z.of_nat N - 1) * P + 2 ≤ Z.of_nat n.
Proof.
  intros Hf Hnow Hi. pose proof (hold_nonneg μ) as HP.
  assert (0 ≤ (Z.of_nat N - 1) * P) as HNP by nia.
  destruct n as [|n].
  { simpl. destruct Hf as (_ & Hnode & _). rewrite Hnode by done. simpl.
    split; [done|lia]. }
  destruct (run_live_iter ids ids_nodup o o_lt o_min g n Hf) as [HR _].
  assert (Node.is_leader (node (Nat.iter (S n) next g) i) = true → i = o)
    as Honly by (by apply (run_leader ids o _ i HR)).
  destruct (Z_le_gt_dec (Z.of_nat n) ((Z.of_nat N - 1) * P)) as [Hle|Hgt].
  - destruct (tim_iter g n Hf Hnow Hle) as (d & q & HT & _). split; [|lia].
    intros Hl. exfalso. rewrite (Honly Hl) in Hl.
    by rewrite (tim_leader _ _ _ HT) in Hl.
  - set (s0 := Z.to_nat ((Z.of_nat N - 1) * P)).
    destruct (tim_iter g s0 Hf Hnow ltac:(lia)) as (d & q & HT & Hs).
    destruct (tim_range _ _ _ HT) as (Hd & Hq & _).
    assert (d = N) as Ed.
    { destruct (decide (d = N)) as [|Hne]; [done|exfalso].
      assert (Z.of_nat (d - 1) + 1 ≤ Z.of_nat N - 1) as Hd' by lia.
      assert ((Z.of_nat (d - 1) + 1) * P ≤ (Z.of_nat N - 1) * P)
        by (apply Z.mul_le_mono_nonneg_r; lia).
      lia. }
    assert (q = 0) as Eq.
    { rewrite Ed in Hs.
      replace (Z.of_nat (N - 1)) with (Z.of_nat N - 1) in Hs by lia. lia. }
    rewrite Ed, Eq in HT.
    destruct (run_live_iter ids ids_nodup o o_lt o_min g s0 Hf) as [HR0 _].
    pose proof (tim_home _ HR0 HT) as Hlead.
    change (next (Nat.iter (S s0) next g))
      with (Nat.iter (S (S s0)) next g) in Hlead.
    apply (leader_kept_iter ids _ o (n - S s0)) in Hlead;
      [|by apply gen_iter|done].
    rewrite <- Nat.iter_add in Hlead.
    replace (n - S s0 + S (S s0))%nat with (S n) in Hlead by lia.
    split.
    + intros Hl. split; [by apply Honly|lia].
    + by intros [-> _].
Qed.

End Timing.

(** The number of rounds an election over [n] nodes takes to set the leader
    flag, when the smallest identifier is [m]: the round that wakes the
    nodes, [n - 1] hops of [hold m + 1] rounds each, and the round in which
    the announcement is read by its sender. *)
Definition rounds_to_elect (n : nat) (m : Z) : Z :=
  (Z.of_nat n - 1) * (hold m + 1) + 2.

Lemma smallest_position (ids : list Z) (o : nat) (m : Z) :
  ids !! o = Some m → (∀ x, x ∈ ids → m ≤ x) →
  (o < length ids)%nat ∧ ids !!! o = m ∧
  ∀ j, (j < length ids)%nat → ids !!! o ≤ ids !!! j.
Proof.
  intros Ho Hmin. pose proof (lookup_lt_Some _ _ _ Ho) as Hlt.
  pose proof (list_lookup_total_correct _ _ _ Ho) as Em.
  split; [done|]. split; [done|]. intros j Hj. rewrite Em.
  apply Hmin, list_elem_of_lookup_total_2, Hj.
Qed.

(** X11.  On a ring of distinct identifiers whose smallest one is [m], held
    by node [o], the leader flag is set at an exactly known time, whatever
    the arrangement of the other identifiers and whoever the initiator:
    after [n] rounds a node has [is_leader] set if and only if it is node
    [o] and [n] is at least [(N - 1) * (hold m + 1) + 2], which is
    [(N - 1) * 2^m + 2] for [m >= 0] and [N + 1] for a negative [m]. *)
Theorem leader_flag_set_after_known_rounds
    (ids : list Z) (cap : Z) (init : option Z) (g0 g : Graph) (n o : nat)
    (m : Z) :
  NoDup ids → ids !! o = Some m → (∀ x, x ∈ ids → m ≤ x) →
  build_ring ids = Ok g0 → rounds n (prepare g0 cap init) = Ok g →
  ∀ i nd, heap g !! i = Some nd →
          (Node.is_leader nd = true ↔
           i = o ∧ rounds_to_elect (length ids) m ≤ Z.of_nat n).
Proof.
  intros Hnd Ho Hmin Hb Hr.
  destruct (smallest_position ids o m Ho Hmin) as (Hlt & Em & Hmin').
  rewrite (reached_inv ids cap init g0 g n Hb Hr).
  set (g1 := prepare (ring0 ids) cap init).
  assert (fresh ids g1) as Hf by apply fresh_prepare, fresh_ring0.
  intros i nd [Hi <-]%lookup_node.
  assert (length (heap (Nat.iter n next g1)) = length ids) as Hlen
      by (rewrite length_iter_next; apply ring0_length).
  rewrite Hlen in Hi.
  unfold rounds_to_elect. rewrite <- Em.
  by apply (tim_leader_iff ids Hnd o Hlt Hmin' g1 n i Hf).
Qed.

Lemma leader_flag_set_after_known_rounds_witness :
  rounds_to_elect 4 1 = 8 ∧
  ∃ g0 g7 g8,
    build_ring [3; 1; 4; 2] = Ok g0 ∧
    rounds 7 (prepare g0 100 (Some 4)) = Ok g7 ∧
    rounds 8 (prepare g0 100 (Some 4)) = Ok g8 ∧
    leader_flags g7 = [false; false; false; false] ∧
    leader_flags g8 = [false; true; false; false] ∧
    ∀ i nd, heap g8 !! i = Some nd →
            (Node.is_leader nd = true ↔
             i = 1%nat ∧ rounds_to_elect 4 1 ≤ 8).
Proof.
  split; [reflexivity|].
  eexists _, _, _. split; [reflexivity|]. split; [vm_compute; reflexivity|].
  split; [vm_compute; reflexivity|]. split; [reflexivity|].
  split; [reflexivity|].
  eapply (leader_flag_set_after_known_rounds [3; 1; 4; 2] 100 (Some 4) _ _
            8 1 1).
  - apply (bool_decide_unpack _). reflexivity.
  - reflexivity.
  - apply Forall_forall. repeat constructor; lia.
  - reflexivity.
  - vm_compute. reflexivity.
Defined.

(** The whole run of an election over distinct identifiers that returned,
    in closed form: the number [k] of rounds run, and the leaders found. *)
Lemma election_closed (ids : list Z) (cap : Z) (init : option Z) (o : nat)
    (m : Z) :
  NoDup ids → ids !! o = Some m → (∀ x, x ∈ ids → m ≤ x) →
  let g1 := prepare (ring0 ids) cap init in
  let R := rounds_to_elect (length ids) m in
  (∃ k, election ids cap init
        = Ok (Nat.iter k next g1, leaders_of (Nat.iter k next g1),
              flag_at g1 k) ∧
        (∀ i, (i < k)%nat →
              flag_at g1 i = true ∧ now (Nat.iter i next g1) < cap) ∧
        (flag_at g1 k = false ∨ cap ≤ now (Nat.iter k next g1))) →
  ∃ k, election ids cap init
       = Ok (Nat.iter k next g1, leaders_of (Nat.iter k next g1), flag_at g1 k) ∧
       now (Nat.iter k next g1) = Z.of_nat k ∧
       Z.of_nat k ≤ Z.max 0 cap ∧
       (R ≤ cap → R ≤ Z.of_nat k) ∧
       (cap < R → Z.of_nat k = Z.max 0 cap ∧ flag_at g1 k = true) ∧
       leaders_of (Nat.iter k next g1)
       = if decide (R ≤ Z.of_nat k) then [o] else [].
Proof.
  intros Hnd Ho Hmin g1 R (k & Hk & Hall & Hstop).
  destruct (smallest_position ids o m Ho Hmin) as (Hlt & Em & Hmin').
  assert (fresh ids g1) as Hf by apply fresh_prepare, fresh_ring0.
  assert (now g1 = 0) as Hnow by done.
  assert (∀ j, now (Nat.iter j next g1) = Z.of_nat j) as Hclock
      by (intros j; rewrite now_iter, Hnow; lia).
  rewrite Hclock in Hstop.
  pose proof (λ i, tim_leader_iff ids Hnd o Hlt Hmin' g1 k i Hf Hnow) as Hiff.
  rewrite Em in Hiff. fold (rounds_to_elect (length ids) m) in Hiff.
  fold R in Hiff.
  assert (Z.of_nat k ≤ Z.max 0 cap) as Hk_cap.
  { destruct k as [|k']; [lia|].
    destruct (Hall k' ltac:(lia)) as [_ Hc]. rewrite Hclock in Hc. lia. }
  assert (flag_at g1 k = false → R ≤ Z.of_nat k) as Hquiet.
  { intros Hflag. destruct k as [|k']; [done|]. simpl in Hflag.
    destruct (run_live_iter ids Hnd o Hlt Hmin' g1 k' Hf) as [_ HL].
    assert (length (heap (Nat.iter k' next g1)) = length ids) as Hlen
        by (rewrite length_iter_next; apply ring0_length).
    pose proof (quiet_round_elects ids o Hlt (Nat.iter k' next g1) HL Hlen
                  Hflag) as Hlead.
    by apply (Hiff o Hlt) in Hlead as [_ ?]. }
  assert (2 ≤ R) as HR2.
  { unfold R, rounds_to_elect. pose proof (hold_nonneg m). nia. }
  exists k. split; [exact Hk|]. split; [apply Hclock|]. split; [done|].
  split; [|split].
  - intros Hcap. destruct Hstop as [Hq|Hc]; [by apply Hquiet|lia].
  - intros Hcap. split.
    + destruct Hstop as [Hq|Hc]; [specialize (Hquiet Hq)|]; lia.
    + destruct (flag_at g1 k) eqn:Hflag; [done|].
      specialize (Hquiet eq_refl). lia.
  - destruct (decide (R ≤ Z.of_nat k)) as [HRk|HkR].
    + apply singleton_list; [apply leaders_of_NoDup|].
      intros i. unfold g1. rewrite leaders_of_iter. fold g1. split.
      * intros [Hi Hl]. by apply (Hiff i Hi) in Hl as [-> _].
      * intros ->. split; [done|]. by apply (Hiff o Hlt).
    + destruct (leaders_of (Nat.iter k next g1)) as [|a l] eqn:El; [done|].
      exfalso. assert (a ∈ leaders_of (Nat.iter k next g1)) as Ha
          by (rewrite El; left).
      unfold g1 in Ha. apply leaders_of_iter in Ha as [Hi Hl]. fold g1 in Hl.
      apply (Hiff a Hi) in Hl as [_ ?]. lia.
Qed.

(** X12.  Whether [run_election] finds the leader depends on [max_rounds]
    alone.  On a ring of distinct identifiers whose smallest one is [m], held
    by node [o]: with [max_rounds] at least [(N - 1) * (hold m + 1) + 2] the
    list returned is [[o]], and the clock has run at least that many rounds;
    with a smaller [max_rounds] the list returned is empty, the clock stands
    at the cap (at 0 for a negative cap) and the activity flag is still
    set. *)
Theorem max_rounds_decides_the_outcome
    (ids : list Z) (cap : Z) (init : option Z) (g : Graph)
    (leaders : list nat) (activity : bool) (o : nat) (m : Z) :
  NoDup ids → ids !! o = Some m → (∀ x, x ∈ ids → m ≤ x) →
  election ids cap init = Ok (g, leaders, activity) →
  (rounds_to_elect (length ids) m ≤ cap →
   leaders = [o] ∧ rounds_to_elect (length ids) m ≤ now g ≤ cap) ∧
  (cap < rounds_to_elect (length ids) m →
   leaders = [] ∧ activity = true ∧ now g = Z.max 0 cap).
Proof.
  intros Hnd Ho Hmin Hrun.
  destruct (election_closed ids cap init o m Hnd Ho Hmin
              (election_runs ids cap init _ Hrun))
    as (k & Hk & Hclock & Hk_cap & Hhigh & Hlow & Hl).
  rewrite Hk in Hrun. injection Hrun as <- <- <-.
  assert (2 ≤ rounds_to_elect (length ids) m) as HR2.
  { unfold rounds_to_elect. pose proof (hold_nonneg m).
    apply lookup_lt_Some in Ho. nia. }
  rewrite Hclock, Hl. split.
  - intros Hcap. specialize (Hhigh Hcap). rewrite decide_True by done.
    split; [done|lia].
  - intros Hcap. destruct (Hlow Hcap) as [Ek Hflag].
    rewrite decide_False by lia. done.
Qed.

Lemma max_rounds_decides_the_outcome_witness :
  rounds_to_elect 4 1 = 8 ∧
  (∃ g, election [3; 1; 4; 2] 8 (Some 4) = Ok (g, [1%nat], false) ∧
        now g = 8) ∧
  (∃ g, election [3; 1; 4; 2] 7 (Some 4) = Ok (g, [], true) ∧
        now g = Z.max 0 7).
Proof.
  assert (NoDup [3; 1; 4; 2]) as Hnd
      by (apply (bool_decide_unpack _); reflexivity).
  assert (∀ x, x ∈ [3; 1; 4; 2] → 1 ≤ x) as Hmin
      by (apply Forall_forall; repeat constructor; lia).
  split; [reflexivity|]. split.
  - eexists. split; [vm_compute; reflexivity|]. reflexivity.
  - eexists. split; [vm_compute; reflexivity|].
    match goal with |- now ?gg = _ => set (g := gg) end.
    destruct (max_rounds_decides_the_outcome [3; 1; 4; 2] 7 (Some 4) g []
                true 1 1 Hnd eq_refl Hmin ltac:(vm_compute; reflexivity))
      as [_ Hlow].
    destruct Hlow as (_ & _ & Hn); [reflexivity|]. exact Hn.
Defined.

(** ** Graph.graficar_anillo and the script *)

(** The colour names of [graficar_anillo]. *)
Inductive Color := gold | skyblue | orange | red | gray.

(** Lines 175-184: the colour of a node, by its status. *)
Definition color_of (s : Status) : Color :=
  match s with
  | elected => gold
  | participating => skyblue
  | relay => orange
  | not_elected => red
  | asleep => gray
  end.

(** What [graficar_anillo] hands over to the drawing library: the arguments
    of its calls of [G.add_node] and [G.add_edge], in order, and the list
    [color_map] passed as [node_color]. *)
Record Drawing := mkDrawing {
  added_nodes : list Z;
  added_edges : list (Z * Z);
  color_map : list Color
}.

Definition graficar_anillo (g : Graph) : Drawing :=
  mkDrawing
    ((λ node, Node.id (heap g !!! node)) <$> orderNode g)
    (omap (λ node,
             match Node.right_neighbor (heap g !!! node) with
             | Some right_neighbor =>
                 Some (Node.id (heap g !!! node),
                       Node.id (heap g !!! right_neighbor))
             | None => None
             end) (orderNode g))
    ((λ node, color_of (Node.status (heap g !!! node))) <$> orderNode g).

(** The outcome of [int(input(...))] in the script: an integer, a
    [ValueError] of [int] for a line that is no number, or the [EOFError] of
    [input] when the input is at its end. *)
Inductive entered := Number (n : Z) | NotANumber | EndOfInput.

(** Lines 196-203: only [ValueError] is caught. *)
Definition num_nodes_of (e : entered) : result Z :=
  match e with
  | Number n => Ok (if n <=? 0 then 10 else n)
  | NotANumber => Ok 10
  | EndOfInput => Raise EOFError
  end.

(** The script from line 196 on, for what the user entered and the
    initiator picked by [random.choice]: the leaders returned by
    [run_election] and the drawing. *)
Definition script (e : entered) (random_initiator : Z)
  : result (list nat * Drawing) :=
  num_nodes ← num_nodes_of e;
  '(g, leaders, _) ← election (seqZ 0 num_nodes) 100 (Some random_initiator);
  Ok (leaders, graficar_anillo g).

Lemma orderNode_iter_next (g : Graph) (k : nat) :
  orderNode (Nat.iter k next g) = orderNode g.
Proof. induction k as [|k IH]; [done|]. simpl. exact IH. Qed.

Lemma fmap_seq_lookup_total {A} `{!Inhabited A} (f : nat → A) (l : list A) :
  (∀ i, (i < length l)%nat → f i = l !!! i) → f <$> seq 0 (length l) = l.
Proof.
  intros Hf. apply list_eq. intros i. rewrite list_lookup_fmap.
  destruct (decide (i < length l)%nat) as [Hi|Hi].
  - rewrite lookup_seq_lt by done. simpl. rewrite Hf by done.
    symmetry. by apply list_lookup_lookup_total_lt.
  - rewrite lookup_seq_ge by lia. simpl. symmetry.
    apply lookup_ge_None. lia.
Qed.

Lemma omap_seq_Some {A B} (f : A → option B) (h : A → B) (l : list A) :
  (∀ x, x ∈ l → f x = Some (h x)) → omap f l = h <$> l.
Proof.
  induction l as [|x l IH]; intros Hf; [done|]. simpl.
  rewrite (Hf x) by left. f_equal. apply IH. intros y Hy. apply Hf.
  by right.
Qed.

(** What never changes in a node during an election, and when it is
    awake. *)
Lemma reached_node (ids : list Z) (cap : Z) (init : option Z) (k i : nat) :
  (i < length ids)%nat →
  let g := Nat.iter k next (prepare (ring0 ids) cap init) in
  Node.id (node g i) = ids !!! i ∧
  Node.right_neighbor (node g i) = Some (ring_right (length ids) i) ∧
  Node.status (node g i) ≠ relay ∧
  (Node.status (node g i) = asleep → k = 0%nat).
Proof.
  intros Hi g.
  destruct (reached_cases ids cap init k) as (_ & _ & [[-> Hf]|[Hk HG]]).
  - destruct Hf as (_ & Hnode & _). specialize (Hnode i Hi). unfold g.
    change (Nat.iter 0 next (prepare (ring0 ids) cap init))
      with (prepare (ring0 ids) cap init) in *.
    rewrite Hnode. done.
  - fold g in HG. split; [by apply (gen_id ids g HG)|].
    split; [by apply (gen_links ids g HG)|].
    destruct (gen_awake ids g HG i Hi) as [[E|[E|E]] _]; rewrite E;
      split; done.
Qed.

Lemma drawing_of_reached (ids : list Z) (cap : Z) (init : option Z) (k : nat) :
  let g := Nat.iter k next (prepare (ring0 ids) cap init) in
  added_nodes (graficar_anillo g) = ids ∧
  added_edges (graficar_anillo g)
  = (λ i, (ids !!! i, ids !!! ring_right (length ids) i))
      <$> seq 0 (length ids) ∧
  color_map (graficar_anillo g)
  = (λ i, color_of (Node.status (node g i))) <$> seq 0 (length ids).
Proof.
  intros g. unfold graficar_anillo. simpl.
  assert (orderNode g = seq 0 (length ids)) as ->
      by (unfold g; by rewrite orderNode_iter_next).
  split; [|split; [|done]].
  - apply fmap_seq_lookup_total. intros i Hi.
    by destruct (reached_node ids cap init k i Hi) as (? & _).
  - apply omap_seq_Some. intros i [_ Hi]%elem_of_seq. simpl in Hi.
    destruct (reached_node ids cap init k i Hi) as (Hid & Hr & _).
    fold g in Hid, Hr. unfold node in Hid, Hr. rewrite Hr, Hid.
    assert (ring_right (length ids) i < length ids)%nat as Hri
        by (apply ring_right_lt; lia).
    destruct (reached_node ids cap init k _ Hri) as (Hid' & _).
    fold g in Hid'. unfold node in Hid'. by rewrite Hid'.
Qed.

(** Once the leader flag is set, every status is final. *)
Lemma decided_status (ids : list Z) (cap : Z) (init : option Z) (o : nat)
    (m : Z) (k i : nat) :
  NoDup ids → ids !! o = Some m → (∀ x, x ∈ ids → m ≤ x) →
  rounds_to_elect (length ids) m ≤ Z.of_nat k → (i < length ids)%nat →
  Node.status (node (Nat.iter k next (prepare (ring0 ids) cap init)) i)
  = if decide (i = o) then elected else not_elected.
Proof.
  intros Hnd Ho Hmin HRk Hi.
  destruct (smallest_position ids o m Ho Hmin) as (Hlt & Em & Hmin').
  set (g1 := prepare (ring0 ids) cap init).
  assert (fresh ids g1) as Hf by apply fresh_prepare, fresh_ring0.
  assert (now g1 = 0) as Hnow by done.
  assert (Node.is_leader (node (Nat.iter k next g1) o) = true) as Hlead.
  { apply (tim_leader_iff ids Hnd o Hlt Hmin' g1 k o Hf Hnow Hlt).
    split; [done|]. rewrite Em. exact HRk. }
  destruct k as [|k].
  { exfalso. destruct Hf as (_ & Hnode & _). simpl in Hlead.
    by rewrite Hnode in Hlead. }
  destruct (run_live_iter ids Hnd o Hlt Hmin' g1 k Hf) as [HR _].
  pose proof (seen_iter ids Hnd o Hlt Hmin' g1 k Hf Hlead i Hi) as Hv.
  pose proof (run_status ids o _ HR i _ Hi Hv) as Hs.
  destruct (decide (i = o)) as [->|Hne];
    destruct (Node.status (node (Nat.iter (S k) next g1) _)); try done.
  - destruct Hs. congruence.
  - destruct Hs. lia.
  - destruct Hs as [E _]. exfalso. apply Hne. symmetry.
    by apply (ids_inj ids Hnd).
  - by destruct Hs.
Qed.

Lemma decided_colors (ids : list Z) (cap : Z) (init : option Z) (o : nat)
    (m : Z) (k : nat) :
  NoDup ids → ids !! o = Some m → (∀ x, x ∈ ids → m ≤ x) →
  rounds_to_elect (length ids) m ≤ Z.of_nat k →
  color_map (graficar_anillo (Nat.iter k next (prepare (ring0 ids) cap init)))
  = <[o := gold]> (replicate (length ids) red).
Proof.
  intros Hnd Ho Hmin HRk.
  destruct (drawing_of_reached ids cap init k) as (_ & _ & ->).
  apply list_eq. intros i. rewrite list_lookup_fmap.
  destruct (decide (i < length ids)%nat) as [Hi|Hi].
  - rewrite lookup_seq_lt by done. simpl.
    rewrite (decided_status ids cap init o m k i Hnd Ho Hmin HRk Hi).
    destruct (decide (i = o)) as [->|Hne].
    + by rewrite list_lookup_insert_eq by (by rewrite length_replicate).
    + by rewrite list_lookup_insert_ne, lookup_replicate_2 by done.
  - rewrite lookup_seq_ge by lia. simpl. symmetry.
    apply lookup_ge_None. rewrite length_insert, length_replicate. lia.
Qed.

(** X13.  After any election, [graficar_anillo] draws the ring in the order
    of construction, whoever the initiator that [run_election] moved to the
    front of [self.nodes]: the nodes added are the identifiers in order, the
    edges added join each node to its right neighbour, and [color_map] has
    one colour per node, the colour of position [i] being that of node [i].
    No node is ever drawn orange, and one is drawn gray only when
    [max_rounds] was 0 or less. *)
Theorem drawing_follows_construction_order
    (ids : list Z) (cap : Z) (init : option Z) (g : Graph)
    (leaders : list nat) (activity : bool) :
  election ids cap init = Ok (g, leaders, activity) →
  added_nodes (graficar_anillo g) = ids ∧
  added_edges (graficar_anillo g)
  = (λ i, (ids !!! i, ids !!! ((i + 1) mod length ids)%nat))
      <$> seq 0 (length ids) ∧
  length (color_map (graficar_anillo g)) = length ids ∧
  (∀ i nd, heap g !! i = Some nd →
           color_map (graficar_anillo g) !! i
           = Some (color_of (Node.status nd))) ∧
  (orange ∉ color_map (graficar_anillo g)) ∧
  (gray ∈ color_map (graficar_anillo g) → cap ≤ 0).
Proof.
  intros Hrun.
  destruct (election_runs ids cap init _ Hrun) as (k & Hk & _ & Hstop).
  rewrite Hk in Hrun. injection Hrun as <- _ _.
  set (g1 := prepare (ring0 ids) cap init) in *.
  destruct (drawing_of_reached ids cap init k) as (Hn & He & Hc).
  fold g1 in Hn, He, Hc. rewrite Hn, He, Hc.
  assert (length (heap (Nat.iter k next g1)) = length ids) as Hlen
      by (rewrite length_iter_next; apply ring0_length).
  split; [done|]. split; [done|].
  split; [by rewrite length_fmap, length_seq|].
  split; [|split].
  - intros i nd [Hi <-]%lookup_node. rewrite Hlen in Hi.
    by rewrite list_lookup_fmap, lookup_seq_lt.
  - intros (i & Ec & [_ Hi]%elem_of_seq)%list_elem_of_fmap. simpl in Hi.
    destruct (reached_node ids cap init k i Hi) as (_ & _ & Hr & _).
    fold g1 in Hr. destruct (Node.status (node (Nat.iter k next g1) i)); done.
  - intros (i & Ec & [_ Hi]%elem_of_seq)%list_elem_of_fmap. simpl in Hi.
    destruct (reached_node ids cap init k i Hi) as (_ & _ & _ & Ha).
    fold g1 in Ha.
    assert (k = 0%nat) as ->
        by (apply Ha; destruct (Node.status (node (Nat.iter k next g1) i));
            done).
    destruct Hstop as [Hq|Hc']; [done|]. exact Hc'.
Qed.

Lemma drawing_follows_construction_order_witness :
  ∃ g d,
    election [3; 1; 4; 2] 3 (Some 4) = Ok (g, [], true) ∧
    d = graficar_anillo g ∧
    nodes g = [2; 0; 1; 3]%nat ∧
    added_nodes d = [3; 1; 4; 2] ∧
    added_edges d = [(3, 1); (1, 4); (4, 2); (2, 3)] ∧
    color_map d = [red; skyblue; red; skyblue] ∧
    (orange ∉ color_map d).
Proof.
  eexists _, _. split; [vm_compute; reflexivity|]. split; [reflexivity|].
  split; [reflexivity|]. split; [reflexivity|]. split; [reflexivity|].
  split; [reflexivity|].
  eapply (drawing_follows_construction_order [3; 1; 4; 2] 3 (Some 4)).
  vm_compute. reflexivity.
Defined.

(** X14.  On a ring of distinct identifiers, when [max_rounds] is large
    enough for the leader to be found, the drawing is the same for every
    initiator: the node holding the smallest identifier is gold and every
    other node is red. *)
Theorem decided_election_is_drawn_gold_and_red
    (ids : list Z) (cap : Z) (init : option Z) (g : Graph)
    (leaders : list nat) (activity : bool) (o : nat) (m : Z) :
  NoDup ids → ids !! o = Some m → (∀ x, x ∈ ids → m ≤ x) →
  rounds_to_elect (length ids) m ≤ cap →
  election ids cap init = Ok (g, leaders, activity) →
  color_map (graficar_anillo g) = <[o := gold]> (replicate (length ids) red).
Proof.
  intros Hnd Ho Hmin Hcap Hrun.
  destruct (election_closed ids cap init o m Hnd Ho Hmin
              (election_runs ids cap init _ Hrun))
    as (k & Hk & _ & _ & Hhigh & _).
  rewrite Hk in Hrun. injection Hrun as <- _ _.
  by apply (decided_colors ids cap init o m k Hnd Ho Hmin), Hhigh.
Qed.

Lemma decided_election_is_drawn_gold_and_red_witness :
  rounds_to_elect 4 1 ≤ 100 ∧
  ∃ g,
    election [3; 1; 4; 2] 100 (Some 4) = Ok (g, [1%nat], false) ∧
    color_map (graficar_anillo g) = [red; gold; red; red].
Proof.
  split; [vm_compute; discriminate|].
  eexists. split; [vm_compute; reflexivity|].
  eapply (decided_election_is_drawn_gold_and_red [3; 1; 4; 2] 100 (Some 4)
            _ [1%nat] false 1 1).
  - apply (bool_decide_unpack _). reflexivity.
  - reflexivity.
  - apply Forall_forall. repeat constructor; lia.
  - vm_compute. discriminate.
  - vm_compute. reflexivity.
Defined.

(** X15.  The script, for whatever the user enters and whichever initiator
    is picked.  At the end of the input [input] raises [EOFError], which the
    script does not catch: it stops there.  Otherwise an entry that is no
    number, or a number that is not positive, gives 10 nodes; the election
    over the identifiers [0 .. num_nodes - 1] raises nothing; the ring is
    drawn with these nodes in order; with fewer than 100 nodes the election
    returns node 0 as the only leader and the drawing shows node 0 gold and
    every other node red; with 100 nodes or more the 100 rounds of the
    default [max_rounds] are not enough and the election returns no
    leader. *)
Theorem script_elects_node_0_below_100_nodes
    (e : entered) (random_initiator : Z) :
  match num_nodes_of e with
  | Raise x =>
      e = EndOfInput ∧ x = EOFError ∧ script e random_initiator = Raise EOFError
  | Ok n =>
      e ≠ EndOfInput ∧ 1 ≤ n ∧ (n = 10 ∨ e = Number n) ∧
      ∃ d, script e random_initiator
           = Ok (if decide (n < 100) then [0%nat] else [], d) ∧
           added_nodes d = seqZ 0 n ∧
           (n < 100 → color_map d = gold :: replicate (Z.to_nat n - 1) red)
  end.
Proof.
  destruct (num_nodes_of e) as [n|x] eqn:En; cycle 1.
  { destruct e as [y| |]; try done. injection En as <-.
    split; [done|]. split; [done|]. reflexivity. }
  assert (e ≠ EndOfInput ∧ 1 ≤ n ∧ (n = 10 ∨ e = Number n)) as (Hne & Hn & He).
  { destruct e as [y| |]; [|injection En as <-; split; [done|];
                             split; [lia|by left]|done].
    simpl in En. injection En as <-. split; [done|].
    destruct (Z.leb_spec y 0); (split; [lia|]); [by left|by right]. }
  split; [done|]. split; [done|]. split; [done|].
  assert (seqZ 0 n !! 0%nat = Some 0) as Ho by (by apply lookup_seqZ_lt; lia).
  assert (∀ x, x ∈ seqZ 0 n → 0 ≤ x) as Hmin
      by (intros x Hx%elem_of_seqZ; lia).
  assert (safe_ids (seqZ 0 n)) as Hsafe.
  { intros x Hx%Hmin. pose proof float_limit_pos. lia. }
  assert (rounds_to_elect (length (seqZ 0 n)) 0 = n + 1) as HR.
  { unfold rounds_to_elect. rewrite length_seqZ.
    change (hold 0) with 0. lia. }
  destruct (election_closed (seqZ 0 n) 100 (Some random_initiator) 0 0
              (NoDup_seqZ 0 n) Ho Hmin
              (election_runs_safe _ _ _
                 (safe_ids_always _ 100 (Some random_initiator) Hsafe)))
    as (k & Hk & _ & Hk_cap & Hhigh & Hlow & Hl).
  rewrite HR in Hhigh, Hlow, Hl.
  unfold script. rewrite En. cbn [mbind result_bind]. rewrite Hk. simpl.
  rewrite Hl.
  eexists. split; [|split].
  - f_equal. f_equal. destruct (decide (n < 100)) as [Hlt|Hge].
    + rewrite decide_True; [done|]. apply Hhigh. lia.
    + rewrite decide_False; [done|]. destruct Hlow as [Ek _]; lia.
  - by destruct (drawing_of_reached (seqZ 0 n) 100 (Some random_initiator) k)
      as (-> & _).
  - intros Hlt.
    rewrite (decided_colors (seqZ 0 n) 100 (Some random_initiator) 0 0 k
               (NoDup_seqZ 0 n) Ho Hmin) by (rewrite HR; apply Hhigh; lia).
    rewrite length_seqZ. destruct (Z.to_nat n) as [|n'] eqn:En'; [lia|].
    simpl. by rewrite Nat.sub_0_r.
Qed.

Lemma script_elects_node_0_below_100_nodes_witness :
  num_nodes_of (Number (-4)) = Ok 10 ∧ num_nodes_of NotANumber = Ok 10 ∧
  script EndOfInput 2 = Raise EOFError ∧
  ∃ d, script (Number 3) 2 = Ok ([0%nat], d) ∧
       added_nodes d = [0; 1; 2] ∧ color_map d = [gold; red; red].
Proof.
  split; [reflexivity|]. split; [reflexivity|]. split; [reflexivity|].
  pose proof (script_elects_node_0_below_100_nodes (Number 3) 2) as H.
  change (num_nodes_of (Number 3)) with (@Ok Z 3) in H. cbv iota beta in H.
  destruct H as (_ & _ & _ & d & Hs & Hn & Hc).
  exists d. split; [exact Hs|]. split; [exact Hn|]. exact (Hc eq_refl).
Defined.

(** ** Termination *)

Lemma hold_mono (x y : Z) : x ≤ y → hold x ≤ hold y.
Proof.
  intros Hxy. unfold hold.
  destruct (Z.leb_spec 0 x), (Z.leb_spec 0 y); try lia.
  all: try (pose proof (Z.pow_le_mono_r 2 x y); lia).
  all: pose proof (Z.pow_pos_nonneg 2 y); lia.
Qed.

Section Clock.
Variable ids : list Z.
Local Abbreviation N := (length ids).
Local Abbreviation r := (ring_right (length ids)).

(** Every message travels on a fixed timetable: the announcement of [m]
    reaches the queue of the node [d] hops to the left of its sender at
    clock [(d - 1) * (hold m + 1) + 1], if it gets that far, and waits there
    for [hold m] rounds. *)
Record Clk (g : Graph) : Prop := {
  clk_inbox : ∀ k m h, (k < N)%nat → (m, h) ∈ inbox g k →
      ∃ d, (1 ≤ d ≤ N)%nat ∧ ids !!! Nat.iter d r k = m ∧
           now g = Z.of_nat (d - 1) * (hold m + 1) + 1;
  clk_waiting : ∀ i m h t, (i < N)%nat →
      (m, h, t) ∈ Node.waiting (node g i) →
      ∃ d, (1 ≤ d < N)%nat ∧ ids !!! Nat.iter d r i = m ∧
           t = Z.of_nat (d - 1) * (hold m + 1) + 1 ∧
           t < now g ∧ now g - t ≤ hold m
}.

Lemma clk_round0 (g : Graph) : fresh ids g → now g = 0 → Clk (next g).
Proof.
  intros Hf Hnow. split.
  - intros k m h Hk. rewrite (next_fresh_inbox ids) by done.
    intros [= -> ->]%list_elem_of_singleton. exists 1%nat.
    split; [lia|]. split; [done|]. rewrite next_now, Hnow. simpl. lia.
  - intros i m h t Hi. rewrite (next_fresh_node ids) by done. simpl.
    by intros ?%elem_of_nil.
Qed.

Lemma gen_rcv (g : Graph) (i : nat) :
  Gen ids g → (i < N)%nat →
  ∃ v, Node.min (node g i) = MinNum v ∧ v ≤ ids !!! i ∧
       Node.waiting (rcv g i).1
       = Node.waiting (node g i) ++ accepted (now g) v (inbox g i) ∧
       (rcv g i).2 = [].
Proof.
  intros HG Hi. pose proof (gen_awake ids g HG i Hi) as Ha.
  pose proof Ha as [_ [v Hv]]. exists v. split; [done|].
  split; [by destruct (gen_min ids g HG i v Hi Hv)|].
  destruct (awake_not_relay _ Ha) as [Hr _]. rewrite (rcv_awake g i Ha).
  by destruct (receive_loop_general (now g) (inbox g i) (node g i) [] v Hv Hr)
    as (_ & H2 & H3 & _).
Qed.

(** The timetable of everything a node holds after its receive loop. *)
Lemma clk_rcv (g : Graph) (i : nat) (m h t : Z) :
  Gen ids g → Clk g → (i < N)%nat →
  (m, h, t) ∈ Node.waiting (rcv g i).1 →
  ∃ d, (1 ≤ d < N)%nat ∧ ids !!! Nat.iter d r i = m ∧
       t = Z.of_nat (d - 1) * (hold m + 1) + 1 ∧
       t ≤ now g ∧ now g - t ≤ hold m.
Proof.
  intros HG HC Hi Hin.
  destruct (gen_rcv g i HG Hi) as (v & Hv & Hle & Hw & _).
  rewrite Hw in Hin. apply elem_of_app in Hin as [Hin|Hin].
  - destruct (clk_waiting g HC i m h t Hi Hin) as (d & Hd & Ho & Ht & H1 & H2).
    exists d. repeat split; try done; lia.
  - apply accepted_elem in Hin as (m' & h' & [= -> -> ->] & Hin & Hlt & _).
    destruct (clk_inbox g HC i m' h' Hi Hin) as (d & Hd & Ho & Hn).
    exists d. pose proof (hold_nonneg m').
    split; [|split; [done|split; [done|lia]]].
    destruct (decide (d = N)) as [->|]; [exfalso|lia].
    rewrite ring_right_iter in Ho by done.
    rewrite <- (Nat.Div0.add_mod_idemp_r _ N N), Nat.Div0.mod_same,
      Nat.add_0_r, Nat.mod_small in Ho by done.
    lia.
Qed.

Lemma clk_next (g : Graph) : Gen ids g → Clk g → Clk (next g).
Proof.
  intros HG HC. pose proof (gen_len ids g HG) as Hlen.
  pose proof (gen_now ids g HG) as Hnow. split.
  - intros k m h Hk.
    rewrite next_inbox_released by (by rewrite Hlen). rewrite Hlen.
    assert (r k < N)%nat as Hr by (apply ring_right_lt; lia).
    destruct (gen_rcv g (r k) HG Hr) as (_ & _ & _ & _ & ->). simpl.
    intros ([[m' h'] t] & [= -> ->] & [Hdue Hin]%list_elem_of_filter)%list_elem_of_fmap.
    destruct (clk_rcv g (r k) m' h' t HG HC Hr Hin)
      as (d & Hd & Ho & Ht & H1 & H2).
    apply Is_true_true in Hdue. unfold entry_due in Hdue. simpl in Hdue.
    rewrite due_hold in Hdue by done. apply Z.leb_le in Hdue.
    exists (S d). split; [lia|]. rewrite Nat.iter_succ_r. split; [done|].
    rewrite ?next_now. replace (S d - 1)%nat with (S (d - 1)) by lia. lia.
  - intros i m h t Hi. rewrite next_node_waiting by (by rewrite Hlen). simpl.
    intros [Hdue Hin]%list_elem_of_filter.
    destruct (clk_rcv g i m h t HG HC Hi Hin) as (d & Hd & Ho & Ht & H1 & H2).
    apply Is_true_false in Hdue. unfold entry_due in Hdue. simpl in Hdue.
    rewrite due_hold in Hdue by done. apply Z.leb_gt in Hdue.
    exists d. rewrite ?next_now. repeat split; try done; lia.
Qed.

Lemma clk_iter (g : Graph) (n : nat) :
  fresh ids g → now g = 0 → Clk (Nat.iter (S n) next g).
Proof.
  intros Hf Hnow. induction n as [|n IH]; [by apply clk_round0|].
  apply clk_next; [by apply gen_iter|done].
Qed.

(** Past the end of the slowest timetable nothing is queued and nothing is
    waiting. *)
Lemma clk_silent (g : Graph) (M : Z) :
  Gen ids g → Clk g → (∀ k, (N ≤ k)%nat → inbox g k = []) →
  (∀ x, x ∈ ids → x ≤ M) →
  (Z.of_nat N - 1) * (hold M + 1) + 1 < now g → silent g.
Proof.
  intros HG HC Hout HM Hlate.
  assert (∀ (d : nat) m, (1 ≤ d ≤ N)%nat → m ∈ ids →
            Z.of_nat (d - 1) * (hold m + 1) ≤ (Z.of_nat N - 1) * (hold M + 1))
    as Hbound.
  { intros d m Hd Hm. pose proof (hold_nonneg m).
    pose proof (hold_mono m M (HM m Hm)).
    apply Z.mul_le_mono_nonneg; lia. }
  split.
  - intros k. destruct (decide (k < N)%nat) as [Hk|Hk]; [|apply Hout; lia].
    destruct (inbox g k) as [|[m h] l] eqn:E; [done|exfalso].
    assert ((m, h) ∈ inbox g k) as Hin by (rewrite E; left).
    destruct (clk_inbox g HC k m h Hk Hin) as (d & Hd & Ho & Hn).
    destruct (gen_inbox ids g HG k m h Hin) as [Hm _].
    specialize (Hbound d m Hd Hm). lia.
  - intros i. rewrite (gen_len ids g HG). intros Hi.
    destruct (Node.waiting (node g i)) as [|[[m h] t] l] eqn:E;
      [done|exfalso].
    assert ((m, h, t) ∈ Node.waiting (node g i)) as Hin by (rewrite E; left).
    destruct (clk_waiting g HC i m h t Hi Hin) as (d & Hd & Ho & Ht & H1 & H2).
    destruct (gen_waiting ids g HG i m h t Hi Hin) as [Hm _].
    pose proof (Hbound (S d) m ltac:(lia) Hm) as Hb.
    replace (S d - 1)%nat with (S (d - 1)) in Hb by lia. lia.
Qed.

End Clock.

(** The number of rounds after which every election over [n] nodes whose
    identifiers are at most [M] has stopped. *)
Definition rounds_to_rest (n : nat) (M : Z) : Z :=
  (Z.of_nat n - 1) * (hold M + 1) + 3.

(** X16.  An election that raises nothing terminates by itself, whatever the
    identifiers (repeated ones included) and the initiator.  On a ring of
    [N >= 1] nodes whose identifiers are at most [M], with [max_rounds] at
    least [(N - 1) * (hold M + 1) + 3]: either [run_election] is left by the
    [OverflowError] of line 97, which takes an identifier of
    [-(2^1024 - 2^970)] or less, or it returns, and then it has stopped
    because a round reported no activity, after at most that many rounds,
    and leaves every queue and every waiting list empty. *)
Theorem election_comes_to_rest
    (ids : list Z) (cap : Z) (init : option Z) (M : Z) :
  ids ≠ [] → (∀ x, x ∈ ids → x ≤ M) →
  rounds_to_rest (length ids) M ≤ cap →
  match election ids cap init with
  | Ok (g, leaders, activity) =>
      activity = false ∧ 1 ≤ now g ≤ rounds_to_rest (length ids) M ∧
      (∀ k, inbox g k = []) ∧
      (∀ i nd, heap g !! i = Some nd → Node.waiting nd = [])
  | Raise e => e = OverflowError ∧ ∃ x, x ∈ ids ∧ x ≤ - float_limit
  end.
Proof.
  intros Hne HM Hcap.
  destruct (election ids cap init) as [[[g leaders] activity]|e] eqn:Hrun;
    [|by apply (election_raise ids cap init)].
  destruct (election_runs ids cap init _ Hrun) as (k & Hk & Hall & Hstop).
  rewrite Hk in Hrun. injection Hrun as <- _ <-.
  set (g1 := prepare (ring0 ids) cap init) in *.
  assert (fresh ids g1) as Hf by apply fresh_prepare, fresh_ring0.
  assert (now g1 = 0) as Hnow by done.
  assert (∀ j, now (Nat.iter j next g1) = Z.of_nat j) as Hclock
      by (intros j; rewrite now_iter, Hnow; lia).
  rewrite Hclock in *.
  assert (0 < length ids)%nat as HN by (destruct ids; [done|simpl; lia]).
  pose proof (hold_nonneg M) as HM0.
  unfold rounds_to_rest in *.
  set (B := (Z.of_nat (length ids) - 1) * (hold M + 1)) in *.
  assert (0 ≤ B) as HB by (unfold B; nia).
  set (nB := Z.to_nat (B + 1)).
  assert (silent (Nat.iter (S nB) next g1)) as Hsil.
  { apply (clk_silent ids _ M).
    - by apply gen_iter.
    - by apply clk_iter.
    - intros j Hj.
      change (Nat.iter (S nB) next g1) with (next (Nat.iter nB next g1)).
      apply next_inbox_ge. rewrite length_iter_next.
      unfold g1. simpl. rewrite length_imap. lia.
    - done.
    - rewrite Hclock. fold B. lia. }
  assert (flag_at g1 (S (S nB)) = false) as Hflag.
  { simpl. by apply (silent_is_stable ids); [apply gen_iter|]. }
  assert (k ≤ S (S nB))%nat as Hk_le.
  { destruct (decide (k ≤ S (S nB))%nat) as [|Hgt]; [done|exfalso].
    destruct (Hall (S (S nB)) ltac:(lia)) as [Ht _]. congruence. }
  assert (flag_at g1 k = false) as Hq.
  { destruct Hstop as [|Hc]; [done|].
    assert (k = S (S nB)) as -> by lia. done. }
  destruct k as [|k]; [done|].
  assert (silent (Nat.iter (S k) next g1)) as [Hin Hw]
      by (apply silent_after_quiet_round; exact Hq).
  split; [done|]. split; [lia|]. split; [done|].
  intros i nd [Hi <-]%lookup_node. by apply Hw.
Qed.

Lemma election_comes_to_rest_witness :
  rounds_to_rest 4 4 = 51 ∧
  ∃ g,
    election [3; 1; 4; 2] 51 (Some 4) = Ok (g, [1%nat], false) ∧
    now g = 8 ∧
    (∀ k, inbox g k = []).
Proof.
  split; [reflexivity|].
  eexists. split; [vm_compute; reflexivity|]. split; [reflexivity|].
  match goal with |- ∀ k, inbox ?gg k = [] => set (ga := gg) end.
  assert (election [3; 1; 4; 2] 51 (Some 4) = Ok (ga, [1%nat], false)) as E
      by (vm_compute; reflexivity).
  assert ([3; 1; 4; 2] ≠ []) as H1 by done.
  assert (∀ x, x ∈ [3; 1; 4; 2] → x ≤ 4) as H2
      by (apply Forall_forall; repeat constructor; lia).
  assert (rounds_to_rest (length [3; 1; 4; 2]) 4 ≤ 51) as H3
      by (vm_compute; discriminate).
  pose proof (election_comes_to_rest [3; 1; 4; 2] 51 (Some 4) 4 H1 H2 H3)
    as H.
  rewrite E in H. exact (proj1 (proj2 (proj2 H))).
Defined.

(** ** A node woken up by a message *)

Lemma receive_loop_status (now : Z) (R : list Msg) :
  ∀ nd S0,
    Node.status nd ≠ relay → Node.status nd ≠ asleep →
    Node.status (foldl (receive now) (nd, S0) R).1 ≠ relay ∧
    Node.status (foldl (receive now) (nd, S0) R).1 ≠ asleep.
Proof.
  induction R as [|[m h] R IH]; intros nd S0 Hr Ha; [done|].
  cbn [foldl]. destruct (receive now (nd, S0) (m, h)) as [nd' S'] eqn:E.
  apply IH; unfold receive in E;
    destruct (accepts m (Node.min nd));
    destruct (bool_decide (Node.status nd = relay) && (h =? 1));
    destruct (m =? Node.id nd); injection E as <- <-; done.
Qed.

(** X17.  The status [relay] never outlives the iteration that sets it.
    The iteration of a node that is no relay when its turn starts raises
    [OverflowError] at line 97 exactly when one of the entries it then
    holds in [waiting] has an identifier of [-(2^1024 - 2^970)] or less;
    otherwise the node is neither a relay nor asleep when its turn ends,
    whatever it receives.  A sleeping node woken up by a message accepts the
    first message [(m, h)] of [R] in any case: it ends [not_elected] or
    [elected], with the smallest identifier received as [min]; if [h = 1]
    that first message is passed on in the same round, at the head of [S]
    and without entering [waiting]; otherwise it is put into [waiting] as a
    second-phase message like every later message that lowers [min]. *)
Theorem relay_status_never_outlives_the_round
    (now : Z) (R : list Msg) (nd : Node.t) :
  Node.status nd ≠ relay →
  match node_round now R nd with
  | Raise e =>
      e = OverflowError ∧
      ∃ w : WaitEntry, w ∈ held now R nd ∧ w.1.1 ≤ - float_limit
  | Ok out =>
      (∀ w : WaitEntry, w ∈ held now R nd → - float_limit < w.1.1) ∧
      Node.status out.1 ≠ relay ∧ Node.status out.1 ≠ asleep ∧
      ∀ (m h : Z) (R' : list Msg),
        Node.status nd = asleep → R = (m, h) :: R' →
        let W :=
          Node.waiting nd
          ++ (if h =? 1 then [] else [(m, 2, now)]) ++ accepted now m R' in
        (Node.status out.1 = not_elected ∨ Node.status out.1 = elected) ∧
        Node.min out.1 = MinNum (low m R') ∧
        Node.waiting out.1 = filter (λ e, ¬ entry_due now e) W ∧
        out.2 = (if h =? 1 then [(m, 1)] else [])
                ++ (entry_msg <$> filter (λ e, entry_due now e) W)
  end.
Proof.
  intros Hr. rewrite node_round_spec.
  destruct (safe_node now R nd) eqn:Hsafe.
  2:{ split; [done|].
      destruct (decide (Forall (λ w : WaitEntry, - float_limit < w.1.1)
                          (held now R nd))) as [Hall|Hex].
      - exfalso. unfold safe_node in Hsafe.
        assert (forallb (λ e : WaitEntry, fits e.1.1) (held now R nd) = true)
          as E; [|congruence].
        apply forallb_forall. intros w Hw%list_elem_of_In.
        apply fits_spec. by apply (proj1 (Forall_forall _ _) Hall).
      - apply not_Forall_Exists in Hex; [|apply _].
        apply Exists_exists in Hex as (w & Hw & Hlt).
        exists w. split; [done|]. simpl in Hlt. lia. }
  split.
  { intros w Hw. apply fits_spec. unfold safe_node in Hsafe.
    apply (proj1 (forallb_forall _ _) Hsafe w). by apply list_elem_of_In. }
  rewrite node_step_eq. cbv zeta.
  apply and_assoc. split.
  - simpl. unfold activate. case_decide as Ha.
    + destruct R as [|[m h] R']; [done|]. cbn [foldl].
      destruct (receive now (Node.set_min MinInf (Node.set_status relay nd),
                             []) (m, h)) as [nd' S'] eqn:E.
      apply receive_loop_status; unfold receive in E; simpl in E;
        destruct (h =? 1); injection E as <- <-; done.
    + by apply receive_loop_status.
  - intros m h R' Ha ->. unfold activate. rewrite decide_True by done.
    cbn [foldl].
    set (nd1 := Node.set_min (MinNum m)
                  (Node.set_status not_elected
                     (Node.set_min MinInf (Node.set_status relay nd)))).
    assert (receive now (Node.set_min MinInf (Node.set_status relay nd), [])
                    (m, h)
            = if h =? 1 then (nd1, [(m, h) : Msg])
              else (Node.set_waiting (Node.waiting nd1 ++ [(m, 2, now)]) nd1,
                    @nil Msg)) as ->
        by (unfold receive; simpl; by destruct (h =? 1)).
    destruct (Z.eqb_spec h 1) as [->|Hh].
    + match goal with |- context [foldl (receive now) (?n0, ?s0) R'] =>
        destruct (receive_loop_general now R' n0 s0 m eq_refl ltac:(done))
          as (H1 & H2 & H3 & _ & H5 & _)
      end.
      cbv zeta in *. simpl in H2, H5. simpl. rewrite H1, H2, H3.
      split; [destruct H5 as [E|[E|E]]; rewrite E; auto|]. done.
    + match goal with |- context [foldl (receive now) (?n0, ?s0) R'] =>
        destruct (receive_loop_general now R' n0 s0 m eq_refl ltac:(done))
          as (H1 & H2 & H3 & _ & H5 & _)
      end.
      cbv zeta in *. simpl in H1, H2, H3, H5. simpl. rewrite H1, H2, H3.
      rewrite <- app_assoc. simpl.
      split; [destruct H5 as [E|[E|E]]; rewrite E; auto|]. done.
Qed.

Lemma relay_status_never_outlives_the_round_witness :
  Node.status (Node.init 5) ≠ relay ∧
  node_round 0 [(3, 1); (2, 2)] (Node.init 5)
  = Ok (Node.mk 5 None None not_elected (MinNum 2) [(2, 2, 0)] false,
        [(3, 1)]) ∧
  node_round 0 [(- 2 ^ 1024, 2)] (Node.init 5) = Raise OverflowError ∧
  ∃ w : WaitEntry,
    w ∈ held 0 [(- 2 ^ 1024, 2)] (Node.init 5) ∧ w.1.1 ≤ - float_limit.
Proof.
  split; [done|]. split; [vm_compute; reflexivity|].
  split; [vm_compute; reflexivity|].
  pose proof (relay_status_never_outlives_the_round
                0 [(- 2 ^ 1024, 2)] (Node.init 5) ltac:(done)) as H.
  assert (node_round 0 [(- 2 ^ 1024, 2)] (Node.init 5) = Raise OverflowError)
    as E by (vm_compute; reflexivity).
  rewrite E in H. exact (proj2 H).
Defined.
